(** * The mycat family: file-to-stdout copy utilities

    A shallow embedding of [mycat1.c], [mycat2.c], [mycat4.c], [mycat5.c]
    and [mycat6.c].  The five programs read one input file and stream it to
    standard output; they differ in how the I/O buffer is sized and
    allocated.

    The C code talks to the operating system and to the C library.  Their
    answers are not determined by the program, so they are collected in an
    [env]ironment record (what [sysconf], [malloc], [open], [fstat],
    [posix_fadvise], [read], [write] and [close] return, and the contents of
    the input file).  The program itself is a computation in a small monad
    that threads the process [state] (memory, live heap blocks, file offset,
    standard output, standard error and a log of the calls that acquire,
    move or release something) and that can stop with [exit].

    Platform: LP64 ([long], [size_t], [uintptr_t] and pointers are 64 bits
    wide), as the code's use of [long] for the page size assumes. *)

From stdpp Require Import gmap.
From Stdlib Require Import ZArith Lia.

Local Open Scope Z_scope.

(** ** Machine integers *)

(** [size_t] and [uintptr_t] arithmetic is arithmetic modulo [2^64]. *)
Definition SIZE_MODULUS : Z := 2 ^ 64.

(** Conversion to [size_t] / [uintptr_t]: the value modulo [2^64]. *)
Definition to_size (x : Z) : Z := x mod SIZE_MODULUS.

(** [~x] on a [size_t]. *)
Definition size_not (x : Z) : Z := to_size (Z.lnot x).

(** [sizeof(void* )]. *)
Definition sizeof_ptr : Z := 8.

(** The range of [long] (and of [ssize_t], [blksize_t]). *)
Definition long_range (x : Z) : Prop := - 2 ^ 63 <= x < 2 ^ 63.

Definition EXIT_SUCCESS : Z := 0.
Definition EXIT_FAILURE : Z := 1.
Definition STDOUT_FILENO : Z := 1.
Definition NULL : Z := 0.

(** ** Byte-addressed memory *)

(** A byte that was never written reads as [0] (its value is indeterminate
    in C; the programs never read such a byte). *)
Definition load_byte (m : gmap Z Z) (a : Z) : Z := default 0 (m !! a).

Fixpoint store_bytes (m : gmap Z Z) (a : Z) (bs : list Z) : gmap Z Z :=
  match bs with
  | [] => m
  | b :: bs' => store_bytes (<[a := b]> m) (a + 1) bs'
  end.

Fixpoint load_bytes (m : gmap Z Z) (a : Z) (n : nat) : list Z :=
  match n with
  | O => []
  | S n' => load_byte m a :: load_bytes m (a + 1) n'
  end.

(** [*(char** )a = p] and [*(char** )a]: a pointer occupies [sizeof_ptr]
    bytes, least significant byte first. *)
Definition store_ptr (m : gmap Z Z) (a p : Z) : gmap Z Z :=
  store_bytes m a (Z_to_little_endian sizeof_ptr 8 p).

Definition load_ptr (m : gmap Z Z) (a : Z) : Z :=
  little_endian_to_Z 8 (load_bytes m a (Z.to_nat sizeof_ptr)).

(** ** The environment *)

Record env : Type := Env {
  argc : Z;                 (* number of command-line words *)
  stack_buf : Z;            (* address of [char buffer[1]] in main's frame (mycat1) *)
  sysconf_ret : Z;          (* sysconf(_SC_PAGESIZE): the page size, or -1 *)
  malloc_ret : Z -> Z;      (* malloc(n): address of the new block, or NULL *)
  open_ret : Z;             (* open(argv[1], O_RDONLY): a descriptor, or -1 *)
  fstat_ret : Z;            (* fstat(fd, &st): 0, or -1 *)
  st_blksize : Z;           (* st.st_blksize after a successful fstat *)
  fadvise_ret : Z;          (* posix_fadvise(...): 0, or an error number *)
  file : list Z;            (* the bytes of the input file *)
  read_ret : nat -> nat -> Z -> Z;
                            (* read: call number, file offset, count -> return value *)
  write_ret : nat -> Z -> Z;(* write: call number, count -> return value *)
  close_ret : Z             (* close(fd): 0, or -1 *)
}.

(** ** The process state *)

(** Diagnostics written to the error stream.  The texts differ between the
    files (Chinese in mycat1/2/4/6, English in mycat5); only their kind is
    kept. *)
Inductive msg : Type :=
| MsgUsage                  (* fprintf(stderr, usage) *)
| MsgWarnPageSize           (* perror: page size unavailable, using 4096 *)
| MsgWarnFstat              (* perror: filesystem block size unavailable *)
| MsgWarnFadvise            (* perror: posix_fadvise failed *)
| MsgFadviseDone            (* fprintf(stderr, hint issued) *)
| MsgBufferSize (n : Z)     (* fprintf(stderr, buffer size in use) *)
| MsgAllocFailed            (* perror: allocation failed *)
| MsgOpenFailed             (* perror: open failed *)
| MsgWriteFailed            (* perror: write failed or incomplete *)
| MsgReadFailed             (* perror: read failed *)
| MsgCloseFailed.           (* perror: close failed *)

(** Calls that acquire, move or release something, in program order. *)
Inductive event : Type :=
| EvMalloc (n p : Z)
| EvFree (p : Z)
| EvOpen (fd : Z)
| EvRead (fd buf count ret : Z) (data : list Z)
| EvWrite (fd buf count ret : Z) (data : list Z)
| EvClose (fd ret : Z).

Record state : Type := State {
  mem : gmap Z Z;           (* memory contents *)
  heap : gmap Z Z;          (* live malloc blocks: start address -> size *)
  pos : nat;                (* offset of the input descriptor *)
  nreads : nat;             (* read calls made so far *)
  nwrites : nat;            (* write calls made so far *)
  out : list Z;             (* bytes on standard output *)
  err : list msg;           (* diagnostics on standard error *)
  log : list event          (* calls made so far *)
}.

Definition initial : state :=
  {| mem := ∅; heap := ∅; pos := 0; nreads := 0; nwrites := 0;
     out := []; err := []; log := [] |}.

Definition add_err (m : msg) (s : state) : state :=
  {| mem := mem s; heap := heap s; pos := pos s; nreads := nreads s;
     nwrites := nwrites s; out := out s; err := err s ++ [m]; log := log s |}.

Definition add_log (ev : event) (s : state) : state :=
  {| mem := mem s; heap := heap s; pos := pos s; nreads := nreads s;
     nwrites := nwrites s; out := out s; err := err s; log := log s ++ [ev] |}.

Definition set_mem (m : gmap Z Z) (s : state) : state :=
  {| mem := m; heap := heap s; pos := pos s; nreads := nreads s;
     nwrites := nwrites s; out := out s; err := err s; log := log s |}.

Definition set_heap (h : gmap Z Z) (s : state) : state :=
  {| mem := mem s; heap := h; pos := pos s; nreads := nreads s;
     nwrites := nwrites s; out := out s; err := err s; log := log s |}.

(** ** The program monad *)

Inductive result (A : Type) : Type :=
| Ret (a : A) (s : state)       (* the computation returned [a] *)
| Exit (code : Z) (s : state)   (* exit(code) was called *)
| Crash (s : state)             (* undefined behaviour: free of a pointer
                                   that is not the start of a live block *)
| OutOfFuel (s : state).        (* the loop was cut off *)

Arguments Ret {A} a s.
Arguments Exit {A} code s.
Arguments Crash {A} s.
Arguments OutOfFuel {A} s.

Definition M (A : Type) : Type := env -> state -> result A.

Definition ret {A : Type} (a : A) : M A := fun _ s => Ret a s.

Definition bind {A B : Type} (m : M A) (k : A -> M B) : M B :=
  fun e s =>
    match m e s with
    | Ret a s' => k a e s'
    | Exit c s' => Exit c s'
    | Crash s' => Crash s'
    | OutOfFuel s' => OutOfFuel s'
    end.

Declare Scope prog_scope.
Delimit Scope prog_scope with prog.
Notation "'let*' x ':=' m 'in' k" := (bind m (fun x => k))
  (at level 10, x name, m at level 100, k at level 200) : prog_scope.
Notation "m '>>' k" := (bind m (fun _ => k))
  (at level 90, right associativity) : prog_scope.
Local Open Scope prog_scope.

(** [if (c) { body }] *)
Definition when (c : bool) (body : M unit) : M unit :=
  if c then body else ret tt.

(** ** System and library calls *)

Definition get_argc : M Z := fun e s => Ret (argc e) s.

(** The address of [char buffer[1]] in main's frame. *)
Definition stack_buffer : M Z := fun e s => Ret (stack_buf e) s.

Definition sysconf_PAGESIZE : M Z := fun e s => Ret (sysconf_ret e) s.

Definition perror (m : msg) : M unit := fun _ s => Ret tt (add_err m s).

Definition fprintf_stderr (m : msg) : M unit := fun _ s => Ret tt (add_err m s).

Definition exit {A : Type} (code : Z) : M A := fun _ s => Exit code s.

Definition out_of_fuel {A : Type} : M A := fun _ s => OutOfFuel s.

(** [malloc(n)]: the allocator picks the address, a pointer value; a
    non-null result is a new live block of [n] bytes. *)
Definition malloc (n : Z) : M Z := fun e s =>
  let p := to_size (malloc_ret e n) in
  if p =? NULL then Ret NULL (add_log (EvMalloc n NULL) s)
  else Ret p (add_log (EvMalloc n p) (set_heap (<[p := n]> (heap s)) s)).

(** [free(p)]: nothing for [NULL]; releases the live block starting at [p];
    anything else is undefined behaviour. *)
Definition free (p : Z) : M unit := fun _ s =>
  if p =? NULL then Ret tt s
  else match heap s !! p with
       | Some _ => Ret tt (add_log (EvFree p) (set_heap (delete p (heap s)) s))
       | None => Crash s
       end.

Definition store_pointer (a p : Z) : M unit := fun _ s =>
  Ret tt (set_mem (store_ptr (mem s) a p) s).

Definition load_pointer (a : Z) : M Z := fun _ s =>
  Ret (load_ptr (mem s) a) s.

Definition open_rdonly : M Z := fun e s =>
  Ret (open_ret e) (add_log (EvOpen (open_ret e)) s).

(** [fstat(fd, &st)]: the return value and [st.st_blksize]. *)
Definition fstat (fd : Z) : M (Z * Z) := fun e s =>
  Ret (fstat_ret e, st_blksize e) s.

(** [posix_fadvise(fd, 0, 0, POSIX_FADV_SEQUENTIAL)]. *)
Definition posix_fadvise (fd : Z) : M Z := fun e s => Ret (fadvise_ret e) s.

(** [read(fd, buf, count)]: the kernel returns [r]; the first [r] bytes of
    the file from the current offset on are delivered at [buf] and the
    offset advances by the number of bytes delivered. *)
Definition do_read (e : env) (fd buf count : Z) (s : state) : Z * state :=
  let r := read_ret e (nreads s) (pos s) count in
  let data := take (Z.to_nat r) (drop (pos s) (file e)) in
  (r, {| mem := store_bytes (mem s) buf data; heap := heap s;
         pos := (pos s + length data)%nat; nreads := S (nreads s);
         nwrites := nwrites s; out := out s; err := err s;
         log := log s ++ [EvRead fd buf count r data] |}).

Definition read (fd buf count : Z) : M Z := fun e s =>
  let (r, s') := do_read e fd buf count s in Ret r s'.

(** [write(STDOUT_FILENO, buf, count)]: the kernel returns [w]; the first
    [w] of the [count] bytes at [buf] reach standard output. *)
Definition do_write (e : env) (fd buf count : Z) (s : state) : Z * state :=
  let w := write_ret e (nwrites s) count in
  let data := take (Z.to_nat w) (load_bytes (mem s) buf (Z.to_nat count)) in
  (w, {| mem := mem s; heap := heap s; pos := pos s; nreads := nreads s;
         nwrites := S (nwrites s); out := out s ++ data; err := err s;
         log := log s ++ [EvWrite fd buf count w data] |}).

Definition write (fd buf count : Z) : M Z := fun e s =>
  let (w, s') := do_write e fd buf count s in Ret w s'.

Definition close (fd : Z) : M Z := fun e s =>
  Ret (close_ret e) (add_log (EvClose fd (close_ret e)) s).

(** ** The programs *)

(** The copy loop, as it is written in every [main]:
<<
    while ((bytes_read = read(fd_in, buffer, count)) > 0) {
        bytes_written = write(STDOUT_FILENO, buffer, wlen);
        if (bytes_written != wlen) {
            perror(...); cleanup; exit(EXIT_FAILURE);
        }
    }
>>
    where [wlen] is the constant [1] in mycat1 and [bytes_read] in the
    other files, and [cleanup] is [close(fd_in)] followed by the release of
    the buffer, if the file has one.  The value of the loop is the last
    [bytes_read].  C has no bound on the number of iterations; [fuel] cuts
    the loop off and the cut is visible as [OutOfFuel]. *)
Fixpoint copy_loop (fuel : nat) (fd_in buffer count : Z) (wlen : Z -> Z)
    (cleanup : M unit) : M Z :=
  match fuel with
  | O => out_of_fuel
  | S fuel' =>
      let* bytes_read := read fd_in buffer count in
      if 0 <? bytes_read then
        let* bytes_written := write STDOUT_FILENO buffer (wlen bytes_read) in
        if negb (bytes_written =? wlen bytes_read) then
          perror MsgWriteFailed >> cleanup >> exit EXIT_FAILURE
        else copy_loop fuel' fd_in buffer count wlen cleanup
      else ret bytes_read
  end.

(** *** mycat1.c: one byte at a time, buffer in main's frame *)
Module Mycat1.

Definition main (fuel : nat) : M Z :=
  let* argc := get_argc in
  when (negb (argc =? 2)) (fprintf_stderr MsgUsage >> exit EXIT_FAILURE) >>
  let* buffer := stack_buffer in
  let* fd_in := open_rdonly in
  when (fd_in =? -1) (perror MsgOpenFailed >> exit EXIT_FAILURE) >>
  let* bytes_read :=
    copy_loop fuel fd_in buffer 1 (fun _ => 1) (close fd_in >> ret tt) in
  when (bytes_read =? -1)
    (perror MsgReadFailed >> close fd_in >> exit EXIT_FAILURE) >>
  let* closed := close fd_in in
  when (closed =? -1) (perror MsgCloseFailed >> exit EXIT_FAILURE) >>
  ret EXIT_SUCCESS.

End Mycat1.

(** *** mycat2.c: a malloc'ed buffer of one page *)
Module Mycat2.

Definition io_blocksize : M Z :=
  let* page_size := sysconf_PAGESIZE in
  if page_size =? -1 then
    perror MsgWarnPageSize >> ret 4096
  else ret (to_size page_size).

Definition main (fuel : nat) : M Z :=
  let* argc := get_argc in
  when (negb (argc =? 2)) (fprintf_stderr MsgUsage >> exit EXIT_FAILURE) >>
  let* buffer_size := io_blocksize in
  fprintf_stderr (MsgBufferSize buffer_size) >>
  let* buffer := malloc buffer_size in
  when (buffer =? NULL) (perror MsgAllocFailed >> exit EXIT_FAILURE) >>
  let* fd_in := open_rdonly in
  when (fd_in =? -1)
    (perror MsgOpenFailed >> free buffer >> exit EXIT_FAILURE) >>
  let* bytes_read :=
    copy_loop fuel fd_in buffer buffer_size (fun bytes_read => bytes_read)
      (close fd_in >> free buffer) in
  when (bytes_read =? -1)
    (perror MsgReadFailed >> close fd_in >> free buffer >> exit EXIT_FAILURE) >>
  let* closed := close fd_in in
  when (closed =? -1)
    (perror MsgCloseFailed >> free buffer >> exit EXIT_FAILURE) >>
  free buffer >>
  ret EXIT_SUCCESS.

End Mycat2.

(** *** The page-aligned allocator of mycat4.c, mycat5.c and mycat6.c

    [get_system_page_size], [align_alloc] and [align_free] are the same
    code in the three files (up to comments and the wording of the
    warning). *)

Definition get_system_page_size : M Z :=
  let* page_size := sysconf_PAGESIZE in
  if page_size =? -1 then
    perror MsgWarnPageSize >> ret 4096
  else ret page_size.

(** [((uintptr_t)(original_ptr + sizeof(void* )) + page_size - 1) & ~(page_size - 1)] *)
Definition aligned_addr (original_ptr page_size : Z) : Z :=
  Z.land (to_size (to_size (original_ptr + sizeof_ptr) + page_size - 1))
         (size_not (to_size (page_size - 1))).

Definition align_alloc (size : Z) : M Z :=
  let* page_size_l := get_system_page_size in
  let page_size := to_size page_size_l in
  let* original_ptr := malloc (to_size (size + page_size - 1 + sizeof_ptr)) in
  if original_ptr =? NULL then ret NULL
  else
    let aligned_ptr := aligned_addr original_ptr page_size in
    store_pointer (aligned_ptr - sizeof_ptr) original_ptr >>
    ret aligned_ptr.

Definition align_free (ptr : Z) : M unit :=
  if ptr =? NULL then ret tt
  else
    let* original_ptr := load_pointer (ptr - sizeof_ptr) in
    free original_ptr.

(** *** mycat4.c: aligned buffer sized by the filesystem's block size *)
Module Mycat4.

Definition io_blocksize (fd : Z) : M Z :=
  let* page_size := get_system_page_size in
  let* st := fstat fd in
  let* fs_block_size :=
    (if fst st =? 0 then ret (snd st)
     else perror MsgWarnFstat >> ret 0) in
  let recommended_size :=
    if 0 <? fs_block_size then to_size fs_block_size
    else to_size page_size in
  let recommended_size :=
    if recommended_size <? to_size page_size then to_size page_size
    else recommended_size in
  ret recommended_size.

Definition main (fuel : nat) : M Z :=
  let* argc := get_argc in
  when (negb (argc =? 2)) (fprintf_stderr MsgUsage >> exit EXIT_FAILURE) >>
  let* fd_in := open_rdonly in
  when (fd_in =? -1) (perror MsgOpenFailed >> exit EXIT_FAILURE) >>
  let* buffer_size := io_blocksize fd_in in
  fprintf_stderr (MsgBufferSize buffer_size) >>
  let* buffer := align_alloc buffer_size in
  when (buffer =? NULL)
    (perror MsgAllocFailed >> close fd_in >> exit EXIT_FAILURE) >>
  let* bytes_read :=
    copy_loop fuel fd_in buffer buffer_size (fun bytes_read => bytes_read)
      (close fd_in >> align_free buffer) in
  when (bytes_read =? -1)
    (perror MsgReadFailed >> close fd_in >> align_free buffer >>
     exit EXIT_FAILURE) >>
  let* closed := close fd_in in
  when (closed =? -1)
    (perror MsgCloseFailed >> align_free buffer >> exit EXIT_FAILURE) >>
  align_free buffer >>
  ret EXIT_SUCCESS.

End Mycat4.

(** *** mycat5.c: aligned buffer of a fixed 2 MiB *)
Module Mycat5.

Definition OPTIMAL_BUFFER_SIZE : Z := 2 * 1024 * 1024.

Definition io_blocksize : M Z := ret OPTIMAL_BUFFER_SIZE.

Definition main (fuel : nat) : M Z :=
  let* argc := get_argc in
  when (negb (argc =? 2)) (fprintf_stderr MsgUsage >> exit EXIT_FAILURE) >>
  let* fd_in := open_rdonly in
  when (fd_in =? -1) (perror MsgOpenFailed >> exit EXIT_FAILURE) >>
  let* buffer_size := io_blocksize in
  fprintf_stderr (MsgBufferSize buffer_size) >>
  let* buffer := align_alloc buffer_size in
  when (buffer =? NULL)
    (perror MsgAllocFailed >> close fd_in >> exit EXIT_FAILURE) >>
  let* bytes_read :=
    copy_loop fuel fd_in buffer buffer_size (fun bytes_read => bytes_read)
      (close fd_in >> align_free buffer) in
  when (bytes_read =? -1)
    (perror MsgReadFailed >> close fd_in >> align_free buffer >>
     exit EXIT_FAILURE) >>
  let* closed := close fd_in in
  when (closed =? -1)
    (perror MsgCloseFailed >> align_free buffer >> exit EXIT_FAILURE) >>
  align_free buffer >>
  ret EXIT_SUCCESS.

End Mycat5.

(** *** mycat6.c: mycat5 with a sequential-access hint *)
Module Mycat6.

Definition OPTIMAL_BUFFER_SIZE : Z := 2 * 1024 * 1024.

Definition io_blocksize : M Z := ret OPTIMAL_BUFFER_SIZE.

Definition main (fuel : nat) : M Z :=
  let* argc := get_argc in
  when (negb (argc =? 2)) (fprintf_stderr MsgUsage >> exit EXIT_FAILURE) >>
  let* fd_in := open_rdonly in
  when (fd_in =? -1) (perror MsgOpenFailed >> exit EXIT_FAILURE) >>
  let* advised := posix_fadvise fd_in in
  (if advised =? -1 then perror MsgWarnFadvise
   else fprintf_stderr MsgFadviseDone) >>
  let* buffer_size := io_blocksize in
  fprintf_stderr (MsgBufferSize buffer_size) >>
  let* buffer := align_alloc buffer_size in
  when (buffer =? NULL)
    (perror MsgAllocFailed >> close fd_in >> exit EXIT_FAILURE) >>
  let* bytes_read :=
    copy_loop fuel fd_in buffer buffer_size (fun bytes_read => bytes_read)
      (close fd_in >> align_free buffer) in
  when (bytes_read =? -1)
    (perror MsgReadFailed >> close fd_in >> align_free buffer >>
     exit EXIT_FAILURE) >>
  let* closed := close fd_in in
  when (closed =? -1)
    (perror MsgCloseFailed >> align_free buffer >> exit EXIT_FAILURE) >>
  align_free buffer >>
  ret EXIT_SUCCESS.

End Mycat6.

(** ** Running a program *)

Inductive variant : Type := Cat1 | Cat2 | Cat4 | Cat5 | Cat6.

Inductive outcome : Type :=
| Finished (code : Z) (s : state)   (* the process ended with this status *)
| Crashed (s : state)
| Unfinished (s : state).           (* still in the loop when the fuel ran out *)

Definition main_of (v : variant) : nat -> M Z :=
  match v with
  | Cat1 => Mycat1.main
  | Cat2 => Mycat2.main
  | Cat4 => Mycat4.main
  | Cat5 => Mycat5.main
  | Cat6 => Mycat6.main
  end.

(** Returning [c] from [main] ends the process like [exit(c)]. *)
Definition to_outcome (r : result Z) : outcome :=
  match r with
  | Ret c s => Finished c s
  | Exit c s => Finished c s
  | Crash s => Crashed s
  | OutOfFuel s => Unfinished s
  end.

(** A process starts in the [initial] state. *)
Definition run (v : variant) (e : env) (fuel : nat) : outcome :=
  to_outcome (main_of v fuel e initial).

Definition final (o : outcome) : state :=
  match o with
  | Finished _ s => s
  | Crashed s => s
  | Unfinished s => s
  end.

(** ** From the copy loop to the end of [main] *)

(** Releasing the buffer: the block that is freed, if the program has one. *)
Definition released (blk : option Z) (s : state) : state :=
  match blk with
  | None => s
  | Some p => add_log (EvFree p) (set_heap (delete p (heap s)) s)
  end.

(** Every [main] ends in the same way: the copy loop, the test for a read
    error, [close], and the release of the buffer on each path. *)
Definition finish (fuel : nat) (fd_in buffer count : Z) (wlen : Z -> Z)
    (release : M unit) : M Z :=
  let* bytes_read :=
    copy_loop fuel fd_in buffer count wlen (close fd_in >> release) in
  when (bytes_read =? -1)
    (perror MsgReadFailed >> close fd_in >> release >> exit EXIT_FAILURE) >>
  let* closed := close fd_in in
  when (closed =? -1) (perror MsgCloseFailed >> release >> exit EXIT_FAILURE) >>
  release >>
  ret EXIT_SUCCESS.

(** [s] has the heap of [s_in] and the memory of [s_in] below [buf]. *)
Definition agree (buf : Z) (s_in s : state) : Prop :=
  heap s = heap s_in /\ forall x, x < buf -> mem s !! x = mem s_in !! x.

(** The ways in which [finish] ends, seen from the state [s0] at the head
    of its last iteration. *)
Inductive finish_outcome (e : env) (fd buf count : Z) (wlen : Z -> Z)
    (blk : option Z) (s0 : state) : result Z -> Prop :=
| FO_fuel :
    finish_outcome e fd buf count wlen blk s0 (OutOfFuel s0)
| FO_write_failed r s1 w s2 :
    do_read e fd buf count s0 = (r, s1) -> 0 < r ->
    do_write e STDOUT_FILENO buf (wlen r) s1 = (w, s2) -> w <> wlen r ->
    finish_outcome e fd buf count wlen blk s0
      (Exit EXIT_FAILURE
         (released blk (add_log (EvClose fd (close_ret e))
                          (add_err MsgWriteFailed s2))))
| FO_read_failed r s1 :
    do_read e fd buf count s0 = (r, s1) -> r = -1 ->
    finish_outcome e fd buf count wlen blk s0
      (Exit EXIT_FAILURE
         (released blk (add_log (EvClose fd (close_ret e))
                          (add_err MsgReadFailed s1))))
| FO_close_failed r s1 :
    do_read e fd buf count s0 = (r, s1) -> r <= 0 -> r <> -1 ->
    close_ret e = -1 ->
    finish_outcome e fd buf count wlen blk s0
      (Exit EXIT_FAILURE
         (released blk (add_err MsgCloseFailed
                          (add_log (EvClose fd (close_ret e)) s1))))
| FO_success r s1 :
    do_read e fd buf count s0 = (r, s1) -> r <= 0 -> r <> -1 ->
    close_ret e <> -1 ->
    finish_outcome e fd buf count wlen blk s0
      (Ret EXIT_SUCCESS
         (released blk (add_log (EvClose fd (close_ret e)) s1))).

(** ** What each [main] has set up when it reaches the copy loop *)

(** The page size the programs work with: [sysconf]'s answer, or 4096. *)
Definition page_size_of (e : env) : Z :=
  if sysconf_ret e =? -1 then 4096 else sysconf_ret e.

(** The value of [buffer_size] in each [main]. *)
Definition count_of (v : variant) (e : env) : Z :=
  match v with
  | Cat1 => 1
  | Cat2 => if sysconf_ret e =? -1 then 4096 else to_size (sysconf_ret e)
  | Cat4 =>
      let fs_block_size := if fstat_ret e =? 0 then st_blksize e else 0 in
      let recommended_size :=
        if 0 <? fs_block_size then to_size fs_block_size
        else to_size (page_size_of e) in
      if recommended_size <? to_size (page_size_of e)
      then to_size (page_size_of e) else recommended_size
  | Cat5 => Mycat5.OPTIMAL_BUFFER_SIZE
  | Cat6 => Mycat6.OPTIMAL_BUFFER_SIZE
  end.

(** The number of bytes each [main] asks [malloc] for. *)
Definition request_of (v : variant) (e : env) : Z :=
  match v with
  | Cat1 => 0
  | Cat2 => count_of v e
  | _ => to_size (count_of v e + to_size (page_size_of e) - 1 + sizeof_ptr)
  end.

(** The block [malloc] hands out for that request. *)
Definition block_of (v : variant) (e : env) : Z :=
  to_size (malloc_ret e (request_of v e)).

(** The value of [buffer] in each [main]. *)
Definition buffer_of (v : variant) (e : env) : Z :=
  match v with
  | Cat1 => stack_buf e
  | Cat2 => block_of v e
  | _ => aligned_addr (block_of v e) (to_size (page_size_of e))
  end.

(** The number of bytes each loop passes to [write] after a read of [r]. *)
Definition wlen_of (v : variant) : Z -> Z :=
  match v with
  | Cat1 => fun _ => 1
  | _ => fun bytes_read => bytes_read
  end.

(** How each [main] releases its buffer. *)
Definition release_of (v : variant) (buffer : Z) : M unit :=
  match v with
  | Cat1 => ret tt
  | Cat2 => free buffer
  | _ => align_free buffer
  end.

(** The heap block behind the buffer, if any. *)
Definition blk_of (v : variant) (e : env) : option Z :=
  match v with
  | Cat1 => None
  | _ => Some (block_of v e)
  end.

(** The calls made before the loop. *)
Definition acquire_log (v : variant) (e : env) : list event :=
  match v with
  | Cat1 => [EvOpen (open_ret e)]
  | Cat2 => [EvMalloc (request_of v e) (block_of v e); EvOpen (open_ret e)]
  | _ => [EvOpen (open_ret e); EvMalloc (request_of v e) (block_of v e)]
  end.

(** Diagnostics that do not end the program. *)
Definition notice (m : msg) : Prop :=
  match m with
  | MsgWarnPageSize | MsgWarnFstat | MsgWarnFadvise | MsgFadviseDone
  | MsgBufferSize _ => True
  | _ => False
  end.

(** The diagnostics each [main] has written when it reaches the loop. *)
Definition notices (v : variant) (e : env) : list msg :=
  let warn_page :=
    if sysconf_ret e =? -1 then [MsgWarnPageSize] else [] in
  let warn_fstat := if fstat_ret e =? 0 then [] else [MsgWarnFstat] in
  let hint := if fadvise_ret e =? -1 then MsgWarnFadvise else MsgFadviseDone in
  match v with
  | Cat1 => []
  | Cat2 => warn_page ++ [MsgBufferSize (count_of v e)]
  | Cat4 =>
      warn_page ++ warn_fstat ++ [MsgBufferSize (count_of v e)] ++ warn_page
  | Cat5 => [MsgBufferSize (count_of v e)] ++ warn_page
  | Cat6 => [hint; MsgBufferSize (count_of v e)] ++ warn_page
  end.

(** The state at the head of the first iteration. *)
Record ready (v : variant) (e : env) (s : state) : Prop := Ready {
  ready_argc : argc e = 2;
  ready_fd : open_ret e <> -1;
  ready_buf : v <> Cat1 -> buffer_of v e <> NULL /\ block_of v e <> NULL;
  ready_out : out s = [];
  ready_pos : pos s = 0%nat;
  ready_nreads : nreads s = 0%nat;
  ready_nwrites : nwrites s = 0%nat;
  ready_mem :
    mem s = match v with
            | Cat1 | Cat2 => ∅
            | _ => store_ptr ∅ (buffer_of v e - sizeof_ptr) (block_of v e)
            end;
  ready_err : Forall notice (err s);
  ready_notices : err s = notices v e;
  ready_log : log s = acquire_log v e;
  ready_heap :
    heap s = match blk_of v e with
             | Some p => {[ p := request_of v e ]}
             | None => ∅
             end;
  ready_release :
    forall s', agree (buffer_of v e) s s' ->
               release_of v (buffer_of v e) e s' = Ret tt (released (blk_of v e) s')
}.

(** The ways in which a [main] stops before the loop. *)
Inductive stopped (v : variant) (e : env) (s : state) : Prop :=
| stopped_usage :
    argc e <> 2 -> log s = [] -> heap s = ∅ -> stopped v e s
| stopped_open :
    argc e = 2 -> v <> Cat2 -> open_ret e = -1 ->
    log s = [EvOpen (open_ret e)] -> heap s = ∅ ->
    last (err s) = Some MsgOpenFailed -> stopped v e s
| stopped_open_buffered :
    argc e = 2 -> v = Cat2 -> open_ret e = -1 -> block_of v e <> NULL ->
    log s = [EvMalloc (request_of v e) (block_of v e); EvOpen (open_ret e);
             EvFree (block_of v e)] ->
    heap s = ∅ -> last (err s) = Some MsgOpenFailed -> stopped v e s
| stopped_malloc :
    argc e = 2 -> v = Cat2 -> block_of v e = NULL ->
    log s = [EvMalloc (request_of v e) NULL] -> heap s = ∅ -> stopped v e s
| stopped_align_alloc :
    argc e = 2 -> v <> Cat1 -> v <> Cat2 -> open_ret e <> -1 ->
    block_of v e = NULL ->
    log s = [EvOpen (open_ret e); EvMalloc (request_of v e) NULL;
             EvClose (open_ret e) (close_ret e)] ->
    heap s = ∅ -> stopped v e s
| stopped_null_aligned :
    argc e = 2 -> v <> Cat1 -> v <> Cat2 -> open_ret e <> -1 ->
    block_of v e <> NULL -> buffer_of v e = NULL ->
    log s = [EvOpen (open_ret e); EvMalloc (request_of v e) (block_of v e);
             EvClose (open_ret e) (close_ret e)] ->
    stopped v e s.

(** Every [main] either stops before the loop, or reaches it [ready] and
    continues as [finish]. *)
Definition shape (v : variant) (e : env) : Prop :=
  (exists s, (forall fuel, main_of v fuel e initial = Exit EXIT_FAILURE s) /\
             (out s = [] /\ nreads s = 0%nat) /\ stopped v e s) \/
  (exists s, (forall fuel, main_of v fuel e initial =
                     finish fuel (open_ret e) (buffer_of v e) (count_of v e)
                       (wlen_of v) (release_of v (buffer_of v e)) e s) /\
             ready v e s).

(** ** What the environment is assumed to do *)

(** [sysconf(_SC_PAGESIZE)] returns [-1] or a positive [long]. *)
Definition pagesize_ok (e : env) : Prop :=
  sysconf_ret e = -1 \/ 0 < sysconf_ret e < 2 ^ 63.

(** ... and that page size is a power of two. *)
Definition pagesize_pow2 (e : env) : Prop :=
  sysconf_ret e = -1 \/ exists k, 0 <= k < 63 /\ sysconf_ret e = 2 ^ k.

(** A block handed out by [malloc] lies inside the address space. *)
Definition malloc_fits (e : env) : Prop :=
  forall n, to_size (malloc_ret e n) = NULL \/
            to_size (malloc_ret e n) + n <= SIZE_MODULUS.

(** POSIX [read] on a regular file: the result is [-1], or the number of
    bytes transferred, which is at most [count], at most what is left of
    the file, and zero only at the end of the file (or for a zero
    [count]). *)
Definition read_ok (e : env) : Prop :=
  forall i off count, 0 <= count ->
    let r := read_ret e i off count in
    r = -1 \/
    (0 <= r <= count /\ (Z.to_nat r <= length (file e) - off)%nat /\
     (r = 0 -> count = 0 \/ (length (file e) <= off)%nat)).

(** The assumption about [read] under which the loop terminates: every
    result lies between 0 and [count], is 0 once the file is exhausted,
    and a positive result consumes at least one byte of what is left. *)
Definition read_progress (e : env) : Prop :=
  forall i off count, 0 <= count ->
    let r := read_ret e i off count in
    0 <= r <= count /\
    ((length (file e) <= off)%nat -> r = 0) /\
    (0 < r -> (1 <= length (take (Z.to_nat r) (drop off (file e))))%nat).

(** ** Reading the log *)

(** The bytes delivered by the reads, in order. *)
Fixpoint chunks_read (l : list event) : list Z :=
  match l with
  | [] => []
  | EvRead _ _ _ _ data :: l' => data ++ chunks_read l'
  | _ :: l' => chunks_read l'
  end.

(** Descriptors obtained from a successful [open]. *)
Fixpoint opens (l : list event) : list Z :=
  match l with
  | [] => []
  | EvOpen fd :: l' => if fd =? -1 then opens l' else fd :: opens l'
  | _ :: l' => opens l'
  end.

(** Descriptors passed to [close]. *)
Fixpoint closes (l : list event) : list Z :=
  match l with
  | [] => []
  | EvClose fd _ :: l' => fd :: closes l'
  | _ :: l' => closes l'
  end.

(** Blocks obtained from a successful [malloc]. *)
Fixpoint mallocs (l : list event) : list Z :=
  match l with
  | [] => []
  | EvMalloc _ p :: l' => if p =? NULL then mallocs l' else p :: mallocs l'
  | _ :: l' => mallocs l'
  end.

(** Blocks passed to [free]. *)
Fixpoint frees (l : list event) : list Z :=
  match l with
  | [] => []
  | EvFree p :: l' => p :: frees l'
  | _ :: l' => frees l'
  end.

Definition is_write (ev : event) : Prop :=
  match ev with EvWrite _ _ _ _ _ => True | _ => False end.

Definition is_read (ev : event) : Prop :=
  match ev with EvRead _ _ _ _ _ => True | _ => False end.

(** A read that ends the loop: it returned 0 or a negative value. *)
Definition end_read (ev : event) : Prop :=
  match ev with EvRead _ _ _ r _ => r <= 0 | _ => False end.

(** No write is attempted after a read that returned 0 or less. *)
Definition no_write_after_end (l : list event) : Prop :=
  forall l1 ev l2, l = l1 ++ ev :: l2 -> end_read ev ->
                   Forall (fun ev' => ~ is_write ev') l2.

(** The same, by recursion on the log. *)
Fixpoint quiet_after_end (l : list event) : Prop :=
  match l with
  | [] => True
  | ev :: l' =>
      (end_read ev -> Forall (fun ev' => ~ is_write ev') l') /\
      quiet_after_end l'
  end.

(** The variants that use the page-aligned allocator. *)
Definition aligned (v : variant) : Prop :=
  match v with Cat4 | Cat5 | Cat6 => True | _ => False end.

(** ** Invariants of the copy loop *)

(** Standard output holds the part of the file before the offset. *)
Definition copied (e : env) (s : state) : Prop :=
  out s = take (pos s) (file e).

(** Standard output holds the chunks read so far, these are the part of
    the file before the offset, no write has failed and no read has ended
    the loop. *)
Definition streamed (e : env) (s : state) : Prop :=
  out s = chunks_read (log s) /\
  chunks_read (log s) = take (pos s) (file e) /\
  ~ In MsgWriteFailed (err s) /\
  Forall (fun ev => ~ end_read ev) (log s).

(** Every read so far has moved the offset, which is inside the file. *)
Definition progressing (e : env) (s : state) : Prop :=
  (nreads s <= pos s <= length (file e))%nat.

(** Since the loop was entered only reads and writes have been made. *)
Definition in_loop (v : variant) (e : env) (s : state) : Prop :=
  exists l, log s = acquire_log v e ++ l /\
            Forall (fun ev => is_read ev \/ is_write ev) l.

(** Standard output is exactly the concatenation of the chunks read. *)
Definition emits_all_chunks (o : outcome) : Prop :=
  out (final o) = chunks_read (log (final o)).

(** ** Comparing two runs *)

(** Two environments that differ at most in the answers of the advisory
    calls ([sysconf], [fstat], [posix_fadvise]) and that lead to the same
    page size and the same buffer size. *)
Definition same_but_advice (v : variant) (e e' : env) : Prop :=
  argc e = argc e' /\ stack_buf e = stack_buf e' /\
  (forall n, malloc_ret e n = malloc_ret e' n) /\
  open_ret e = open_ret e' /\ file e = file e' /\
  (forall i off count, read_ret e i off count = read_ret e' i off count) /\
  (forall i count, write_ret e i count = write_ret e' i count) /\
  close_ret e = close_ret e' /\
  page_size_of e = page_size_of e' /\ count_of v e = count_of v e'.

(** Two states that differ at most in the diagnostics written. *)
Definition same_but_err (s s' : state) : Prop :=
  mem s = mem s' /\ heap s = heap s' /\ pos s = pos s' /\
  nreads s = nreads s' /\ nwrites s = nwrites s' /\
  out s = out s' /\ log s = log s'.

Definition same_result (r r' : result Z) : Prop :=
  match r, r' with
  | Ret a s, Ret a' s' => a = a' /\ same_but_err s s'
  | Exit c s, Exit c' s' => c = c' /\ same_but_err s s'
  | Crash s, Crash s' => same_but_err s s'
  | OutOfFuel s, OutOfFuel s' => same_but_err s s'
  | _, _ => False
  end.

(** Two runs with the same control flow (the same calls, in the same
    order, with the same results), the same standard output and the same
    exit status. *)
Definition same_behaviour (o o' : outcome) : Prop :=
  match o, o' with
  | Finished c s, Finished c' s' =>
      c = c' /\ out s = out s' /\ log s = log s'
  | Crashed s, Crashed s' => out s = out s' /\ log s = log s'
  | Unfinished s, Unfinished s' => out s = out s' /\ log s = log s'
  | _, _ => False
  end.

(** An environment with other answers of the advisory calls. *)
Definition with_advice (sysconf fstat blksize fadvise : Z) (e : env) : env :=
  {| argc := argc e; stack_buf := stack_buf e; sysconf_ret := sysconf;
     malloc_ret := malloc_ret e; open_ret := open_ret e;
     fstat_ret := fstat; st_blksize := blksize; fadvise_ret := fadvise;
     file := file e; read_ret := read_ret e; write_ret := write_ret e;
     close_ret := close_ret e |}.

(** ** Example environments *)

(** The file of the specification's scenario: "Hello, World!" and a
    newline, 14 bytes. *)
Definition hello : list Z :=
  [72; 101; 108; 108; 111; 44; 32; 87; 111; 114; 108; 100; 33; 10].

(** A well-behaved system: 4 KiB pages, an allocator that serves requests
    of up to 4 GiB at address 65536, reads that deliver as much as they are
    asked for, writes that take everything, and no failing call. *)
Definition env_hello : env :=
  {| argc := 2;
     stack_buf := 8192;
     sysconf_ret := 4096;
     malloc_ret := fun n => if n <=? 2 ^ 32 then 65536 else 0;
     open_ret := 3;
     fstat_ret := 0;
     st_blksize := 512;
     fadvise_ret := 0;
     file := hello;
     read_ret := fun _ off count =>
                   Z.min count (Z.of_nat (length hello - off));
     write_ret := fun _ count => count;
     close_ret := 0 |}.

(** The same system with a destination that takes only five bytes of the
    first write. *)
Definition env_short_write : env :=
  {| argc := 2;
     stack_buf := 8192;
     sysconf_ret := 4096;
     malloc_ret := fun n => if n <=? 2 ^ 32 then 65536 else 0;
     open_ret := 3;
     fstat_ret := 0;
     st_blksize := 512;
     fadvise_ret := 0;
     file := hello;
     read_ret := fun _ off count =>
                   Z.min count (Z.of_nat (length hello - off));
     write_ret := fun _ count => 5;
     close_ret := 0 |}.

(** The same system with a failing [read], and with a failing [close]. *)
Definition env_read_error : env :=
  {| argc := 2; stack_buf := 8192; sysconf_ret := 4096;
     malloc_ret := fun n => if n <=? 2 ^ 32 then 65536 else 0;
     open_ret := 3; fstat_ret := 0; st_blksize := 512; fadvise_ret := 0;
     file := hello;
     read_ret := fun _ _ _ => -1;
     write_ret := fun _ count => count;
     close_ret := 0 |}.

Definition env_close_error : env :=
  {| argc := 2; stack_buf := 8192; sysconf_ret := 4096;
     malloc_ret := fun n => if n <=? 2 ^ 32 then 65536 else 0;
     open_ret := 3; fstat_ret := 0; st_blksize := 512; fadvise_ret := 0;
     file := hello;
     read_ret := fun _ off count =>
                   Z.min count (Z.of_nat (length hello - off));
     write_ret := fun _ count => count;
     close_ret := -1 |}.


(** The same system with an input path that cannot be opened. *)
Definition env_no_file : env :=
  {| argc := 2; stack_buf := 8192; sysconf_ret := 4096;
     malloc_ret := fun n => if n <=? 2 ^ 32 then 65536 else 0;
     open_ret := -1; fstat_ret := 0; st_blksize := 512; fadvise_ret := 0;
     file := hello;
     read_ret := fun _ off count =>
                   Z.min count (Z.of_nat (length hello - off));
     write_ret := fun _ count => count;
     close_ret := 0 |}.

(** The same system with an input on which [posix_fadvise] fails: POSIX
    lets it return an error number then (posix_fadvise(3p): "Upon
    successful completion, posix_fadvise() shall return zero; otherwise,
    an error number shall be returned"), here [ESPIPE], what Linux answers
    for a FIFO. *)
Definition ESPIPE : Z := 29.

Definition env_fadvise_fails : env :=
  {| argc := 2; stack_buf := 8192; sysconf_ret := 4096;
     malloc_ret := fun n => if n <=? 2 ^ 32 then 65536 else 0;
     open_ret := 3; fstat_ret := 0; st_blksize := 512;
     fadvise_ret := ESPIPE;
     file := hello;
     read_ret := fun _ off count =>
                   Z.min count (Z.of_nat (length hello - off));
     write_ret := fun _ count => count;
     close_ret := 0 |}.

(** The open failed, the cause was reported, and the failed [open] is the
    only call the process has made: nothing was acquired before it and
    nothing is released after it. *)
Definition open_failure_releases_nothing (v : variant) (e : env)
    (fuel : nat) : Prop :=
  exists s, run v e fuel = Finished EXIT_FAILURE s /\
            last (err s) = Some MsgOpenFailed /\
            log s = [EvOpen (open_ret e)].

(** ** Diagnostics, by what follows them *)

(** Diagnostics after which the program exits. *)
Definition fatal (m : msg) : Prop :=
  match m with
  | MsgUsage | MsgAllocFailed | MsgOpenFailed | MsgWriteFailed
  | MsgReadFailed | MsgCloseFailed => True
  | _ => False
  end.

(** The fatal diagnostics of the part of [main] before the copy loop. *)
Definition early_failure (m : msg) : Prop :=
  match m with
  | MsgUsage | MsgAllocFailed | MsgOpenFailed => True
  | _ => False
  end.

(** The error stream of a failed run: notices, then one fatal diagnostic. *)
Definition reports_failure (l : list msg) : Prop :=
  exists l0 m, l = l0 ++ [m] /\ Forall notice l0 /\ fatal m.

(** ** Calls of the copy loop *)

(** A read that keeps the loop going. *)
Definition positive_read (ev : event) : Prop :=
  match ev with EvRead _ _ _ r _ => 0 < r | _ => True end.

(** A [read] that takes from the input descriptor into the buffer, asks
    for exactly [buffer_size] bytes and delivers no more than that; a
    [write] that gives to standard output from the buffer, a positive
    number of bytes that is at most [buffer_size]. *)
Definition within_buffer (v : variant) (e : env) (ev : event) : Prop :=
  match ev with
  | EvRead fd buf count _ data =>
      fd = open_ret e /\ buf = buffer_of v e /\ count = count_of v e /\
      Z.of_nat (length data) <= count
  | EvWrite fd buf count _ _ =>
      fd = STDOUT_FILENO /\ buf = buffer_of v e /\ 0 < count <= count_of v e
  | _ => True
  end.

(** A call that gives something back: [close] or [free]. *)
Definition is_release (ev : event) : Prop :=
  match ev with EvClose _ _ | EvFree _ => True | _ => False end.

(** [read] on a regular file that is not being changed: every call
    delivers as much as it is asked for, or what is left of the file. *)
Definition read_full (e : env) : Prop :=
  forall i off count,
    read_ret e i off count = Z.min count (Z.of_nat (length (file e) - off)).

(** The number of blocks of [count] bytes that [len] bytes fill, the last
    one possibly in part. *)
Definition blocks (len count : Z) : Z := (len + count - 1) / count.

(** The state of the loop after [nreads] complete iterations over a file
    that is read in full blocks: as many writes as reads, and the offset
    is at the end of the last block read, or at the end of the file. *)
Definition block_steps (count len : Z) (s : state) : Prop :=
  let k := Z.of_nat (nreads s) in
  let p := Z.of_nat (pos s) in
  nwrites s = nreads s /\ p <= len /\ (p = k * count \/ p = len) /\
  p <= k * count /\ (0 < k -> (k - 1) * count < p).

(** [sysconf(_SC_PAGESIZE)] fails or returns a positive page size of at
    most [2^62] bytes, a power of two or not. *)
Definition pagesize_bounded (e : env) : Prop :=
  sysconf_ret e = -1 \/ 0 < sysconf_ret e <= 2 ^ 62.

(** ** More example environments *)

(** An environment with other command-line words. *)
Definition with_argc (n : Z) (e : env) : env :=
  {| argc := n; stack_buf := stack_buf e; sysconf_ret := sysconf_ret e;
     malloc_ret := malloc_ret e; open_ret := open_ret e;
     fstat_ret := fstat_ret e; st_blksize := st_blksize e;
     fadvise_ret := fadvise_ret e; file := file e; read_ret := read_ret e;
     write_ret := write_ret e; close_ret := close_ret e |}.

(** The program is started without a file name. *)
Definition env_no_argument : env := with_argc 1 env_hello.

(** The well-behaved system with an allocator that has no memory left. *)
Definition env_no_memory : env :=
  {| argc := 2; stack_buf := 8192; sysconf_ret := 4096;
     malloc_ret := fun _ => NULL;
     open_ret := 3; fstat_ret := 0; st_blksize := 512; fadvise_ret := 0;
     file := hello;
     read_ret := fun _ off count =>
                   Z.min count (Z.of_nat (length hello - off));
     write_ret := fun _ count => count;
     close_ret := 0 |}.

(** The well-behaved system without a page-size query, and with an input
    whose metadata cannot be read. *)
Definition env_no_pagesize : env := with_advice (-1) 0 512 0 env_hello.

Definition env_no_fstat : env := with_advice 4096 (-1) 0 0 env_hello.

(** The well-behaved system with pages of 3000 bytes: not a power of two,
    so that the mask of [align_alloc] does not align to a page. *)
Definition env_odd_pagesize : env := with_advice 3000 0 512 0 env_hello.

(** * Basic facts *)

(** ** Machine integers *)

Lemma to_size_range x : 0 <= to_size x < SIZE_MODULUS.
Proof. unfold to_size, SIZE_MODULUS. apply Z.mod_pos_bound. lia. Qed.

Lemma to_size_small x : 0 <= x < SIZE_MODULUS -> to_size x = x.
Proof. intros H. unfold to_size. apply Z.mod_small, H. Qed.

Lemma to_size_idemp x : to_size (to_size x) = to_size x.
Proof. apply to_size_small, to_size_range. Qed.

Lemma SIZE_MODULUS_eq : SIZE_MODULUS = 18446744073709551616.
Proof. reflexivity. Qed.

(** Masking with [~m] clears the bits of [m]: the result is [y] minus the
    bits [y] has in common with [m]. *)
Lemma land_size_not y m :
  0 <= y < SIZE_MODULUS ->
  Z.land y (size_not m) = y - Z.land y m.
Proof.
  intros Hy. unfold size_not, to_size, SIZE_MODULUS.
  rewrite <- Z.land_ones by lia.
  rewrite (Z.land_comm (Z.lnot m)), Z.land_assoc.
  rewrite (Z.land_ones y) by lia. rewrite Z.mod_small by exact Hy.
  rewrite <- Z.ldiff_land. symmetry.
  assert (Z.ldiff y (Z.land y m) = Z.ldiff y m) as <-.
  { apply Z.bits_inj'. intros n Hn.
    rewrite !Z.ldiff_spec, Z.land_spec by lia.
    destruct (Z.testbit y n), (Z.testbit m n); reflexivity. }
  apply Z.sub_nocarry_ldiff.
  apply Z.bits_inj'. intros n Hn.
  rewrite Z.ldiff_spec, Z.land_spec, Z.bits_0.
  destruct (Z.testbit y n), (Z.testbit m n); reflexivity.
Qed.

Lemma land_bounds y m : 0 <= y -> 0 <= m -> 0 <= Z.land y m <= m.
Proof.
  intros Hy Hm. split; [apply Z.land_nonneg; lia|].
  destruct (Z.eq_dec m 0) as [->|Hm0]; [rewrite Z.land_0_r; lia|].
  assert (Hl : Z.land y m = Z.land y m) by reflexivity.
  assert (H0 : 0 <= Z.land y m) by (apply Z.land_nonneg; lia).
  assert (Z.ldiff (Z.land y m) m = 0) as Hsub.
  { apply Z.bits_inj'. intros n Hn.
    rewrite Z.ldiff_spec, Z.land_spec, Z.bits_0.
    destruct (Z.testbit y n), (Z.testbit m n); reflexivity. }
  pose proof (Z.sub_nocarry_ldiff m (Z.land y m) Hsub) as Hd.
  assert (0 <= Z.ldiff m (Z.land y m)) by (apply Z.ldiff_nonneg; lia).
  lia.
Qed.

(** ** The aligned address *)

(** Without wrap-around the aligned address lies between
    [original_ptr + sizeof_ptr] and that address plus [page_size - 1], for
    any page size. *)
Lemma aligned_addr_bounds p ps :
  0 <= p -> 1 <= ps -> p + sizeof_ptr + ps - 1 < SIZE_MODULUS ->
  p + sizeof_ptr <= aligned_addr p ps <= p + sizeof_ptr + ps - 1.
Proof.
  unfold aligned_addr, sizeof_ptr. intros Hp Hps Hfit.
  rewrite (to_size_small (p + 8)) by lia.
  rewrite (to_size_small (p + 8 + ps - 1)) by lia.
  rewrite (to_size_small (ps - 1)) by lia.
  rewrite land_size_not by lia.
  pose proof (land_bounds (p + 8 + ps - 1) (ps - 1)). lia.
Qed.

(** When the page size is a power of two the aligned address is a multiple
    of it. *)
Lemma aligned_addr_multiple p k :
  0 <= k < 64 -> aligned_addr p (2 ^ k) mod 2 ^ k = 0.
Proof.
  intros Hk. unfold aligned_addr.
  assert (Hpow : 0 < 2 ^ k < SIZE_MODULUS).
  { unfold SIZE_MODULUS. split; [apply Z.pow_pos_nonneg; lia|].
    apply Z.pow_lt_mono_r; lia. }
  rewrite (to_size_small (2 ^ k - 1)) by lia.
  rewrite land_size_not by apply to_size_range.
  replace (2 ^ k - 1) with (Z.ones k) by (rewrite Z.ones_equiv; lia).
  rewrite Z.land_ones by lia.
  set (y := to_size _).
  rewrite (Z.div_mod y (2 ^ k)) at 1 by lia.
  replace (2 ^ k * (y / 2 ^ k) + y mod 2 ^ k - y mod 2 ^ k)
    with ((y / 2 ^ k) * 2 ^ k) by lia.
  apply Z.mod_mul. lia.
Qed.

(** ** Memory *)

Lemma store_bytes_lookup_below m a bs x :
  x < a -> store_bytes m a bs !! x = m !! x.
Proof.
  revert m a. induction bs as [|b bs IH]; intros m a Hx; simpl; [reflexivity|].
  rewrite IH by lia. apply lookup_insert_ne. lia.
Qed.

Lemma load_bytes_ext m1 m2 a n :
  (forall x, a <= x < a + Z.of_nat n -> m1 !! x = m2 !! x) ->
  load_bytes m1 a n = load_bytes m2 a n.
Proof.
  revert a. induction n as [|n IH]; intros a H; simpl; [reflexivity|].
  unfold load_byte. rewrite (H a) by lia. f_equal.
  apply IH. intros x Hx. apply H. lia.
Qed.

(** Bytes stored at [a] are read back from [a]. *)
Lemma load_store_bytes m a bs :
  load_bytes (store_bytes m a bs) a (length bs) = bs.
Proof.
  revert m a. induction bs as [|b bs IH]; intros m a; simpl; [reflexivity|].
  f_equal.
  - unfold load_byte. rewrite store_bytes_lookup_below by lia.
    rewrite lookup_insert_eq. reflexivity.
  - apply IH.
Qed.

(** A pointer stored at [a] is read back from [a]. *)
Lemma load_store_ptr m a p :
  0 <= p < SIZE_MODULUS -> load_ptr (store_ptr m a p) a = p.
Proof.
  intros Hp. unfold load_ptr, store_ptr.
  assert (Hlen : length (Z_to_little_endian sizeof_ptr 8 p) = Z.to_nat sizeof_ptr).
  { apply Nat2Z.inj. rewrite length_Z_to_little_endian by (unfold sizeof_ptr; lia).
    unfold sizeof_ptr. lia. }
  rewrite <- Hlen, load_store_bytes.
  rewrite little_endian_to_Z_to_little_endian by (unfold sizeof_ptr; lia).
  apply Z.mod_small. exact Hp.
Qed.

(** The pointer stored just below [b] is not affected by changes to memory
    from [b] upwards. *)
Lemma load_ptr_below m m' a b :
  a + sizeof_ptr <= b ->
  (forall x, x < b -> m' !! x = m !! x) ->
  load_ptr m' a = load_ptr m a.
Proof.
  intros Hab H. unfold load_ptr. f_equal.
  apply load_bytes_ext. intros x Hx. apply H.
  rewrite Z2Nat.id in Hx by (unfold sizeof_ptr; lia). lia.
Qed.

Lemma load_ptr_stash m m' b :
  (forall x, x < b -> m' !! x = m !! x) ->
  load_ptr m' (b - sizeof_ptr) = load_ptr m (b - sizeof_ptr).
Proof. intros H. apply (load_ptr_below m m' _ b); [lia|exact H]. Qed.

(** ** The copy loop and the end of [main] *)

Lemma agree_refl buf s : agree buf s s.
Proof. split; [reflexivity|]. intros; reflexivity. Qed.

Lemma agree_add_err buf s_in m s : agree buf s_in s -> agree buf s_in (add_err m s).
Proof. intros H. exact H. Qed.

Lemma agree_add_log buf s_in ev s : agree buf s_in s -> agree buf s_in (add_log ev s).
Proof. intros H. exact H. Qed.

Lemma agree_do_read e fd buf count s_in s :
  agree buf s_in s -> agree buf s_in (do_read e fd buf count s).2.
Proof.
  intros [Hh Hm]. split; simpl; [exact Hh|].
  intros x Hx. rewrite store_bytes_lookup_below by exact Hx. apply Hm, Hx.
Qed.

Lemma agree_do_write e fd buf count buf' s_in s :
  agree buf' s_in s -> agree buf' s_in (do_write e fd buf count s).2.
Proof. intros H. exact H. Qed.

(** Unfolds the plumbing of the monad, and nothing else. *)
Ltac mred :=
  cbv beta iota zeta delta
    [when bind ret perror fprintf_stderr close exit out_of_fuel negb fst snd].

Section Finish.
Context (e : env) (fd buf count : Z) (wlen : Z -> Z) (release : M unit).
Context (blk : option Z) (s_in : state).

Hypothesis release_spec :
  forall s, agree buf s_in s -> release e s = Ret tt (released blk s).

Variable Inv : state -> Prop.
Hypothesis Inv_iter :
  forall s, agree buf s_in s -> Inv s ->
    forall r s1 w s2,
      do_read e fd buf count s = (r, s1) -> 0 < r ->
      do_write e STDOUT_FILENO buf (wlen r) s1 = (w, s2) -> w = wlen r ->
      Inv s2.

Lemma finish_cases fuel s :
  agree buf s_in s -> Inv s ->
  exists s0, agree buf s_in s0 /\ Inv s0 /\
    finish_outcome e fd buf count wlen blk s0
      (finish fuel fd buf count wlen release e s).
Proof.
  revert s. induction fuel as [|fuel IH]; intros s Hag HI.
  - exists s. split; [exact Hag|]. split; [exact HI|]. apply FO_fuel.
  - destruct (do_read e fd buf count s) as [r s1] eqn:Hrd.
    assert (Hag1 : agree buf s_in s1).
    { pose proof (agree_do_read e fd buf count s_in s Hag) as H.
      rewrite Hrd in H. exact H. }
    unfold finish. simpl copy_loop. mred. unfold read. rewrite Hrd.
    destruct (0 <? r) eqn:Hpos.
    + apply Z.ltb_lt in Hpos.
      destruct (do_write e STDOUT_FILENO buf (wlen r) s1) as [w s2] eqn:Hwr.
      unfold write. rewrite Hwr.
      assert (Hag2 : agree buf s_in s2).
      { pose proof (agree_do_write e STDOUT_FILENO buf (wlen r) buf s_in s1 Hag1) as H.
        rewrite Hwr in H. exact H. }
      destruct (w =? wlen r) eqn:Hw; mred.
      * apply Z.eqb_eq in Hw.
        apply (IH s2 Hag2).
        exact (Inv_iter s Hag HI r s1 w s2 Hrd Hpos Hwr Hw).
      * apply Z.eqb_neq in Hw.
        rewrite release_spec by exact Hag2.
        exists s. split; [exact Hag|]. split; [exact HI|].
        exact (FO_write_failed _ _ _ _ _ _ _ r s1 w s2 Hrd Hpos Hwr Hw).
    + apply Z.ltb_ge in Hpos.
      exists s. split; [exact Hag|]. split; [exact HI|].
      destruct (r =? -1) eqn:Hr; mred.
      * apply Z.eqb_eq in Hr.
        rewrite release_spec by exact Hag1.
        exact (FO_read_failed _ _ _ _ _ _ _ r s1 Hrd Hr).
      * apply Z.eqb_neq in Hr.
        destruct (close_ret e =? -1) eqn:Hc; mred.
        -- apply Z.eqb_eq in Hc.
           rewrite release_spec by exact Hag1.
           exact (FO_close_failed _ _ _ _ _ _ _ r s1 Hrd Hpos Hr Hc).
        -- apply Z.eqb_neq in Hc.
           rewrite release_spec by exact Hag1.
           exact (FO_success _ _ _ _ _ _ _ r s1 Hrd Hpos Hr Hc).
Qed.

(** A cut-off [finish] has made as many reads as it had fuel, and it goes
    on from where it was cut off when it is given more fuel. *)
Lemma finish_out_of_fuel fuel s s' :
  agree buf s_in s ->
  finish fuel fd buf count wlen release e s = OutOfFuel s' ->
  agree buf s_in s' /\
  nreads s' = (nreads s + fuel)%nat /\
  forall more,
    finish (fuel + more) fd buf count wlen release e s =
    finish more fd buf count wlen release e s'.
Proof.
  revert s. induction fuel as [|fuel IH]; intros s Hag Hfin.
  - injection Hfin as <-. split; [exact Hag|]. split; [lia|].
    intros more. reflexivity.
  - destruct (do_read e fd buf count s) as [r s1] eqn:Hrd.
    assert (Hag1 : agree buf s_in s1).
    { pose proof (agree_do_read e fd buf count s_in s Hag) as H.
      rewrite Hrd in H. exact H. }
    assert (Hn1 : nreads s1 = S (nreads s)).
    { unfold do_read in Hrd. injection Hrd as _ <-. reflexivity. }
    assert (Hstep : forall k,
      finish (S k) fd buf count wlen release e s =
      if 0 <? r then
        let (w, s2) := do_write e STDOUT_FILENO buf (wlen r) s1 in
        if w =? wlen r then finish k fd buf count wlen release e s2
        else finish 1 fd buf count wlen release e s
      else finish 1 fd buf count wlen release e s).
    { intros k. unfold finish. simpl copy_loop. mred. unfold read.
      rewrite Hrd. destruct (0 <? r); [|reflexivity].
      unfold write.
      destruct (do_write e STDOUT_FILENO buf (wlen r) s1) as [w s2].
      destruct (w =? wlen r); reflexivity. }
    assert (Hone : finish 1 fd buf count wlen release e s = OutOfFuel s' ->
                   exists w s2, 0 < r /\
                     do_write e STDOUT_FILENO buf (wlen r) s1 = (w, s2) /\
                     w = wlen r /\ s' = s2).
    { unfold finish. simpl copy_loop. mred. unfold read. rewrite Hrd.
      destruct (0 <? r) eqn:Hpos.
      - unfold write.
        destruct (do_write e STDOUT_FILENO buf (wlen r) s1) as [w s2] eqn:Hwr.
        assert (Hag2 : agree buf s_in s2).
        { pose proof (agree_do_write e STDOUT_FILENO buf (wlen r) buf s_in s1
                        Hag1) as H.
          rewrite Hwr in H. exact H. }
        destruct (w =? wlen r) eqn:Hw; mred.
        + intros H. injection H as <-. exists w, s2.
          apply Z.ltb_lt in Hpos. apply Z.eqb_eq in Hw. auto.
        + rewrite release_spec by exact Hag2. discriminate.
      - destruct (r =? -1); mred.
        + rewrite release_spec by exact Hag1. discriminate.
        + destruct (close_ret e =? -1); mred;
            rewrite release_spec by exact Hag1; discriminate. }
    rewrite Hstep in Hfin.
    destruct (0 <? r) eqn:Hpos.
    + destruct (do_write e STDOUT_FILENO buf (wlen r) s1) as [w s2] eqn:Hwr.
      assert (Hag2 : agree buf s_in s2).
      { pose proof (agree_do_write e STDOUT_FILENO buf (wlen r) buf s_in s1
                      Hag1) as H.
        rewrite Hwr in H. exact H. }
      assert (Hn2 : nreads s2 = nreads s1).
      { unfold do_write in Hwr. injection Hwr as _ <-. reflexivity. }
      destruct (w =? wlen r) eqn:Hw.
      * destruct (IH s2 Hag2 Hfin) as (Hag' & Hn & Hmore).
        split; [exact Hag'|]. split; [lia|].
        intros more. change (S fuel + more)%nat with (S (fuel + more)).
        rewrite Hstep. rewrite ?Hpos, ?Hwr, ?Hw. apply Hmore.
      * destruct (Hone Hfin) as (w' & s2' & _ & Hwr' & Hw' & _).
        rewrite ?Hwr in Hwr'. injection Hwr' as Hww _.
        apply Z.eqb_neq in Hw. congruence.
    + destruct (Hone Hfin) as (w' & s2' & Hr & _). apply Z.ltb_ge in Hpos. lia.
Qed.

(** One iteration of [finish], written out. *)
Lemma finish_one s :
  agree buf s_in s ->
  finish 1 fd buf count wlen release e s =
  let (r, s1) := do_read e fd buf count s in
  if 0 <? r then
    let (w, s2) := do_write e STDOUT_FILENO buf (wlen r) s1 in
    if w =? wlen r then OutOfFuel s2
    else Exit EXIT_FAILURE
           (released blk (add_log (EvClose fd (close_ret e))
                            (add_err MsgWriteFailed s2)))
  else if r =? -1 then
    Exit EXIT_FAILURE
      (released blk (add_log (EvClose fd (close_ret e))
                       (add_err MsgReadFailed s1)))
  else if close_ret e =? -1 then
    Exit EXIT_FAILURE
      (released blk (add_err MsgCloseFailed
                       (add_log (EvClose fd (close_ret e)) s1)))
  else Ret EXIT_SUCCESS (released blk (add_log (EvClose fd (close_ret e)) s1)).
Proof.
  intros Hag.
  destruct (do_read e fd buf count s) as [r s1] eqn:Hrd.
  assert (Hag1 : agree buf s_in s1).
  { pose proof (agree_do_read e fd buf count s_in s Hag) as H.
    rewrite Hrd in H. exact H. }
  unfold finish. simpl copy_loop. mred. unfold read. rewrite Hrd.
  destruct (0 <? r).
  - unfold write.
    destruct (do_write e STDOUT_FILENO buf (wlen r) s1) as [w s2] eqn:Hwr.
    assert (Hag2 : agree buf s_in s2).
    { pose proof (agree_do_write e STDOUT_FILENO buf (wlen r) buf s_in s1
                    Hag1) as H.
      rewrite Hwr in H. exact H. }
    destruct (w =? wlen r); mred; [reflexivity|].
    rewrite release_spec by exact Hag2. reflexivity.
  - destruct (r =? -1); mred.
    + rewrite release_spec by exact Hag1. reflexivity.
    + destruct (close_ret e =? -1); mred;
        rewrite release_spec by exact Hag1; reflexivity.
Qed.
End Finish.

(** ** The five programs up to the copy loop *)

Lemma free_live p n s :
  p <> NULL -> heap s !! p = Some n ->
  forall e, free p e s = Ret tt (released (Some p) s).
Proof.
  intros Hp Hl e. unfold free.
  destruct (p =? NULL) eqn:E; [apply Z.eqb_eq in E; contradiction|].
  rewrite Hl. reflexivity.
Qed.

Lemma align_free_live a p n s :
  a <> NULL -> p <> NULL ->
  load_ptr (mem s) (a - sizeof_ptr) = p -> heap s !! p = Some n ->
  forall e, align_free a e s = Ret tt (released (Some p) s).
Proof.
  intros Ha Hp Hld Hl e. unfold align_free.
  destruct (a =? NULL) eqn:E; [apply Z.eqb_eq in E; contradiction|].
  unfold bind, load_pointer. rewrite Hld. eapply free_live; eassumption.
Qed.

Lemma get_system_page_size_eq e s :
  get_system_page_size e s =
  Ret (page_size_of e)
      (if sysconf_ret e =? -1 then add_err MsgWarnPageSize s else s).
Proof.
  unfold get_system_page_size, page_size_of, bind, sysconf_PAGESIZE.
  destruct (sysconf_ret e =? -1); reflexivity.
Qed.

Ltac unfold_setup :=
  unfold notices, acquire_log, buffer_of, blk_of, block_of, request_of, count_of,
    wlen_of, release_of, page_size_of,
    Mycat5.OPTIMAL_BUFFER_SIZE, Mycat6.OPTIMAL_BUFFER_SIZE in *.

Ltac unfold_calls :=
  unfold get_argc, stack_buffer, sysconf_PAGESIZE, open_rdonly, fstat,
    posix_fadvise, malloc, store_pointer in *.

Ltac eqb_prop :=
  repeat match goal with
  | H : (_ =? _) = true |- _ => apply Z.eqb_eq in H
  | H : (_ =? _) = false |- _ => apply Z.eqb_neq in H
  | H : (_ <? _) = true |- _ => apply Z.ltb_lt in H
  | H : (_ <? _) = false |- _ => apply Z.ltb_ge in H
  end.

(** Rewrites with the tests whose outcome is known. *)
Ltac rw_tests :=
  repeat match goal with
  | H : (_ =? _) = _ |- _ => progress (rewrite H)
  | H : (_ <? _) = _ |- _ => progress (rewrite H)
  end.

(** Runs the straight-line part of a program. *)
Ltac run_prog :=
  mred; repeat (progress (rw_tests; try change (NULL =? NULL) with true; mred)).

Ltac norm :=
  unfold_setup; rw_tests;
  cbn [mem heap pos nreads nwrites out err log add_err add_log set_heap
       set_mem released initial app].

Ltac fact :=
  norm; eqb_prop;
  rewrite ?delete_insert_eq, ?delete_empty;
  first [reflexivity | discriminate | assumption | congruence | lia
        | repeat constructor ].

(** Splits on the answers of the advisory calls. *)
Ltac split_env :=
  unfold_setup; mred;
  try match goal with
      | |- context [sysconf_ret ?e =? -1] =>
          destruct (sysconf_ret e =? -1) eqn:Hsys
      end;
  try match goal with
      | |- context [fstat_ret ?e =? 0] =>
          destruct (fstat_ret e =? 0) eqn:Hfstat
      end;
  try match goal with
      | |- context [fadvise_ret ?e =? -1] =>
          destruct (fadvise_ret e =? -1) eqn:Hadv
      end.

Ltac run_free :=
  unfold free; cbn [heap add_err add_log set_heap set_mem];
  rewrite ?lookup_insert_eq; run_prog.

Ltac stop_with lem :=
  split_env;
  (left; eexists;
   split; [intros fuel; run_prog; try run_free; reflexivity|];
   split; [split; reflexivity|]; apply lem; fact).

Ltac reach_loop :=
  split_env;
  (right; eexists; split; [intros fuel; run_prog; reflexivity|]).

Lemma shape_Cat1 e : shape Cat1 e.
Proof.
  unfold shape, main_of, Mycat1.main. unfold_calls.
  destruct (argc e =? 2) eqn:Hargc; [|stop_with stopped_usage].
  destruct (open_ret e =? -1) eqn:Hopen; [stop_with stopped_open|].
  reach_loop. split; fact.
Qed.

Lemma shape_Cat2 e : shape Cat2 e.
Proof.
  unfold shape, main_of, Mycat2.main, Mycat2.io_blocksize. unfold_calls.
  destruct (argc e =? 2) eqn:Hargc; [|stop_with stopped_usage].
  destruct (block_of Cat2 e =? NULL) eqn:Hblk; [stop_with stopped_malloc|].
  destruct (open_ret e =? -1) eqn:Hopen; [stop_with stopped_open_buffered|].
  reach_loop.
  all: split; try fact.
  all: try (intros _; split; fact).
  all: norm; intros s' [Hh _]; (eapply free_live; [fact|]);
    rewrite Hh; norm; apply lookup_insert_eq.
Qed.

(** The release of an aligned buffer, at the head of the loop and later. *)
Ltac aligned_release :=
  let s' := fresh "s'" in let Hh := fresh "Hh" in let Hm := fresh "Hm" in
  norm; intros s' [Hh Hm];
  cbn [mem heap add_err add_log set_heap set_mem initial] in Hh, Hm;
  eapply align_free_live;
  [ fact | fact
  | rewrite (load_ptr_stash _ _ _ Hm); apply load_store_ptr, to_size_range
  | rewrite Hh; apply lookup_insert_eq ].

Lemma shape_Cat5 e : shape Cat5 e.
Proof.
  unfold shape, main_of, Mycat5.main, Mycat5.io_blocksize, align_alloc,
    get_system_page_size.
  unfold_calls.
  destruct (argc e =? 2) eqn:Hargc; [|stop_with stopped_usage].
  destruct (open_ret e =? -1) eqn:Hopen; [stop_with stopped_open|].
  destruct (block_of Cat5 e =? NULL) eqn:Hblk;
    [stop_with stopped_align_alloc|].
  destruct (buffer_of Cat5 e =? NULL) eqn:Hbuf;
    [stop_with stopped_null_aligned|].
  reach_loop.
  all: split; try fact.
  all: try (intros _; split; fact).
  all: aligned_release.
Qed.

Lemma shape_Cat6 e : shape Cat6 e.
Proof.
  unfold shape, main_of, Mycat6.main, Mycat6.io_blocksize, align_alloc,
    get_system_page_size.
  unfold_calls.
  destruct (argc e =? 2) eqn:Hargc; [|stop_with stopped_usage].
  destruct (open_ret e =? -1) eqn:Hopen; [stop_with stopped_open|].
  destruct (block_of Cat6 e =? NULL) eqn:Hblk;
    [stop_with stopped_align_alloc|].
  destruct (buffer_of Cat6 e =? NULL) eqn:Hbuf;
    [stop_with stopped_null_aligned|].
  reach_loop.
  all: split; try fact.
  all: try (intros _; split; fact).
  all: aligned_release.
Qed.

Lemma shape_Cat4 e : shape Cat4 e.
Proof.
  unfold shape, main_of, Mycat4.main, Mycat4.io_blocksize, align_alloc,
    get_system_page_size.
  unfold_calls.
  destruct (argc e =? 2) eqn:Hargc; [|stop_with stopped_usage].
  destruct (open_ret e =? -1) eqn:Hopen; [stop_with stopped_open|].
  destruct (block_of Cat4 e =? NULL) eqn:Hblk;
    [stop_with stopped_align_alloc|].
  destruct (buffer_of Cat4 e =? NULL) eqn:Hbuf;
    [stop_with stopped_null_aligned|].
  reach_loop.
  all: split; try fact.
  all: try (intros _; split; fact).
  all: aligned_release.
Qed.

Lemma main_shape v e : shape v e.
Proof.
  destruct v;
    [apply shape_Cat1 | apply shape_Cat2 | apply shape_Cat4
    | apply shape_Cat5 | apply shape_Cat6].
Qed.

(** ** Every run, by cases *)

Lemma released_out blk s : out (released blk s) = out s.
Proof. destruct blk; reflexivity. Qed.

Lemma released_err blk s : err (released blk s) = err s.
Proof. destruct blk; reflexivity. Qed.

Lemma released_pos blk s : pos (released blk s) = pos s.
Proof. destruct blk; reflexivity. Qed.

Lemma released_nreads blk s : nreads (released blk s) = nreads s.
Proof. destruct blk; reflexivity. Qed.

Lemma released_log blk s :
  log (released blk s) =
  log s ++ match blk with Some p => [EvFree p] | None => [] end.
Proof. destruct blk; simpl; [reflexivity|]. symmetry. apply app_nil_r. Qed.

Lemma released_heap blk s :
  heap (released blk s) =
  match blk with Some p => delete p (heap s) | None => heap s end.
Proof. destruct blk; reflexivity. Qed.

(** A run stops before the loop, or it is described by an invariant of the
    loop and one of the five ways in which [finish] ends. *)
Lemma run_cases v e fuel (Inv : state -> Prop) :
  (forall s_in, ready v e s_in -> Inv s_in) ->
  (forall s_in s r s1 w s2,
     ready v e s_in -> agree (buffer_of v e) s_in s -> Inv s ->
     do_read e (open_ret e) (buffer_of v e) (count_of v e) s = (r, s1) ->
     0 < r ->
     do_write e STDOUT_FILENO (buffer_of v e) (wlen_of v r) s1 = (w, s2) ->
     w = wlen_of v r -> Inv s2) ->
  (exists s, run v e fuel = Finished EXIT_FAILURE s /\
             (out s = [] /\ nreads s = 0%nat) /\ stopped v e s) \/
  (exists s_in s0 res,
     ready v e s_in /\ agree (buffer_of v e) s_in s0 /\ Inv s0 /\
     finish_outcome e (open_ret e) (buffer_of v e) (count_of v e) (wlen_of v)
       (blk_of v e) s0 res /\
     run v e fuel = to_outcome res).
Proof.
  intros Hinit Hiter.
  destruct (main_shape v e) as [(s & Heq & Hout & Hst)|(s_in & Heq & Hrdy)].
  - left. exists s. unfold run. rewrite Heq. split; [reflexivity|]. auto.
  - right.
    destruct (finish_cases e (open_ret e) (buffer_of v e) (count_of v e)
                (wlen_of v) (release_of v (buffer_of v e)) (blk_of v e) s_in
                (ready_release v e s_in Hrdy) Inv
                (fun s Hag HI r s1 w s2 =>
                   Hiter s_in s r s1 w s2 Hrdy Hag HI)
                fuel s_in (agree_refl _ _) (Hinit s_in Hrdy))
      as (s0 & Hag & HI & Hfo).
    exists s_in, s0, (main_of v fuel e initial).
    unfold run. rewrite Heq. repeat (split; [assumption|]). reflexivity.
Qed.

(** A run that is cut off has made as many reads as it had fuel, and
    with more fuel it goes on from where it was cut off. *)
Lemma run_unfinished v e fuel s0 :
  run v e fuel = Unfinished s0 ->
  exists s_in,
    ready v e s_in /\ agree (buffer_of v e) s_in s0 /\
    nreads s0 = fuel /\
    forall more,
      run v e (fuel + more) =
      to_outcome (finish more (open_ret e) (buffer_of v e) (count_of v e)
                    (wlen_of v) (release_of v (buffer_of v e)) e s0).
Proof.
  intros Hrun.
  destruct (main_shape v e) as [(s & Heq & _)|(s_in & Heq & Hrdy)];
    unfold run in Hrun; rewrite Heq in Hrun.
  - discriminate Hrun.
  - exists s_in. split; [exact Hrdy|].
    assert (Hfin : finish fuel (open_ret e) (buffer_of v e) (count_of v e)
                     (wlen_of v) (release_of v (buffer_of v e)) e s_in
                   = OutOfFuel s0).
    { destruct (finish _ _ _ _ _ _ _ _) as [c s|c s|s|s];
        try discriminate Hrun.
      injection Hrun as ->. reflexivity. }
    destruct (finish_out_of_fuel e _ _ _ _ _ (blk_of v e) s_in
                (ready_release v e s_in Hrdy) fuel s_in s0
                (agree_refl _ _) Hfin) as (Hag & Hcount & Hmore).
    split; [exact Hag|].
    split; [rewrite Hcount, (ready_nreads _ _ _ Hrdy); reflexivity|].
    intros more. unfold run. rewrite Heq, Hmore. reflexivity.
Qed.

(** * The copy loop moves the file to standard output *)

Lemma page_size_of_range e :
  pagesize_ok e -> 0 < page_size_of e < 2 ^ 63.
Proof.
  unfold pagesize_ok, page_size_of. intros [H|H].
  - rewrite H. simpl. lia.
  - destruct (sysconf_ret e =? -1) eqn:E; [lia|exact H].
Qed.

Lemma count_positive v e : pagesize_ok e -> 1 <= count_of v e.
Proof.
  intros Hps. pose proof (page_size_of_range e Hps) as Hr.
  assert (Hts : to_size (page_size_of e) = page_size_of e).
  { apply to_size_small. rewrite SIZE_MODULUS_eq. lia. }
  destruct v; simpl; try (unfold Mycat5.OPTIMAL_BUFFER_SIZE; lia);
    try (unfold Mycat6.OPTIMAL_BUFFER_SIZE; lia).
  - unfold page_size_of in *. destruct (sysconf_ret e =? -1); [lia|].
    rewrite Hts. lia.
  - rewrite Hts.
    repeat match goal with |- context [if ?c then _ else _] =>
      destruct c eqn:?; eqb_prop end; lia.
Qed.

Lemma count_nonneg v e : 0 <= count_of v e.
Proof.
  destruct v; simpl; try (unfold Mycat5.OPTIMAL_BUFFER_SIZE; lia);
    try (unfold Mycat6.OPTIMAL_BUFFER_SIZE; lia).
  - destruct (sysconf_ret e =? -1); [lia|apply to_size_range].
  - repeat match goal with |- context [if ?c then _ else _] =>
      destruct c end; apply to_size_range.
Qed.

Lemma wlen_of_id v e r : 0 < r <= count_of v e -> wlen_of v r = r.
Proof. destruct v; simpl; intros; lia || reflexivity. Qed.

(** What one read of a conforming environment delivers. *)
Lemma read_ok_data e i off count :
  read_ok e -> 0 <= count ->
  let r := read_ret e i off count in
  0 < r ->
  0 < r <= count /\
  length (take (Z.to_nat r) (drop off (file e))) = Z.to_nat r.
Proof.
  intros Hok Hc r Hr. destruct (Hok i off count Hc) as [H|(H1 & H2 & H3)];
    fold r in H || fold r in H1, H2, H3; [lia|].
  split; [lia|]. rewrite length_take, length_drop. lia.
Qed.

(** Writing back what was just read emits exactly those bytes. *)
Lemma written_back m buf data :
  take (length data) (load_bytes (store_bytes m buf data) buf (length data))
  = data.
Proof. rewrite load_store_bytes. apply firstn_all. Qed.

Section CopyInvariant.
Context (v : variant) (e : env).
Hypothesis Hread : read_ok e.

Lemma copied_iter fd buf s r s1 w s2 :
  copied e s ->
  do_read e fd buf (count_of v e) s = (r, s1) -> 0 < r ->
  do_write e STDOUT_FILENO buf (wlen_of v r) s1 = (w, s2) ->
  w = wlen_of v r -> copied e s2.
Proof.
  unfold copied, do_read, do_write. intros Hc Hrd Hr Hwr Hw.
  injection Hrd as Hr1 Hs1. injection Hwr as Hw1 Hs2.
  destruct (read_ok_data e (nreads s) (pos s) (count_of v e) Hread
              (count_nonneg v e)) as [Hrc Hlen]; [lia|].
  rewrite Hr1 in Hrc, Hlen.
  rewrite (wlen_of_id v e r Hrc) in *.
  rewrite <- Hs2. cbn [out pos]. rewrite Hw1, Hw.
  rewrite <- Hs1. cbn [out pos mem]. rewrite Hr1.
  set (data := take (Z.to_nat r) (drop (pos s) (file e))) in *.
  rewrite <- Hlen, written_back, Hc. subst data.
  rewrite Hlen. apply take_take_drop.
Qed.
End CopyInvariant.

(** * The copy: the environment of the example *)

Lemma env_hello_pagesize_ok : pagesize_ok env_hello.
Proof. right. simpl. lia. Qed.

Lemma env_hello_read_ok : read_ok env_hello.
Proof.
  intros i off count Hc. right. cbn [read_ret env_hello file].
  change (length hello) with 14%nat. lia.
Qed.

(** * What reaches standard output *)

Lemma chunks_read_app l1 l2 :
  chunks_read (l1 ++ l2) = chunks_read l1 ++ chunks_read l2.
Proof.
  induction l1 as [|ev l1 IH]; simpl; [reflexivity|].
  destruct ev; rewrite ?IH, ?app_assoc; reflexivity.
Qed.

Lemma quiet_no_write l : quiet_after_end l -> no_write_after_end l.
Proof.
  intros Hq l1. revert l Hq.
  induction l1 as [|x l1 IH]; intros l Hq ev l2 Heq Hend; subst l.
  - exact (proj1 Hq Hend).
  - exact (IH _ (proj2 Hq) ev l2 eq_refl Hend).
Qed.

Lemma quiet_app l t :
  Forall (fun ev => ~ end_read ev) l -> quiet_after_end t ->
  quiet_after_end (l ++ t).
Proof.
  induction 1 as [|ev l Hev _ IH]; intros Ht; simpl; [exact Ht|].
  split; [intros H; contradiction|exact (IH Ht)].
Qed.

(** The part of a chunk that a write passes on is a prefix of the chunk. *)
Lemma take_written m buf data k :
  take k (load_bytes (store_bytes m buf data) buf (length data)) = take k data.
Proof. rewrite load_store_bytes. reflexivity. Qed.

Section Stream.
Context (v : variant) (e : env).
Hypothesis Hread : read_ok e.

Lemma streamed_ready s : ready v e s -> streamed e s.
Proof.
  intros H. unfold streamed.
  rewrite (ready_out _ _ _ H), (ready_pos _ _ _ H), (ready_log _ _ _ H).
  pose proof (ready_err _ _ _ H) as Herr.
  repeat split.
  - destruct v; reflexivity.
  - destruct v; reflexivity.
  - intros Hin. rewrite Forall_forall in Herr.
    exact (Herr _ (proj2 (list_elem_of_In _ _) Hin)).
  - destruct v; repeat constructor; simpl; tauto.
Qed.

(** The state after a read of [r > 0] bytes and the write that follows. *)
Lemma read_then_write fd buf s r s1 w s2 :
  do_read e fd buf (count_of v e) s = (r, s1) -> 0 < r ->
  do_write e STDOUT_FILENO buf (wlen_of v r) s1 = (w, s2) ->
  exists data,
    length data = Z.to_nat r /\
    data = take (Z.to_nat r) (drop (pos s) (file e)) /\
    pos s2 = (pos s + length data)%nat /\
    err s2 = err s /\
    out s2 = out s ++ take (Z.to_nat w) data /\
    log s2 = log s ++ [EvRead fd buf (count_of v e) r data;
                       EvWrite STDOUT_FILENO buf r w (take (Z.to_nat w) data)].
Proof.
  unfold do_read, do_write. intros Hrd Hr Hwr.
  injection Hrd as Hr1 Hs1. injection Hwr as Hw1 Hs2.
  destruct (read_ok_data e (nreads s) (pos s) (count_of v e) Hread
              (count_nonneg v e)) as [Hrc Hlen]; [lia|].
  rewrite Hr1 in Hrc, Hlen.
  rewrite (wlen_of_id v e r Hrc) in *.
  exists (take (Z.to_nat r) (drop (pos s) (file e))).
  rewrite <- Hs2. cbn [out pos err log]. rewrite Hw1.
  rewrite <- Hs1. cbn [out pos err log mem]. rewrite Hr1.
  set (data := take (Z.to_nat r) (drop (pos s) (file e))) in *.
  rewrite <- Hlen, take_written, <- app_assoc.
  repeat split.
Qed.

Lemma streamed_iter fd buf s r s1 w s2 :
  streamed e s ->
  do_read e fd buf (count_of v e) s = (r, s1) -> 0 < r ->
  do_write e STDOUT_FILENO buf (wlen_of v r) s1 = (w, s2) ->
  w = wlen_of v r -> streamed e s2.
Proof.
  intros (Hout & Hch & Herr & Hlive) Hrd Hr Hwr Hw.
  destruct (read_ok_data e (nreads s) (pos s) (count_of v e) Hread
              (count_nonneg v e)) as [Hrc _].
  { unfold do_read in Hrd. injection Hrd as Hr1 _. lia. }
  assert (Hrr : read_ret e (nreads s) (pos s) (count_of v e) = r).
  { unfold do_read in Hrd. injection Hrd as Hr1 _. exact Hr1. }
  rewrite Hrr in Hrc. rewrite (wlen_of_id v e r Hrc) in Hw.
  destruct (read_then_write fd buf s r s1 w s2 Hrd Hr Hwr)
    as (data & Hlen & Hdata & Hpos & Herr2 & Hout2 & Hlog2).
  unfold streamed. rewrite Hout2, Hlog2, Hpos, Herr2, chunks_read_app.
  simpl chunks_read. rewrite app_nil_r.
  assert (Hfull : take (Z.to_nat w) data = data).
  { rewrite Hw, <- Hlen. apply firstn_all. }
  rewrite Hfull. repeat split.
  - rewrite Hout. reflexivity.
  - rewrite Hch, Hlen, Hdata. apply take_take_drop.
  - exact Herr.
  - apply Forall_app. split; [exact Hlive|].
    repeat constructor; simpl; [lia|tauto].
Qed.
End Stream.

(** A read that returns 0 or less delivers nothing. *)
Lemma read_end e fd buf count s r s1 :
  do_read e fd buf count s = (r, s1) -> r <= 0 ->
  out s1 = out s /\ err s1 = err s /\ pos s1 = pos s /\
  log s1 = log s ++ [EvRead fd buf count r []].
Proof.
  unfold do_read. intros Hrd Hr. injection Hrd as Hr1 Hs1.
  rewrite <- Hs1. cbn [out err pos log]. rewrite Hr1.
  replace (Z.to_nat r) with 0%nat by lia. simpl.
  repeat split. lia.
Qed.

Lemma stopped_quiet v e s :
  stopped v e s ->
  chunks_read (log s) = [] /\ quiet_after_end (log s).
Proof.
  intros [? Hl ?|? ? ? Hl ? ?|? ? ? ? Hl ? ?|? ? ? Hl ?|? ? ? ? ? Hl ?
          |? ? ? ? ? ? Hl]; rewrite Hl; simpl; tauto.
Qed.

Lemma not_write_free blk :
  Forall (fun ev' => ~ is_write ev')
    (match blk with Some p => [EvFree p] | None => [] end).
Proof. destruct blk; repeat constructor; simpl; tauto. Qed.

Lemma quiet_free blk :
  quiet_after_end (match blk with Some p => [EvFree p] | None => [] end).
Proof. destruct blk; simpl; tauto. Qed.

(** * A short write loses a part of a chunk *)

Lemma env_short_write_read_ok : read_ok env_short_write.
Proof.
  intros i off count Hc. right. cbn [read_ret env_short_write file].
  change (length hello) with 14%nat. lia.
Qed.

(** C9 (as stated) fails when a write is short: mycat5 reads the 14 bytes
    of the file in one chunk, the write takes 5 of them, and the program
    stops; standard output holds 5 bytes, the chunks read 14. *)
Lemma short_write_loses_chunk :
  ~ emits_all_chunks (run Cat5 env_short_write 3).
Proof.
  unfold emits_all_chunks. vm_compute. intros H. discriminate H.
Qed.

Example short_write_run :
  exists s, run Cat5 env_short_write 3 = Finished EXIT_FAILURE s /\
            out s = [72; 101; 108; 108; 111] /\
            chunks_read (log s) = hello /\
            last (err s) = Some MsgWriteFailed.
Proof.
  eexists. split; [vm_compute; reflexivity|].
  split; [vm_compute; reflexivity|]. split; vm_compute; reflexivity.
Qed.

(** * Termination of the copy loop *)

Lemma progressing_iter e fd buf count wlen s r s1 w s2 :
  read_progress e -> 0 <= count -> progressing e s ->
  do_read e fd buf count s = (r, s1) -> 0 < r ->
  do_write e STDOUT_FILENO buf (wlen r) s1 = (w, s2) ->
  progressing e s2.
Proof.
  unfold progressing, do_read, do_write. intros Hp Hc [Hn Hl] Hrd Hr Hwr.
  injection Hrd as Hr1 Hs1. injection Hwr as _ Hs2.
  destruct (Hp (nreads s) (pos s) count Hc) as (_ & _ & Hdata).
  rewrite Hr1 in Hdata. specialize (Hdata Hr).
  rewrite <- Hs2. cbn [nreads pos]. rewrite <- Hs1. cbn [nreads pos].
  rewrite Hr1.
  assert (length (take (Z.to_nat r) (drop (pos s) (file e)))
          <= length (file e) - pos s)%nat.
  { rewrite length_take, length_drop. lia. }
  lia.
Qed.

(** C10. For every finite input, when each read returns a count between 0
    and the requested length, returns 0 once the file is exhausted, and
    consumes at least one byte whenever it returns a positive count, the
    copy loop of every variant makes at most one read more than the file
    has bytes and the program terminates, in success or failure: any fuel
    above the length of the file is enough. *)
Theorem copy_terminates v e fuel :
  read_progress e ->
  (length (file e) < fuel)%nat ->
  exists code s,
    run v e fuel = Finished code s /\
    (nreads s <= S (length (file e)))%nat.
Proof.
  intros Hp Hfuel.
  destruct (run_cases v e fuel (progressing e)) as
    [(s' & Hstop & (_ & Hn) & _)
    |(s_in & s0 & res & Hrdy & Hag & [Hn Hl] & Hfo & Hres)].
  - intros s_in Hrdy. unfold progressing.
    rewrite (ready_nreads _ _ _ Hrdy), (ready_pos _ _ _ Hrdy). lia.
  - intros s_in s0 r s1 w s2 _ _ Hinv Hr Hpos Hw _.
    exact (progressing_iter e _ _ _ (wlen_of v) s0 r s1 w s2 Hp
             (count_nonneg v e) Hinv Hr Hpos Hw).
  - exists EXIT_FAILURE, s'. split; [exact Hstop|lia].
  - assert (Hrd : forall r s1,
              do_read e (open_ret e) (buffer_of v e) (count_of v e) s0 = (r, s1) ->
              nreads s1 = S (nreads s0)).
    { unfold do_read. intros r s1 H. injection H as _ <-. reflexivity. }
    destruct Hfo as [|r s1 w s2 Hr Hpos Hw Hne|r s1 Hr Hm1
                     |r s1 Hr Hle Hne Hc|r s1 Hr Hle Hne Hc];
      cbn [to_outcome] in Hres.
    + (* cut off: impossible, the fuel exceeds the number of reads *)
      exfalso.
      destruct (run_unfinished v e fuel s0 Hres) as (_ & _ & _ & Hcount & _).
      lia.
    + eexists _, _. split; [exact Hres|].
      rewrite released_nreads. cbn [nreads add_log add_err].
      assert (nreads s2 = nreads s1)
        by (unfold do_write in Hw; injection Hw as _ <-; reflexivity).
      pose proof (Hrd r s1 Hr). lia.
    + eexists _, _. split; [exact Hres|].
      rewrite released_nreads. cbn [nreads add_log add_err].
      pose proof (Hrd r s1 Hr). lia.
    + eexists _, _. split; [exact Hres|].
      rewrite released_nreads. cbn [nreads add_log add_err].
      pose proof (Hrd r s1 Hr). lia.
    + eexists _, _. split; [exact Hres|].
      rewrite released_nreads. cbn [nreads add_log add_err].
      pose proof (Hrd r s1 Hr). lia.
Qed.

Lemma env_hello_read_progress : read_progress env_hello.
Proof.
  intros i off count Hc. cbn [read_ret env_hello file].
  change (length hello) with 14%nat.
  split; [lia|]. split; [lia|].
  intros Hr. rewrite length_take, length_drop.
  change (length hello) with 14%nat. lia.
Qed.

Lemma copy_terminates_witness :
  exists code s,
    run Cat1 env_hello 15 = Finished code s /\ (nreads s <= 15)%nat.
Proof.
  apply (copy_terminates Cat1 env_hello 15 env_hello_read_progress).
  change (length (file env_hello)) with 14%nat. lia.
Defined.

Example one_byte_at_a_time :
  exists s, run Cat1 env_hello 15 = Finished EXIT_SUCCESS s /\
            nreads s = 15%nat /\ out s = hello.
Proof.
  eexists. split; [vm_compute; reflexivity|]. split; vm_compute; reflexivity.
Qed.

(** * Acquisition and release *)

Lemma opens_app l1 l2 : opens (l1 ++ l2) = opens l1 ++ opens l2.
Proof.
  induction l1 as [|ev l1 IH]; simpl; [reflexivity|].
  destruct ev; rewrite ?IH; try reflexivity.
  destruct (fd =? -1); reflexivity.
Qed.

Lemma closes_app l1 l2 : closes (l1 ++ l2) = closes l1 ++ closes l2.
Proof.
  induction l1 as [|ev l1 IH]; simpl; [reflexivity|].
  destruct ev; rewrite ?IH; reflexivity.
Qed.

Lemma mallocs_app l1 l2 : mallocs (l1 ++ l2) = mallocs l1 ++ mallocs l2.
Proof.
  induction l1 as [|ev l1 IH]; simpl; [reflexivity|].
  destruct ev; rewrite ?IH; try reflexivity.
  destruct (p =? NULL); reflexivity.
Qed.

Lemma frees_app l1 l2 : frees (l1 ++ l2) = frees l1 ++ frees l2.
Proof.
  induction l1 as [|ev l1 IH]; simpl; [reflexivity|].
  destruct ev; rewrite ?IH; reflexivity.
Qed.

(** Reads and writes acquire and release nothing. *)
Lemma io_neutral l :
  Forall (fun ev => is_read ev \/ is_write ev) l ->
  opens l = [] /\ closes l = [] /\ mallocs l = [] /\ frees l = [].
Proof.
  induction 1 as [|ev l Hev _ IH]; [repeat split|].
  destruct ev; simpl in Hev; try tauto; exact IH.
Qed.

Lemma frees_released blk :
  frees (match blk with Some p => [EvFree p] | None => [] end)
  = match blk with Some p => [p] | None => [] end.
Proof. destruct blk; reflexivity. Qed.

Lemma in_loop_ready v e s : ready v e s -> in_loop v e s.
Proof.
  intros H. exists []. rewrite app_nil_r. split; [|constructor].
  exact (ready_log _ _ _ H).
Qed.

Lemma in_loop_iter v e fd buf count wlen s r s1 w s2 :
  in_loop v e s ->
  do_read e fd buf count s = (r, s1) ->
  do_write e STDOUT_FILENO buf (wlen r) s1 = (w, s2) ->
  in_loop v e s2.
Proof.
  unfold in_loop, do_read, do_write. intros (l & Hl & Hio) Hrd Hwr.
  injection Hrd as _ Hs1. injection Hwr as _ Hs2.
  rewrite <- Hs2. cbn [log]. rewrite <- Hs1. cbn [log].
  eexists. rewrite Hl, <- !app_assoc. split; [reflexivity|].
  apply Forall_app. split; [exact Hio|].
  repeat constructor; simpl; tauto.
Qed.

(** The log of a state reached by one more read. *)
Lemma in_loop_read v e fd buf count s r s1 :
  in_loop v e s -> do_read e fd buf count s = (r, s1) ->
  in_loop v e s1 /\ heap s1 = heap s.
Proof.
  unfold in_loop, do_read. intros (l & Hl & Hio) Hrd.
  injection Hrd as _ Hs1. rewrite <- Hs1. cbn [log heap].
  split; [|reflexivity].
  eexists. rewrite Hl, <- !app_assoc. split; [reflexivity|].
  apply Forall_app. split; [exact Hio|].
  repeat constructor; simpl; tauto.
Qed.

(** ** When the aligned allocator cannot return a null buffer *)

Lemma pagesize_pow2_ok e : pagesize_pow2 e -> pagesize_ok e.
Proof.
  intros [H|(k & Hk & H)]; [left; exact H|right].
  rewrite H. split; [apply Z.pow_pos_nonneg; lia|].
  apply Z.pow_lt_mono_r; lia.
Qed.

Lemma page_size_of_pow2 e :
  pagesize_pow2 e -> 1 <= page_size_of e <= 2 ^ 62.
Proof.
  unfold page_size_of. intros [H|(k & Hk & H)].
  - rewrite H. simpl. lia.
  - destruct (sysconf_ret e =? -1); [lia|]. rewrite H.
    split; [pose proof (Z.pow_pos_nonneg 2 k); lia|].
    apply Z.pow_le_mono_r; lia.
Qed.

Lemma count_below v e :
  pagesize_ok e -> long_range (st_blksize e) -> count_of v e < 2 ^ 63.
Proof.
  intros Hps Hblk. pose proof (page_size_of_range e Hps) as Hr.
  assert (Hts : to_size (page_size_of e) = page_size_of e).
  { apply to_size_small. rewrite SIZE_MODULUS_eq. lia. }
  unfold long_range in Hblk.
  destruct v; simpl; try (unfold Mycat5.OPTIMAL_BUFFER_SIZE; lia);
    try (unfold Mycat6.OPTIMAL_BUFFER_SIZE; lia).
  - unfold page_size_of in *. destruct (sysconf_ret e =? -1); [lia|].
    rewrite Hts. lia.
  - rewrite Hts.
    assert (Hsmall : forall x, 0 < x < 2 ^ 63 -> to_size x = x).
    { intros x Hx. apply to_size_small. rewrite SIZE_MODULUS_eq. lia. }
    repeat match goal with |- context [if ?c then _ else _] =>
      destruct c eqn:?; eqb_prop end;
      rewrite ?Hsmall in * by lia; try lia.
Qed.

(** The request of an aligned variant does not wrap around, and a block of
    that size leaves room for the stash and for [buffer_size] bytes behind
    the aligned address. *)
Lemma aligned_buffer_in_block v e :
  aligned v -> pagesize_pow2 e -> long_range (st_blksize e) ->
  malloc_fits e -> block_of v e <> NULL ->
  request_of v e = count_of v e + page_size_of e - 1 + sizeof_ptr /\
  block_of v e + sizeof_ptr <= buffer_of v e /\
  buffer_of v e + count_of v e <= block_of v e + request_of v e.
Proof.
  intros Hv Hps Hblk Hfit Hp.
  pose proof (page_size_of_pow2 e Hps) as Hr.
  pose proof (count_positive v e (pagesize_pow2_ok e Hps)) as Hc1.
  pose proof (count_below v e (pagesize_pow2_ok e Hps) Hblk) as Hc2.
  assert (Hts : to_size (page_size_of e) = page_size_of e).
  { apply to_size_small. rewrite SIZE_MODULUS_eq. lia. }
  assert (Hreq : request_of v e =
                 count_of v e + page_size_of e - 1 + sizeof_ptr).
  { destruct v; try contradiction; unfold request_of; rewrite Hts;
      apply to_size_small; rewrite SIZE_MODULUS_eq; unfold sizeof_ptr; lia. }
  split; [exact Hreq|].
  pose proof (to_size_range (malloc_ret e (request_of v e))) as Hpr.
  fold (block_of v e) in Hpr.
  destruct (Hfit (request_of v e)) as [Hnull|Hin];
    fold (block_of v e) in Hnull || fold (block_of v e) in Hin;
    [contradiction|].
  assert (Hbuf : buffer_of v e =
                 aligned_addr (block_of v e) (page_size_of e)).
  { destruct v; try contradiction; unfold buffer_of; rewrite Hts;
      reflexivity. }
  rewrite Hbuf.
  pose proof (aligned_addr_bounds (block_of v e) (page_size_of e)) as Hb.
  unfold sizeof_ptr in *. lia.
Qed.

Lemma buffer_nonnull v e :
  aligned v -> pagesize_pow2 e -> long_range (st_blksize e) ->
  malloc_fits e -> block_of v e <> NULL -> buffer_of v e <> NULL.
Proof.
  intros Hv Hps Hblk Hfit Hp.
  destruct (aligned_buffer_in_block v e Hv Hps Hblk Hfit Hp) as (_ & H & _).
  pose proof (to_size_range (malloc_ret e (request_of v e))) as Hpr.
  fold (block_of v e) in Hpr. unfold NULL, sizeof_ptr in *. lia.
Qed.

(** C4. In mycat4, mycat5 and mycat6, on every path on which the process
    ends after the input descriptor has been opened and the aligned buffer
    allocated -- normal completion, read error, write error or close
    error -- [close] is called exactly once, on that descriptor, [free] is
    called exactly once, on the block [malloc] returned, and no block is
    left on the heap.  The environment is assumed to report a page size
    that is a power of two, a block size in the range of [long], and to
    place heap blocks inside the address space. *)
Theorem resources_released_once v e fuel code s :
  aligned v -> pagesize_pow2 e -> long_range (st_blksize e) ->
  malloc_fits e ->
  run v e fuel = Finished code s ->
  forall fd p,
    In fd (opens (log s)) -> In p (mallocs (log s)) ->
    closes (log s) = [fd] /\ frees (log s) = [p] /\ heap s = ∅.
Proof.
  intros Hv Hps Hblk Hfit Hrun fd p.
  destruct (run_cases v e fuel (in_loop v e)) as
    [(s' & Hstop & _ & Hst)
    |(s_in & s0 & res & Hrdy & [Hheap _] & Hinv & Hfo & Hres)].
  - intros s_in Hrdy. exact (in_loop_ready v e s_in Hrdy).
  - intros s_in s0 r s1 w s2 _ _ Hinv Hr _ Hw _.
    exact (in_loop_iter v e _ _ _ (wlen_of v) s0 r s1 w s2 Hinv Hr Hw).
  - (* stopped before the loop: the descriptor or the buffer is missing *)
    rewrite Hstop in Hrun. injection Hrun as _ <-.
    destruct Hst as [? Hl ?|? ? Hopen Hl ? ?|? -> ? ? Hl ? ?|? -> ? Hl ?
                     |? ? ? ? Hnull Hl ?|? ? ? ? Hp Hbuf Hl];
      try contradiction; rewrite Hl; cbn [opens mallocs].
    + intros [].
    + rewrite Hopen. intros [].
    + change (NULL =? NULL) with true.
      destruct (open_ret e =? -1); intros _ [].
    + exfalso. exact (buffer_nonnull v e Hv Hps Hblk Hfit Hp Hbuf).
  - (* the loop was entered *)
    rewrite Hres in Hrun.
    assert (Hblock : blk_of v e = Some (block_of v e))
      by (destruct v; try contradiction; reflexivity).
    assert (Hacq : acquire_log v e =
                   [EvOpen (open_ret e);
                    EvMalloc (request_of v e) (block_of v e)])
      by (destruct v; try contradiction; reflexivity).
    pose proof (ready_fd _ _ _ Hrdy) as Hfd. apply Z.eqb_neq in Hfd.
    destruct (ready_buf _ _ _ Hrdy) as [_ Hp];
      [destruct v; try contradiction; discriminate|].
    apply Z.eqb_neq in Hp.
    pose proof (ready_heap _ _ _ Hrdy) as Hh. rewrite Hblock in Hh.
    assert (Hend : forall s1 l,
              in_loop v e s1 -> heap s1 = heap s0 ->
              closes l = [open_ret e] -> opens l = [] -> mallocs l = [] ->
              frees l = [] ->
              forall sf, log sf = log s1 ++ l -> heap sf = heap s1 ->
              In fd (opens (log (released (blk_of v e) sf))) ->
              In p (mallocs (log (released (blk_of v e) sf))) ->
              closes (log (released (blk_of v e) sf)) = [fd] /\
              frees (log (released (blk_of v e) sf)) = [p] /\
              heap (released (blk_of v e) sf) = ∅).
    { intros s1 l (l1 & Hl1 & Hio) Hh1 Hc Ho Hm Hf sf Hlog Hhf.
      destruct (io_neutral l1 Hio) as (Ho1 & Hc1 & Hm1 & Hf1).
      rewrite released_log, released_heap, Hblock, Hlog, Hl1, Hacq.
      rewrite !opens_app, !closes_app, !mallocs_app, !frees_app.
      rewrite Ho1, Hc1, Hm1, Hf1, Hc, Ho, Hm, Hf.
      cbn [opens closes mallocs frees app]. rewrite Hfd, Hp.
      cbn [app]. intros [<-|[]] [<-|[]].
      split; [reflexivity|]. split; [reflexivity|].
      rewrite Hhf, Hh1, Hheap, Hh. apply delete_singleton_eq. }
    destruct Hfo as [|r s1 w s2 Hr Hpos Hw Hne|r s1 Hr Hm1
                     |r s1 Hr Hle Hne Hc|r s1 Hr Hle Hne Hc];
      cbn [to_outcome] in Hrun; try discriminate Hrun;
      injection Hrun as _ <-.
    + (* write error *)
      apply (Hend s2 [EvClose (open_ret e) (close_ret e)]);
        try reflexivity.
      * exact (in_loop_iter v e _ _ _ (wlen_of v) s0 r s1 w s2 Hinv Hr Hw).
      * unfold do_read in Hr. unfold do_write in Hw.
        injection Hr as _ <-. injection Hw as _ <-. reflexivity.
    + (* read error *)
      destruct (in_loop_read v e _ _ _ s0 r s1 Hinv Hr) as [Hin1 Hh1].
      apply (Hend s1 [EvClose (open_ret e) (close_ret e)]);
        try reflexivity; assumption.
    + (* close error *)
      destruct (in_loop_read v e _ _ _ s0 r s1 Hinv Hr) as [Hin1 Hh1].
      apply (Hend s1 [EvClose (open_ret e) (close_ret e)]);
        try reflexivity; assumption.
    + (* normal completion *)
      destruct (in_loop_read v e _ _ _ s0 r s1 Hinv Hr) as [Hin1 Hh1].
      apply (Hend s1 [EvClose (open_ret e) (close_ret e)]);
        try reflexivity; assumption.
Qed.

Lemma env_hello_pagesize_pow2 : pagesize_pow2 env_hello.
Proof. right. exists 12. split; [lia|reflexivity]. Qed.

Lemma env_hello_blksize : long_range (st_blksize env_hello).
Proof. unfold long_range. simpl. lia. Qed.

Lemma env_hello_malloc_fits : malloc_fits env_hello.
Proof.
  intros n. cbn [malloc_ret env_hello].
  destruct (n <=? 2 ^ 32) eqn:Hn.
  - right. apply Z.leb_le in Hn. change (to_size 65536) with 65536.
    rewrite SIZE_MODULUS_eq. change (2 ^ 32) with 4294967296 in Hn. lia.
  - left. reflexivity.
Qed.

Lemma resources_released_once_witness :
  let s := final (run Cat4 env_hello 2) in
  run Cat4 env_hello 2 = Finished EXIT_SUCCESS s /\
  closes (log s) = [3] /\ frees (log s) = [65536] /\ heap s = ∅.
Proof.
  intros s.
  assert (Hrun : run Cat4 env_hello 2 = Finished EXIT_SUCCESS s)
    by (vm_compute; reflexivity).
  split; [exact Hrun|].
  apply (resources_released_once Cat4 env_hello 2 EXIT_SUCCESS s I
           env_hello_pagesize_pow2 env_hello_blksize env_hello_malloc_fits
           Hrun 3 65536).
  - vm_compute. left. reflexivity.
  - vm_compute. left. reflexivity.
Defined.

(** The four paths of the claim, on mycat5: normal completion, read
    error, write error and close error each close descriptor 3 once and
    free block 65536 once. *)
Example release_on_each_path :
  let paths := [run Cat5 env_hello 2; run Cat5 env_read_error 2;
                run Cat5 env_short_write 2; run Cat5 env_close_error 2] in
  map (fun o => match o with Finished c _ => Some c | _ => None end) paths
    = [Some 0; Some 1; Some 1; Some 1] /\
  Forall (fun o => closes (log (final o)) = [3] /\
                   frees (log (final o)) = [65536] /\
                   heap (final o) = ∅) paths.
Proof. vm_compute. split; [reflexivity|]. repeat constructor. Qed.

(** * A short write ends the program *)

Lemma mallocs_acquire v e s :
  ready v e s ->
  map EvFree (mallocs (acquire_log v e)) =
  match blk_of v e with Some p => [EvFree p] | None => [] end.
Proof.
  intros Hrdy. destruct v; [reflexivity|..];
    (destruct (ready_buf _ _ _ Hrdy) as [_ Hp]; [discriminate|]);
    apply Z.eqb_neq in Hp; cbn [acquire_log mallocs blk_of];
    rewrite Hp; try reflexivity.
  all: destruct (open_ret e =? -1); reflexivity.
Qed.

Lemma heap_released_ready v e s_in s :
  ready v e s_in -> heap s = heap s_in ->
  heap (released (blk_of v e) s) = ∅.
Proof.
  intros Hrdy Hh. rewrite released_heap, Hh, (ready_heap _ _ _ Hrdy).
  destruct (blk_of v e); [apply delete_singleton_eq|reflexivity].
Qed.

(** C5. In every variant, when the program is in its copy loop (after
    [k] complete iterations) and the next read returns [N > 0] bytes while
    the write that follows returns a count different from [N], the
    program makes no further read or write: it closes the input
    descriptor, frees the buffer it allocated, and exits with
    [EXIT_FAILURE] after reporting the failed write. *)
Theorem short_write_is_fatal v e k s0
    fd buf cnt N data fd' buf' cnt' w data' rest :
  run v e k = Unfinished s0 ->
  log (final (run v e (S k))) =
    log s0 ++ EvRead fd buf cnt N data :: EvWrite fd' buf' cnt' w data' :: rest ->
  0 < N <= cnt -> w <> N ->
  exists s,
    run v e (S k) = Finished EXIT_FAILURE s /\
    rest = EvClose fd (close_ret e) :: map EvFree (mallocs (log s0)) /\
    last (err s) = Some MsgWriteFailed /\
    heap s = ∅.
Proof.
  intros Hrun Hlog HN Hw.
  destruct (run_unfinished v e k s0 Hrun) as (s_in & Hrdy & Hag & _ & Hmore).
  assert (Hloop : in_loop v e s0).
  { destruct (run_cases v e k (in_loop v e)) as
      [(s' & Hstop & _)|(s_in' & s0' & res & _ & _ & Hinv & Hfo & Hres)].
    - intros s Hs. exact (in_loop_ready v e s Hs).
    - intros s_in' s r s1 w0 s2 _ _ Hinv Hr _ Hw0 _.
      exact (in_loop_iter v e _ _ _ (wlen_of v) s r s1 w0 s2 Hinv Hr Hw0).
    - rewrite Hstop in Hrun. discriminate Hrun.
    - rewrite Hres in Hrun.
      destruct Hfo; cbn [to_outcome] in Hrun; try discriminate Hrun.
      injection Hrun as <-. exact Hinv. }
  assert (Hfrees : map EvFree (mallocs (log s0)) =
                   match blk_of v e with Some p => [EvFree p] | None => [] end).
  { destruct Hloop as (l & Hl & Hio).
    destruct (io_neutral l Hio) as (_ & _ & Hm & _).
    rewrite Hl, mallocs_app, Hm, app_nil_r.
    exact (mallocs_acquire v e s_in Hrdy). }
  specialize (Hmore 1%nat). replace (k + 1)%nat with (S k) in Hmore by lia.
  rewrite (finish_one e _ _ _ _ _ (blk_of v e) s_in
             (ready_release v e s_in Hrdy) s0 Hag) in Hmore.
  rewrite Hmore in Hlog |- *. clear Hmore.
  destruct (do_read e (open_ret e) (buffer_of v e) (count_of v e) s0)
    as [r s1] eqn:Hrd.
  assert (Hlog1 : log s1 = log s0 ++
            [EvRead (open_ret e) (buffer_of v e) (count_of v e) r
               (take (Z.to_nat r) (drop (pos s0) (file e)))]).
  { unfold do_read in Hrd. injection Hrd as <- <-. reflexivity. }
  assert (Hheap1 : heap s1 = heap s0).
  { unfold do_read in Hrd. injection Hrd as _ <-. reflexivity. }
  destruct (0 <? r) eqn:Hpos.
  - destruct (do_write e STDOUT_FILENO (buffer_of v e) (wlen_of v r) s1)
      as [w0 s2] eqn:Hwr.
    assert (Hlog2 : log s2 = log s1 ++
              [EvWrite STDOUT_FILENO (buffer_of v e) (wlen_of v r) w0
                 (take (Z.to_nat w0)
                    (load_bytes (mem s1) (buffer_of v e)
                       (Z.to_nat (wlen_of v r))))]).
    { unfold do_write in Hwr. injection Hwr as <- <-. reflexivity. }
    assert (Hs2 : heap s2 = heap s1 /\ err s2 = err s1).
    { unfold do_write in Hwr. injection Hwr as _ <-. split; reflexivity. }
    destruct Hs2 as [Hheap2 Herr2].
    destruct (w0 =? wlen_of v r) eqn:Hw0; cbn [to_outcome final] in Hlog |- *.
    + (* a complete write: excluded by the hypotheses *)
      exfalso. rewrite Hlog2, Hlog1, <- app_assoc in Hlog.
      apply app_inv_head in Hlog. cbn [app] in Hlog.
      injection Hlog as _ _ Hcnt HrN _ _ _ _ HwN _ _.
      apply Z.eqb_eq in Hw0. subst N cnt w.
      rewrite (wlen_of_id v e r HN) in Hw0. contradiction.
    + (* the write failed *)
      eexists. split; [reflexivity|].
      rewrite released_log in Hlog. cbn [log add_log add_err] in Hlog.
      rewrite Hlog2, Hlog1, <- !app_assoc in Hlog.
      apply app_inv_head in Hlog. cbn [app] in Hlog.
      injection Hlog as Hfd _ _ _ _ _ _ _ _ _ Hrest.
      split; [rewrite Hfrees, <- Hrest, Hfd; reflexivity|].
      split.
      * rewrite released_err. cbn [err add_log add_err]. apply last_snoc.
      * apply (heap_released_ready v e s_in _ Hrdy). cbn [heap add_log add_err].
        rewrite Hheap2, Hheap1. exact (proj1 Hag).
  - (* the read returned 0 or less: excluded by the hypotheses *)
    exfalso. apply Z.ltb_ge in Hpos.
    destruct (r =? -1); [|destruct (close_ret e =? -1)];
      cbn [to_outcome final] in Hlog;
      rewrite released_log in Hlog; cbn [log add_log add_err] in Hlog;
      rewrite Hlog1, <- !app_assoc in Hlog;
      apply app_inv_head in Hlog; cbn [app] in Hlog;
      injection Hlog as _ _ _ HrN _ _; lia.
Qed.

Lemma short_write_is_fatal_witness :
  exists s,
    run Cat5 env_short_write 1 = Finished EXIT_FAILURE s /\
    [EvClose 3 0; EvFree 65536] =
      EvClose 3 (close_ret env_short_write)
        :: map EvFree (mallocs (log (final (run Cat5 env_short_write 0)))) /\
    last (err s) = Some MsgWriteFailed /\
    heap s = ∅.
Proof.
  assert (H0 : run Cat5 env_short_write 0 =
               Unfinished (final (run Cat5 env_short_write 0)))
    by (vm_compute; reflexivity).
  assert (H1 : log (final (run Cat5 env_short_write 1)) =
               log (final (run Cat5 env_short_write 0)) ++
               EvRead 3 69632 2097152 14 hello
                 :: EvWrite 1 69632 14 5 [72; 101; 108; 108; 111]
                 :: [EvClose 3 0; EvFree 65536])
    by (vm_compute; reflexivity).
  apply (short_write_is_fatal Cat5 env_short_write 0 _ _ _ _ _ _ _ _ _ _ _ _
           H0 H1); lia.
Defined.

(** * The block size of mycat4 *)

(** C6. For every input descriptor, [io_blocksize] of mycat4 never returns
    less than the page size: it returns the block size the filesystem
    reports when [fstat] succeeds and that size is at least the page size,
    and the page size otherwise, that is, when [fstat] fails and when the
    reported size is smaller than the page size.  The page size is the
    value of [get_system_page_size]; it is assumed positive and the block
    size in the range of [long]. *)
Theorem io_blocksize_at_least_page_size e fd s :
  pagesize_ok e -> long_range (st_blksize e) ->
  exists ps s1 r s2,
    get_system_page_size e s = Ret ps s1 /\
    Mycat4.io_blocksize fd e s = Ret r s2 /\
    ps <= r /\
    (fstat_ret e = 0 -> ps <= st_blksize e -> r = st_blksize e) /\
    (fstat_ret e <> 0 -> r = ps) /\
    (st_blksize e < ps -> r = ps).
Proof.
  intros Hps Hblk. pose proof (page_size_of_range e Hps) as Hr.
  assert (Hsmall : forall x, 0 < x < 2 ^ 63 -> to_size x = x).
  { intros x Hx. apply to_size_small. rewrite SIZE_MODULUS_eq. lia. }
  unfold long_range in Hblk.
  assert (Hrun : Mycat4.io_blocksize fd e s =
    Ret (count_of Cat4 e)
        (if fstat_ret e =? 0
         then if sysconf_ret e =? -1 then add_err MsgWarnPageSize s else s
         else add_err MsgWarnFstat
                (if sysconf_ret e =? -1 then add_err MsgWarnPageSize s
                 else s))).
  { unfold Mycat4.io_blocksize. unfold bind at 1.
    rewrite get_system_page_size_eq. unfold fstat, count_of. mred.
    destruct (fstat_ret e =? 0); reflexivity. }
  exists (page_size_of e). eexists. exists (count_of Cat4 e). eexists.
  split; [apply get_system_page_size_eq|]. split; [exact Hrun|].
  unfold count_of. rewrite (Hsmall (page_size_of e) Hr).
  destruct (fstat_ret e =? 0) eqn:Hf; eqb_prop.
  - destruct (0 <? st_blksize e) eqn:Hb; eqb_prop.
    + rewrite (Hsmall (st_blksize e)) by lia.
      destruct (st_blksize e <? page_size_of e) eqn:Hlt; eqb_prop;
        repeat split; intros; lia.
    + rewrite Z.ltb_irrefl. repeat split; intros; lia.
  - change (0 <? 0) with false. cbv iota. rewrite Z.ltb_irrefl.
    repeat split; intros; try lia; contradiction.
Qed.

Lemma io_blocksize_at_least_page_size_witness :
  exists ps s1 r s2,
    get_system_page_size env_hello initial = Ret ps s1 /\
    Mycat4.io_blocksize 3 env_hello initial = Ret r s2 /\
    ps <= r /\
    (fstat_ret env_hello = 0 -> ps <= st_blksize env_hello ->
     r = st_blksize env_hello) /\
    (fstat_ret env_hello <> 0 -> r = ps) /\
    (st_blksize env_hello < ps -> r = ps).
Proof.
  exact (io_blocksize_at_least_page_size env_hello 3 initial
           env_hello_pagesize_ok env_hello_blksize).
Defined.

Example io_blocksize_small_block :
  exists s, Mycat4.io_blocksize 3 env_hello initial = Ret 4096 s.
Proof. eexists. vm_compute. reflexivity. Qed.

(** * The page-aligned allocator *)

(** [align_alloc], written out. *)
Lemma align_alloc_eq size e s :
  align_alloc size e s =
  let s1 := if sysconf_ret e =? -1 then add_err MsgWarnPageSize s else s in
  let page_size := to_size (page_size_of e) in
  let n := to_size (size + page_size - 1 + sizeof_ptr) in
  let p := to_size (malloc_ret e n) in
  if p =? NULL then Ret NULL (add_log (EvMalloc n NULL) s1)
  else
    let a := aligned_addr p page_size in
    Ret a (set_mem (store_ptr (mem s1) (a - sizeof_ptr) p)
             (add_log (EvMalloc n p) (set_heap (<[p := n]> (heap s1)) s1))).
Proof.
  unfold align_alloc. unfold bind at 1. rewrite get_system_page_size_eq.
  unfold malloc, store_pointer. mred.
  destruct (to_size (malloc_ret e _) =? NULL) eqn:Hp.
  - change (NULL =? NULL) with true. reflexivity.
  - rewrite Hp. reflexivity.
Qed.

(** X8. When the size of the request does not wrap around, a non-null
    result of [align_alloc] is a multiple of the page size, lies at least
    [sizeof(void* )] bytes behind the start of the block that [malloc]
    returned, and is followed by at least [size] bytes of that block.
    (The page size is assumed to be a power of two and heap blocks to lie
    inside the address space.) *)
Lemma align_alloc_in_block e s size a s' :
  pagesize_pow2 e -> malloc_fits e ->
  1 <= size ->
  size + page_size_of e - 1 + sizeof_ptr < SIZE_MODULUS ->
  align_alloc size e s = Ret a s' -> a <> NULL ->
  exists p,
    heap s' !! p = Some (size + page_size_of e - 1 + sizeof_ptr) /\
    a mod page_size_of e = 0 /\
    p + sizeof_ptr <= a /\
    a + size <= p + (size + page_size_of e - 1 + sizeof_ptr).
Proof.
  intros Hps Hfit Hsize Hnowrap Hrun Ha.
  pose proof (page_size_of_pow2 e Hps) as Hr.
  assert (Hts : to_size (page_size_of e) = page_size_of e).
  { apply to_size_small. rewrite SIZE_MODULUS_eq. lia. }
  rewrite align_alloc_eq in Hrun. cbv zeta in Hrun. rewrite Hts in Hrun.
  rewrite (to_size_small (size + page_size_of e - 1 + sizeof_ptr)) in Hrun
    by (unfold sizeof_ptr in *; lia).
  set (n := size + page_size_of e - 1 + sizeof_ptr) in *.
  set (p := to_size (malloc_ret e n)) in *.
  destruct (p =? NULL) eqn:Hp.
  - injection Hrun as <- _. contradiction.
  - injection Hrun as <- <-. exists p. cbn [heap set_mem add_log set_heap].
    split; [apply lookup_insert_eq|].
    pose proof (to_size_range (malloc_ret e n)) as Hpr. fold p in Hpr.
    apply Z.eqb_neq in Hp.
    destruct (Hfit n) as [Hnull|Hin]; fold p in Hnull || fold p in Hin;
      [contradiction|].
    pose proof (aligned_addr_bounds p (page_size_of e)) as Hb.
    split.
    + assert (Hpow : exists k, 0 <= k < 64 /\ page_size_of e = 2 ^ k).
      { unfold page_size_of. destruct Hps as [H|(k & Hk & H)].
        - rewrite H. exists 12. split; [lia|reflexivity].
        - destruct (sysconf_ret e =? -1);
            [exists 12; split; [lia|reflexivity]|].
          exists k. split; [lia|exact H]. }
      destruct Hpow as (k & Hk & ->). apply aligned_addr_multiple, Hk.
    + subst n. unfold sizeof_ptr in *. lia.
Qed.


(** C3. After every [align_alloc] that returns a non-null pointer, the
    [sizeof(void* )] bytes just below the returned address hold the start
    of the block that [malloc] handed out, and [align_free] of the returned
    pointer reads that start back and frees exactly that block, which
    undoes the allocation; [align_free] of a null pointer does nothing. *)
Theorem align_free_undoes_align_alloc e s size a s1 :
  align_alloc size e s = Ret a s1 -> a <> NULL ->
  exists n p,
    log s1 = log s ++ [EvMalloc n p] /\ p <> NULL /\
    heap s1 = <[p := n]> (heap s) /\
    load_ptr (mem s1) (a - sizeof_ptr) = p /\
    align_free a e s1 =
      Ret tt (add_log (EvFree p) (set_heap (delete p (heap s)) s1)) /\
    (forall e' s', align_free NULL e' s' = Ret tt s').
Proof.
  intros Hrun Ha. rewrite align_alloc_eq in Hrun. cbv zeta in Hrun.
  set (n := to_size (size + to_size (page_size_of e) - 1 + sizeof_ptr)) in *.
  set (p := to_size (malloc_ret e n)) in *.
  destruct (p =? NULL) eqn:Hp.
  - injection Hrun as <- _. contradiction.
  - injection Hrun as <- <-. apply Z.eqb_neq in Hp.
    exists n, p.
    assert (Hheap : forall s0 : state,
              heap (if sysconf_ret e =? -1
                    then add_err MsgWarnPageSize s0 else s0) = heap s0)
      by (intros s0; destruct (sysconf_ret e =? -1); reflexivity).
    assert (Hlog : forall s0 : state,
              log (if sysconf_ret e =? -1
                   then add_err MsgWarnPageSize s0 else s0) = log s0)
      by (intros s0; destruct (sysconf_ret e =? -1); reflexivity).
    cbn [log heap mem set_mem add_log set_heap]. rewrite Hheap, Hlog.
    assert (Hload : load_ptr
              (store_ptr (mem (if sysconf_ret e =? -1
                               then add_err MsgWarnPageSize s else s))
                 (aligned_addr p (to_size (page_size_of e)) - sizeof_ptr) p)
              (aligned_addr p (to_size (page_size_of e)) - sizeof_ptr) = p)
      by (apply load_store_ptr, to_size_range).
    split; [reflexivity|]. split; [exact Hp|]. split; [reflexivity|].
    split; [exact Hload|]. split; [|reflexivity].
    erewrite align_free_live; [|exact Ha|exact Hp|exact Hload|].
    + unfold released. cbn [heap set_mem add_log set_heap].
      rewrite ?Hheap, delete_insert_eq. reflexivity.
    + cbn [heap set_mem add_log set_heap]. apply lookup_insert_eq.
Qed.

Lemma align_free_undoes_align_alloc_witness :
  exists s1 n p,
    align_alloc 4096 env_hello initial = Ret 69632 s1 /\
    log s1 = log initial ++ [EvMalloc n p] /\ p <> NULL /\
    heap s1 = <[p := n]> (heap initial) /\
    load_ptr (mem s1) (69632 - sizeof_ptr) = p /\
    align_free 69632 env_hello s1 =
      Ret tt (add_log (EvFree p) (set_heap (delete p (heap initial)) s1)) /\
    (forall e' s', align_free NULL e' s' = Ret tt s').
Proof.
  assert (Hrun : exists s1, align_alloc 4096 env_hello initial = Ret 69632 s1)
    by (eexists; vm_compute; reflexivity).
  destruct Hrun as [s1 Hrun]. exists s1.
  destruct (align_free_undoes_align_alloc env_hello initial 4096 69632 s1 Hrun)
    as (n & p & H); [discriminate|].
  exists n, p. split; [exact Hrun|exact H].
Defined.

Example align_alloc_round_trip :
  exists s1 s2,
    align_alloc 4096 env_hello initial = Ret 69632 s1 /\
    heap s1 = {[ 65536 := 8199 ]} /\
    load_ptr (mem s1) (69632 - 8) = 65536 /\
    align_free 69632 env_hello s1 = Ret tt s2 /\
    heap s2 = ∅ /\ log s2 = [EvMalloc 8199 65536; EvFree 65536].
Proof.
  eexists _, _. split; [vm_compute; reflexivity|].
  split; [vm_compute; reflexivity|]. split; [vm_compute; reflexivity|].
  split; [vm_compute; reflexivity|]. split; vm_compute; reflexivity.
Qed.

(** * Advisory calls *)

(** The page-size probe falls back to 4096 with a warning, in
    [get_system_page_size] and in [io_blocksize] of mycat2. *)
Lemma page_size_fails_soft e s :
  sysconf_ret e = -1 ->
  get_system_page_size e s = Ret 4096 (add_err MsgWarnPageSize s) /\
  Mycat2.io_blocksize e s = Ret 4096 (add_err MsgWarnPageSize s).
Proof.
  intros H. unfold get_system_page_size, Mycat2.io_blocksize, bind,
    sysconf_PAGESIZE. rewrite H. split; reflexivity.
Qed.

(** A failing [fstat] is reported and [io_blocksize] of mycat4 falls back
    to the page size. *)
Lemma fstat_fails_soft e fd s :
  fstat_ret e <> 0 ->
  exists s', Mycat4.io_blocksize fd e s = Ret (to_size (page_size_of e)) s' /\
             last (err s') = Some MsgWarnFstat.
Proof.
  intros H. apply Z.eqb_neq in H.
  unfold Mycat4.io_blocksize. unfold bind at 1.
  rewrite get_system_page_size_eq. unfold fstat. mred. rewrite H. mred.
  change (0 <? 0) with false. cbv iota. rewrite Z.ltb_irrefl.
  eexists. split; [reflexivity|]. cbn [err add_err]. apply last_snoc.
Qed.

(** When mycat6 reaches its copy loop, it has written the warning about
    the hint exactly if [posix_fadvise] returned [-1]; for every other
    return value it has written the notice that the hint was given. *)
Lemma fadvise_warning_only_for_minus_one e s :
  ready Cat6 e s ->
  (In MsgWarnFadvise (err s) <-> fadvise_ret e = -1) /\
  (In MsgFadviseDone (err s) <-> fadvise_ret e <> -1).
Proof.
  intros Hrdy. rewrite (ready_notices _ _ _ Hrdy). unfold notices.
  destruct (fadvise_ret e =? -1) eqn:Hf; eqb_prop;
    destruct (sysconf_ret e =? -1); cbn [app In]; split; split;
    intros H; try lia; try tauto;
    repeat (destruct H as [H|H]; try discriminate H); try contradiction.
Qed.

(** C7, at the input where the code breaks the claim.  mycat6 runs on an
    input for which the sequential-access hint fails: [posix_fadvise]
    returns the error number [ESPIPE].  The code compares the return value
    with [-1], so the failure goes unnoticed: no warning is logged, the
    error stream says that the hint was given.  (The copy itself is not
    affected: the run ends with [EXIT_SUCCESS] and the file on standard
    output.) *)
Theorem fadvise_failure_is_not_reported :
  exists s,
    run Cat6 env_fadvise_fails 2 = Finished EXIT_SUCCESS s /\
    fadvise_ret env_fadvise_fails <> 0 /\
    err s = [MsgFadviseDone; MsgBufferSize 2097152] /\
    ~ In MsgWarnFadvise (err s) /\
    out s = hello.
Proof.
  eexists. split; [vm_compute; reflexivity|].
  split; [discriminate|].
  split; [vm_compute; reflexivity|].
  split; [|vm_compute; reflexivity].
  vm_compute. intros [H|[H|[]]]; discriminate H.
Qed.

(** * Failure to open the input *)

(** C8 (as stated) fails for mycat2, which allocates its buffer before it
    opens the input: when the open fails a block is live, and the program
    frees it before it exits. *)
Lemma open_failure_after_malloc :
  ~ open_failure_releases_nothing Cat2 env_no_file 0.
Proof.
  intros (s & Hrun & _ & Hlog).
  vm_compute in Hrun. injection Hrun as <-.
  vm_compute in Hlog. discriminate Hlog.
Qed.

Example open_failure_mycat2 :
  exists s, run Cat2 env_no_file 0 = Finished EXIT_FAILURE s /\
            log s = [EvMalloc 4096 65536; EvOpen (-1); EvFree 65536] /\
            heap s = ∅.
Proof.
  eexists. split; [vm_compute; reflexivity|].
  split; vm_compute; reflexivity.
Qed.

(** C8 (as amended).  When opening the input path fails, every variant
    reports the cause and exits with [EXIT_FAILURE] at once, without a
    read or a write.  In mycat1, mycat4, mycat5 and mycat6 the failed
    [open] is the only call made: nothing has been acquired and nothing is
    released.  In mycat2 the buffer has been allocated before the open,
    and it is freed before the exit.  In both cases no block is left on
    the heap. *)
Theorem open_failure_exits v e fuel :
  argc e = 2 -> open_ret e = -1 ->
  (v = Cat2 -> block_of v e <> NULL) ->
  exists s,
    run v e fuel = Finished EXIT_FAILURE s /\
    last (err s) = Some MsgOpenFailed /\
    out s = [] /\ heap s = ∅ /\
    log s = match v with
            | Cat2 => [EvMalloc (request_of v e) (block_of v e);
                       EvOpen (open_ret e); EvFree (block_of v e)]
            | _ => [EvOpen (open_ret e)]
            end.
Proof.
  intros Hargc Hopen Hblk.
  destruct (main_shape v e) as [(s & Heq & (Hout & _) & Hst)|(s & _ & Hrdy)].
  - exists s. unfold run. rewrite Heq. split; [reflexivity|].
    destruct Hst as [? Hl ?|? Hv ? Hl Hh Herr|? -> ? ? Hl Hh Herr|? -> Hnull Hl ?
                     |? ? ? Hfd ? Hl ?|? ? ? Hfd ? ? Hl];
      try contradiction.
    + split; [exact Herr|]. split; [exact Hout|]. split; [exact Hh|].
      destruct v; try exact Hl. contradiction.
    + split; [exact Herr|]. split; [exact Hout|]. split; [exact Hh|].
      exact Hl.
    + exfalso. exact (Hblk eq_refl Hnull).
  - exfalso. exact (ready_fd _ _ _ Hrdy Hopen).
Qed.

Lemma open_failure_exits_witness :
  exists s,
    run Cat5 env_no_file 0 = Finished EXIT_FAILURE s /\
    last (err s) = Some MsgOpenFailed /\
    out s = [] /\ heap s = ∅ /\
    log s = [EvOpen (-1)].
Proof.
  apply (open_failure_exits Cat5 env_no_file 0); [reflexivity|reflexivity|].
  discriminate.
Defined.

(** * Page sizes that are not powers of two *)

Lemma pagesize_bounded_ok e : pagesize_bounded e -> pagesize_ok e.
Proof. intros [H|H]; [left; exact H|right; lia]. Qed.

Lemma pagesize_pow2_bounded e : pagesize_pow2 e -> pagesize_bounded e.
Proof.
  intros [H|(k & Hk & H)]; [left; exact H|right].
  rewrite H. split; [apply Z.pow_pos_nonneg; lia|].
  apply Z.pow_le_mono_r; lia.
Qed.

Lemma page_size_of_bounded e :
  pagesize_bounded e -> 1 <= page_size_of e <= 2 ^ 62.
Proof.
  unfold page_size_of. intros [H|H].
  - rewrite H. simpl. lia.
  - destruct (sysconf_ret e =? -1); lia.
Qed.

(** The rounding of [align_alloc] keeps the buffer inside the block for
    every page size, a power of two or not: the request does not wrap
    around, and a block of that size leaves room for the stash and for
    [buffer_size] bytes behind the address that is returned. *)
Lemma buffer_in_block_bounded v e :
  aligned v -> pagesize_bounded e -> long_range (st_blksize e) ->
  malloc_fits e -> block_of v e <> NULL ->
  request_of v e = count_of v e + page_size_of e - 1 + sizeof_ptr /\
  block_of v e + sizeof_ptr <= buffer_of v e /\
  buffer_of v e + count_of v e <= block_of v e + request_of v e.
Proof.
  intros Hv Hps Hblk Hfit Hp.
  pose proof (page_size_of_bounded e Hps) as Hr.
  pose proof (count_positive v e (pagesize_bounded_ok e Hps)) as Hc1.
  pose proof (count_below v e (pagesize_bounded_ok e Hps) Hblk) as Hc2.
  assert (Hts : to_size (page_size_of e) = page_size_of e).
  { apply to_size_small. rewrite SIZE_MODULUS_eq. lia. }
  assert (Hreq : request_of v e =
                 count_of v e + page_size_of e - 1 + sizeof_ptr).
  { destruct v; try contradiction; unfold request_of; rewrite Hts;
      apply to_size_small; rewrite SIZE_MODULUS_eq; unfold sizeof_ptr; lia. }
  split; [exact Hreq|].
  pose proof (to_size_range (malloc_ret e (request_of v e))) as Hpr.
  fold (block_of v e) in Hpr.
  destruct (Hfit (request_of v e)) as [Hnull|Hin];
    fold (block_of v e) in Hnull || fold (block_of v e) in Hin;
    [contradiction|].
  assert (Hbuf : buffer_of v e =
                 aligned_addr (block_of v e) (page_size_of e)).
  { destruct v; try contradiction; unfold buffer_of; rewrite Hts;
      reflexivity. }
  rewrite Hbuf.
  pose proof (aligned_addr_bounds (block_of v e) (page_size_of e)) as Hb.
  unfold sizeof_ptr in *. lia.
Qed.

Lemma buffer_nonnull_bounded v e :
  aligned v -> pagesize_bounded e -> long_range (st_blksize e) ->
  malloc_fits e -> block_of v e <> NULL -> buffer_of v e <> NULL.
Proof.
  intros Hv Hps Hblk Hfit Hp.
  destruct (buffer_in_block_bounded v e Hv Hps Hblk Hfit Hp) as (_ & H & _).
  pose proof (to_size_range (malloc_ret e (request_of v e))) as Hpr.
  fold (block_of v e) in Hpr. unfold NULL, sizeof_ptr in *. lia.
Qed.

(** * Runs that cannot fail *)

(** No run frees a pointer that is not the start of a live block. *)
Lemma never_crashes v e fuel s : run v e fuel <> Crashed s.
Proof.
  destruct (run_cases v e fuel (fun _ => True)) as
    [(s' & Hstop & _)|(s_in & s0 & res & _ & _ & _ & Hfo & Hres)];
    [auto|auto| |].
  - rewrite Hstop. discriminate.
  - rewrite Hres. destruct Hfo; discriminate.
Qed.

Lemma read_ok_progress e :
  read_ok e ->
  (forall i off count, 0 <= count -> read_ret e i off count <> -1) ->
  read_progress e.
Proof.
  intros Hok Hne i off count Hc.
  destruct (Hok i off count Hc) as [H|(H1 & H2 & H3)];
    [exfalso; exact (Hne i off count Hc H)|].
  cbv zeta. split; [exact H1|]. split.
  - intros Hoff. lia.
  - intros Hr. rewrite length_take, length_drop. lia.
Qed.

(** When no call fails, one iteration more than the file has bytes is
    enough for every variant to copy the whole file and to end with
    [EXIT_SUCCESS]. *)
Lemma copy_total v e fuel :
  argc e = 2 -> open_ret e <> -1 -> close_ret e <> -1 ->
  pagesize_bounded e -> long_range (st_blksize e) -> malloc_fits e ->
  (v <> Cat1 -> block_of v e <> NULL) ->
  read_ok e ->
  (forall i off count, 0 <= count -> read_ret e i off count <> -1) ->
  (forall i count, write_ret e i count = count) ->
  (length (file e) < fuel)%nat ->
  exists s, run v e fuel = Finished EXIT_SUCCESS s /\ out s = file e.
Proof.
  intros Hargc Hopen Hclose Hps Hblk Hfit Halloc Hrd Hne Hwr Hfuel.
  pose proof (read_ok_progress e Hrd Hne) as Hprog.
  destruct (run_cases v e fuel (fun s => copied e s /\ progressing e s)) as
    [(s' & _ & _ & Hst)
    |(s_in & s0 & res & Hrdy & Hag & [Hcp [Hn Hl]] & Hfo & Hres)].
  - intros s_in Hrdy. unfold copied, progressing.
    rewrite (ready_out _ _ _ Hrdy), (ready_pos _ _ _ Hrdy),
      (ready_nreads _ _ _ Hrdy).
    split; [reflexivity|lia].
  - intros s_in s0 r s1 w s2 _ _ [Hcp Hpr] Hr Hpos Hw Hweq. split.
    + exact (copied_iter v e Hrd _ _ s0 r s1 w s2 Hcp Hr Hpos Hw Hweq).
    + exact (progressing_iter e _ _ _ (wlen_of v) s0 r s1 w s2 Hprog
               (count_nonneg v e) Hpr Hr Hpos Hw).
  - (* the program cannot stop before the loop *)
    exfalso.
    destruct Hst as [Ha ? ?|? ? Ho ? ? ?|? ? Ho ? ? ? ?|? Hv Hnull ? ?
                     |? Hv1 Hv2 ? Hnull ? ?|? Hv1 Hv2 ? Hp Hbuf ?];
      try contradiction.
    + apply (Halloc ltac:(rewrite Hv; discriminate) Hnull).
    + exact (Halloc Hv1 Hnull).
    + assert (Hal : aligned v) by (destruct v; simpl; try exact I; contradiction).
      exact (buffer_nonnull_bounded v e Hal Hps Hblk Hfit Hp Hbuf).
  - destruct Hfo as [|r s1 w s2 Hr Hpos Hw Hnew|r s1 Hr Hm1
                     |r s1 Hr Hle Hnr Hc|r s1 Hr Hle Hnr Hc];
      cbn [to_outcome] in Hres.
    + exfalso.
      destruct (run_unfinished v e fuel s0 Hres) as (_ & _ & _ & Hcount & _).
      lia.
    + exfalso. apply Hnew. unfold do_write in Hw. injection Hw as <- _.
      apply Hwr.
    + exfalso. unfold do_read in Hr. injection Hr as Hr _.
      rewrite Hm1 in Hr. exact (Hne _ _ _ (count_nonneg v e) Hr).
    + contradiction.
    + eexists. split; [exact Hres|].
      rewrite released_out. cbn [out add_log].
      unfold do_read in Hr. injection Hr as Hr Hs1. rewrite <- Hs1.
      cbn [out]. rewrite Hcp. apply take_ge.
      destruct (Hrd (nreads s0) (pos s0) (count_of v e) (count_nonneg v e))
        as [H|(H1 & H2 & H3)];
        [exfalso; exact (Hne _ _ _ (count_nonneg v e) H)|].
      pose proof (count_positive v e (pagesize_bounded_ok e Hps)).
      destruct H3 as [H3|H3]; lia.
Qed.

(** X12. When no call fails -- the program is given one file name, [open],
    [malloc] and [close] succeed, [read] behaves as POSIX says and never
    returns [-1], and every [write] takes all it is given --, and the
    system keeps its contracts -- [sysconf] fails or reports a positive
    page size of at most [2^62] bytes (a power of two or not),
    [st_blksize] is a [long], heap blocks lie inside the address
    space --, every variant ends with [EXIT_SUCCESS]
    and the whole file on standard output, and one iteration more than the
    file has bytes is always enough for that.  A failing [sysconf], a
    failing [fstat] and any answer of [posix_fadvise] do not prevent
    it. *)
Lemma copy_succeeds v e fuel :
  argc e = 2 -> open_ret e <> -1 -> close_ret e <> -1 ->
  pagesize_bounded e -> long_range (st_blksize e) -> malloc_fits e ->
  (v <> Cat1 -> block_of v e <> NULL) ->
  read_ok e ->
  (forall i off count, 0 <= count -> read_ret e i off count <> -1) ->
  (forall i count, write_ret e i count = count) ->
  (length (file e) < fuel)%nat ->
  exists s, run v e fuel = Finished EXIT_SUCCESS s /\ out s = file e.
Proof.
  intros Hargc Hopen Hclose Hps Hblk Hfit Halloc Hrd Hne Hwr Hfuel.
  destruct (copy_total v e fuel Hargc Hopen Hclose Hps Hblk Hfit Halloc Hrd
              Hne Hwr Hfuel) as (s & Hrun & Hout).
  exists s. split; [exact Hrun|exact Hout].
Qed.

(** The scenario of the specification: the 14 bytes "Hello, World!\n" are
    copied by every variant, with exit status 0. *)
Example hello_world :
  Forall (fun v => exists s, run v env_hello 15 = Finished EXIT_SUCCESS s /\
                             out s = hello)
    [Cat1; Cat2; Cat4; Cat5; Cat6].
Proof.
  repeat constructor;
    (eexists; split; [vm_compute; reflexivity|vm_compute; reflexivity]).
Qed.

(** * The answers of the advisory calls do not change the run *)

Lemma same_but_err_refl s : same_but_err s s.
Proof. repeat split. Qed.

Lemma same_but_err_add_err m m' s s' :
  same_but_err s s' -> same_but_err (add_err m s) (add_err m' s').
Proof. intros H. exact H. Qed.

Lemma same_but_err_add_log ev s s' :
  same_but_err s s' -> same_but_err (add_log ev s) (add_log ev s').
Proof.
  intros (Hm & Hh & Hp & Hr & Hw & Ho & Hl).
  repeat split; cbn [mem heap pos nreads nwrites out log add_log];
    congruence.
Qed.

Lemma same_but_err_released blk s s' :
  same_but_err s s' -> same_but_err (released blk s) (released blk s').
Proof.
  intros (Hm & Hh & Hp & Hr & Hw & Ho & Hl). destruct blk; [|repeat split; assumption].
  repeat split;
    cbn [released mem heap pos nreads nwrites out log add_log set_heap];
    congruence.
Qed.

Section TwoRuns.
Context (e e' : env) (fd buf count : Z) (wlen : Z -> Z).
Context (release release' : M unit) (blk : option Z) (s_in s_in' : state).

Hypothesis same_file : file e = file e'.
Hypothesis same_read :
  forall i off c, read_ret e i off c = read_ret e' i off c.
Hypothesis same_write : forall i c, write_ret e i c = write_ret e' i c.
Hypothesis same_close : close_ret e = close_ret e'.
Hypothesis release_spec :
  forall s, agree buf s_in s -> release e s = Ret tt (released blk s).
Hypothesis release_spec' :
  forall s, agree buf s_in' s -> release' e' s = Ret tt (released blk s).

Lemma do_read_same s s' :
  same_but_err s s' ->
  (do_read e fd buf count s).1 = (do_read e' fd buf count s').1 /\
  same_but_err (do_read e fd buf count s).2 (do_read e' fd buf count s').2.
Proof.
  intros (Hm & Hh & Hp & Hr & Hw & Ho & Hl). unfold do_read.
  cbn [fst snd]. rewrite <- Hm, <- Hh, <- Hp, <- Hr, <- Hw, <- Ho, <- Hl,
    <- same_file, <- same_read.
  split; [reflexivity|]. repeat split.
Qed.

Lemma do_write_same n s s' :
  same_but_err s s' ->
  (do_write e STDOUT_FILENO buf n s).1 = (do_write e' STDOUT_FILENO buf n s').1 /\
  same_but_err (do_write e STDOUT_FILENO buf n s).2
               (do_write e' STDOUT_FILENO buf n s').2.
Proof.
  intros (Hm & Hh & Hp & Hr & Hw & Ho & Hl). unfold do_write.
  cbn [fst snd]. rewrite <- Hm, <- Hh, <- Hp, <- Hr, <- Hw, <- Ho, <- Hl,
    <- same_write.
  split; [reflexivity|]. repeat split.
Qed.

Lemma finish_same fuel s s' :
  agree buf s_in s -> agree buf s_in' s' -> same_but_err s s' ->
  same_result (finish fuel fd buf count wlen release e s)
              (finish fuel fd buf count wlen release' e' s').
Proof.
  revert s s'. induction fuel as [|fuel IH]; intros s s' Hag Hag' Hsame.
  - exact Hsame.
  - destruct (do_read_same s s' Hsame) as [Hr Hs1].
    pose proof (agree_do_read e fd buf count s_in s Hag) as Hag1.
    pose proof (agree_do_read e' fd buf count s_in' s' Hag') as Hag1'.
    unfold finish. simpl copy_loop. mred. unfold read.
    destruct (do_read e fd buf count s) as [r s1].
    destruct (do_read e' fd buf count s') as [r' s1'].
    cbn [fst snd] in Hr, Hs1, Hag1, Hag1'. subst r'.
    destruct (0 <? r).
    + destruct (do_write_same (wlen r) s1 s1' Hs1) as [Hw Hs2].
      pose proof (agree_do_write e STDOUT_FILENO buf (wlen r) buf s_in s1 Hag1)
        as Hag2.
      pose proof (agree_do_write e' STDOUT_FILENO buf (wlen r) buf s_in' s1'
                    Hag1') as Hag2'.
      unfold write.
      destruct (do_write e STDOUT_FILENO buf (wlen r) s1) as [w s2].
      destruct (do_write e' STDOUT_FILENO buf (wlen r) s1') as [w' s2'].
      cbn [fst snd] in Hw, Hs2, Hag2, Hag2'. subst w'.
      destruct (w =? wlen r); mred.
      * exact (IH s2 s2' Hag2 Hag2' Hs2).
      * rewrite release_spec by exact Hag2.
        rewrite release_spec' by exact Hag2'.
        rewrite <- same_close. split; [reflexivity|].
        apply same_but_err_released, same_but_err_add_log. exact Hs2.
    + destruct (r =? -1); mred.
      * rewrite release_spec by exact Hag1.
        rewrite release_spec' by exact Hag1'.
        rewrite <- same_close. split; [reflexivity|].
        apply same_but_err_released, same_but_err_add_log. exact Hs1.
      * rewrite <- same_close. destruct (close_ret e =? -1); mred;
          (rewrite release_spec by exact Hag1);
          (rewrite release_spec' by exact Hag1');
          (split; [reflexivity|]);
          apply same_but_err_released; apply same_but_err_add_log; exact Hs1.
Qed.
End TwoRuns.

Lemma setup_same v e e' :
  same_but_advice v e e' ->
  request_of v e = request_of v e' /\
  block_of v e = block_of v e' /\
  buffer_of v e = buffer_of v e' /\
  blk_of v e = blk_of v e' /\
  acquire_log v e = acquire_log v e'.
Proof.
  intros (_ & Hstack & Hmalloc & Hopen & _ & _ & _ & _ & Hps & Hcount).
  assert (Hreq : request_of v e = request_of v e')
    by (unfold request_of; rewrite Hps, Hcount; reflexivity).
  assert (Hblock : block_of v e = block_of v e')
    by (unfold block_of; rewrite Hreq, Hmalloc; reflexivity).
  assert (Hbuf : buffer_of v e = buffer_of v e')
    by (unfold buffer_of; rewrite Hps, Hblock, Hstack; reflexivity).
  repeat split; try assumption.
  - unfold blk_of. rewrite Hblock. reflexivity.
  - unfold acquire_log. rewrite Hreq, Hblock, Hopen. reflexivity.
Qed.

Lemma ready_same v e e' s s' :
  same_but_advice v e e' -> ready v e s -> ready v e' s' ->
  same_but_err s s'.
Proof.
  intros Hsame Hr Hr'.
  destruct (setup_same v e e' Hsame) as (Hreq & Hblock & Hbuf & Hblk & Hacq).
  unfold same_but_err.
  rewrite (ready_mem _ _ _ Hr), (ready_mem _ _ _ Hr'),
    (ready_heap _ _ _ Hr), (ready_heap _ _ _ Hr'),
    (ready_pos _ _ _ Hr), (ready_pos _ _ _ Hr'),
    (ready_nreads _ _ _ Hr), (ready_nreads _ _ _ Hr'),
    (ready_nwrites _ _ _ Hr), (ready_nwrites _ _ _ Hr'),
    (ready_out _ _ _ Hr), (ready_out _ _ _ Hr'),
    (ready_log _ _ _ Hr), (ready_log _ _ _ Hr'),
    Hreq, Hblock, Hbuf, Hblk, Hacq.
  repeat split.
Qed.

Lemma stopped_not_ready v e e' s s' :
  same_but_advice v e e' -> stopped v e s -> ready v e' s' -> False.
Proof.
  intros Hsame Hst Hr.
  destruct (setup_same v e e' Hsame) as (_ & Hblock & Hbuf & _ & _).
  destruct Hsame as (Hargc & _ & _ & Hopen & _).
  pose proof (ready_argc _ _ _ Hr) as Ha.
  pose proof (ready_fd _ _ _ Hr) as Hfd.
  pose proof (ready_buf _ _ _ Hr) as Hb.
  destruct Hst as [? ? ?|? ? ? ? ? ?|? ? ? ? ? ? ?|? Hv Hnull ? ?
                   |? Hv1 ? ? Hnull ? ?|? Hv1 ? ? ? Hnull ?];
    try congruence.
  - destruct Hb as [_ Hb]; [rewrite Hv; discriminate|]. congruence.
  - destruct (Hb Hv1) as [_ Hb']. congruence.
  - destruct (Hb Hv1) as [Hb' _]. congruence.
Qed.

Lemma stopped_same v e e' s s' :
  same_but_advice v e e' -> stopped v e s -> stopped v e' s' ->
  log s = log s'.
Proof.
  intros Hsame Hst Hst'.
  destruct (setup_same v e e' Hsame) as (Hreq & Hblock & Hbuf & _ & _).
  destruct Hsame as (Hargc & _ & _ & Hopen & _ & _ & _ & Hclose & _).
  destruct Hst as [? Hl ?|? ? ? Hl ? ?|? ? ? ? Hl ? ?|? ? ? Hl ?
                   |? ? ? ? ? Hl ?|? ? ? ? ? ? Hl];
    destruct Hst' as [? Hl' ?|? ? ? Hl' ? ?|? ? ? ? Hl' ? ?|? ? ? Hl' ?
                      |? ? ? ? ? Hl' ?|? ? ? ? ? ? Hl'];
    try congruence.
Qed.

(** The run of a variant depends on the answers of [sysconf], [fstat] and
    [posix_fadvise] only through the page size and the buffer size: two
    environments that agree on these and on all other calls give the same
    calls with the same results, the same standard output and the same
    exit status; only the diagnostics differ. *)
Theorem advice_changes_diagnostics_only v e e' fuel :
  same_but_advice v e e' ->
  same_behaviour (run v e fuel) (run v e' fuel).
Proof.
  intros Hsame.
  destruct (main_shape v e) as [(s & Heq & (Hout & _) & Hst)|(s & Heq & Hr)];
    destruct (main_shape v e')
      as [(s' & Heq' & (Hout' & _) & Hst')|(s' & Heq' & Hr')];
    unfold run; rewrite Heq, Heq'.
  - cbn [to_outcome same_behaviour]. split; [reflexivity|].
    split; [congruence|]. exact (stopped_same v e e' s s' Hsame Hst Hst').
  - exfalso. exact (stopped_not_ready v e e' s s' Hsame Hst Hr').
  - exfalso.
    assert (Hsym : same_but_advice v e' e).
    { destruct Hsame as (H1 & H2 & H3 & H4 & H5 & H6 & H7 & H8 & H9 & H10).
      repeat split; auto. }
    exact (stopped_not_ready v e' e s' s Hsym Hst' Hr).
  - destruct (setup_same v e e' Hsame) as (_ & _ & Hbuf & Hblk & _).
    pose proof (ready_same v e e' s s' Hsame Hr Hr') as Hs.
    destruct Hsame as (_ & _ & _ & Hopen & Hfile & Hread & Hwrite & Hclose
                       & _ & Hcount).
    pose proof (ready_release _ _ _ Hr) as Hrel.
    pose proof (ready_release _ _ _ Hr') as Hrel'.
    rewrite <- Hbuf, <- Hblk in Hrel'.
    rewrite <- Hopen, <- Hbuf, <- Hcount.
    pose proof (finish_same e e' (open_ret e) (buffer_of v e) (count_of v e)
                  (wlen_of v) (release_of v (buffer_of v e))
                  (release_of v (buffer_of v e)) (blk_of v e) s s'
                  Hfile Hread Hwrite Hclose Hrel Hrel' fuel s s'
                  (agree_refl _ _) (agree_refl _ _) Hs) as Hfin.
    destruct (finish fuel _ _ _ _ _ e s) as [c1 t1|c1 t1|t1|t1];
      destruct (finish fuel _ _ _ _ _ e' s') as [c2 t2|c2 t2|t2|t2];
      cbn [same_result] in Hfin; try contradiction;
      cbn [to_outcome same_behaviour].
    + destruct Hfin as (Hc & _ & _ & _ & _ & _ & Ho & Hl). auto.
    + destruct Hfin as (Hc & _ & _ & _ & _ & _ & Ho & Hl). auto.
    + destruct Hfin as (_ & _ & _ & _ & _ & Ho & Hl). auto.
    + destruct Hfin as (_ & _ & _ & _ & _ & Ho & Hl). auto.
Qed.

(** X16. A failing page-size query behaves like a page size of 4096: in
    every variant the run makes the same calls with the same results,
    writes the same output and ends with the same exit status as on a
    system that reports 4096. *)
Lemma page_size_failure_is_soft v e fuel :
  sysconf_ret e = -1 ->
  same_behaviour
    (run v e fuel)
    (run v (with_advice 4096 (fstat_ret e) (st_blksize e) (fadvise_ret e) e)
       fuel).
Proof.
  intros Hs. apply advice_changes_diagnostics_only.
  unfold same_but_advice. repeat split; try reflexivity.
  - unfold page_size_of, with_advice. cbn. rewrite Hs. reflexivity.
  - destruct v; unfold count_of, page_size_of, with_advice; cbn;
      rewrite ?Hs; reflexivity.
Qed.

(** X17. A failing [fstat] behaves like a filesystem that reports no block
    size: the run makes the same calls with the same results, writes the
    same output and ends with the same exit status. *)
Lemma fstat_failure_is_soft v e fuel :
  fstat_ret e <> 0 ->
  same_behaviour
    (run v e fuel)
    (run v (with_advice (sysconf_ret e) 0 0 (fadvise_ret e) e) fuel).
Proof.
  intros Hf. apply Z.eqb_neq in Hf. apply advice_changes_diagnostics_only.
  unfold same_but_advice. repeat split; try reflexivity.
  destruct v; unfold count_of, page_size_of, with_advice; cbn;
    rewrite ?Hf; reflexivity.
Qed.

(** X18. The return value of [posix_fadvise] is of no consequence for the
    copy: whatever it is, the run makes the same calls with the same
    results, writes the same output and ends with the same exit status. *)
Lemma fadvise_result_is_ignored v e fuel r :
  same_behaviour
    (run v e fuel)
    (run v (with_advice (sysconf_ret e) (fstat_ret e) (st_blksize e) r e)
       fuel).
Proof.
  apply advice_changes_diagnostics_only.
  unfold same_but_advice. repeat split; reflexivity.
Qed.

(** * Runs that end before the copy loop *)

(** Ends a branch of [main] that has called [exit] after the diagnostic
    [m]. *)
Ltac early_stop m :=
  split_env; run_prog; try run_free;
  let H := fresh "H" in
  intros H; injection H as <- <-; (split; [reflexivity|]);
  cbn [err add_err add_log set_heap set_mem initial];
  eexists _, m; (split; [reflexivity|]);
  (split; [cbn [app]; repeat constructor|exact I]).

(** Ends a branch of [main] that has reached the loop. *)
Ltac early_loop :=
  split_env; run_prog; let H := fresh "H" in intros H; discriminate H.

(** A program that ends before its copy loop ends with [EXIT_FAILURE],
    after notices and one of the diagnostics of that part of [main]. *)
Lemma early_exit_reported v e c s :
  main_of v 0 e initial = Exit c s ->
  c = EXIT_FAILURE /\
  exists l0 m, err s = l0 ++ [m] /\ Forall notice l0 /\ early_failure m.
Proof.
  destruct v.
  - unfold main_of, Mycat1.main. unfold_calls. cbn [copy_loop].
    destruct (argc e =? 2) eqn:Hargc; [|early_stop MsgUsage].
    destruct (open_ret e =? -1) eqn:Hopen; [early_stop MsgOpenFailed|].
    early_loop.
  - unfold main_of, Mycat2.main, Mycat2.io_blocksize. unfold_calls.
    cbn [copy_loop].
    destruct (argc e =? 2) eqn:Hargc; [|early_stop MsgUsage].
    destruct (block_of Cat2 e =? NULL) eqn:Hblk; [early_stop MsgAllocFailed|].
    destruct (open_ret e =? -1) eqn:Hopen; [early_stop MsgOpenFailed|].
    early_loop.
  - unfold main_of, Mycat4.main, Mycat4.io_blocksize, align_alloc,
      get_system_page_size.
    unfold_calls. cbn [copy_loop].
    destruct (argc e =? 2) eqn:Hargc; [|early_stop MsgUsage].
    destruct (open_ret e =? -1) eqn:Hopen; [early_stop MsgOpenFailed|].
    destruct (block_of Cat4 e =? NULL) eqn:Hblk; [early_stop MsgAllocFailed|].
    destruct (buffer_of Cat4 e =? NULL) eqn:Hbuf;
      [early_stop MsgAllocFailed|].
    early_loop.
  - unfold main_of, Mycat5.main, Mycat5.io_blocksize, align_alloc,
      get_system_page_size.
    unfold_calls. cbn [copy_loop].
    destruct (argc e =? 2) eqn:Hargc; [|early_stop MsgUsage].
    destruct (open_ret e =? -1) eqn:Hopen; [early_stop MsgOpenFailed|].
    destruct (block_of Cat5 e =? NULL) eqn:Hblk; [early_stop MsgAllocFailed|].
    destruct (buffer_of Cat5 e =? NULL) eqn:Hbuf;
      [early_stop MsgAllocFailed|].
    early_loop.
  - unfold main_of, Mycat6.main, Mycat6.io_blocksize, align_alloc,
      get_system_page_size.
    unfold_calls. cbn [copy_loop].
    destruct (argc e =? 2) eqn:Hargc; [|early_stop MsgUsage].
    destruct (open_ret e =? -1) eqn:Hopen; [early_stop MsgOpenFailed|].
    destruct (block_of Cat6 e =? NULL) eqn:Hblk; [early_stop MsgAllocFailed|].
    destruct (buffer_of Cat6 e =? NULL) eqn:Hbuf;
      [early_stop MsgAllocFailed|].
    early_loop.
Qed.

(** Every run, by cases, with what a run that stops before the loop has
    reported. *)
Lemma run_cases_reported v e fuel (Inv : state -> Prop) :
  (forall s_in, ready v e s_in -> Inv s_in) ->
  (forall s_in s r s1 w s2,
     ready v e s_in -> agree (buffer_of v e) s_in s -> Inv s ->
     do_read e (open_ret e) (buffer_of v e) (count_of v e) s = (r, s1) ->
     0 < r ->
     do_write e STDOUT_FILENO (buffer_of v e) (wlen_of v r) s1 = (w, s2) ->
     w = wlen_of v r -> Inv s2) ->
  (exists s, run v e fuel = Finished EXIT_FAILURE s /\
             (out s = [] /\ nreads s = 0%nat) /\ stopped v e s /\
             exists l0 m, err s = l0 ++ [m] /\ Forall notice l0 /\
                          early_failure m) \/
  (exists s_in s0 res,
     ready v e s_in /\ agree (buffer_of v e) s_in s0 /\ Inv s0 /\
     finish_outcome e (open_ret e) (buffer_of v e) (count_of v e) (wlen_of v)
       (blk_of v e) s0 res /\
     run v e fuel = to_outcome res).
Proof.
  intros Hinit Hiter.
  destruct (main_shape v e) as [(s & Heq & Hout & Hst)|(s_in & Heq & Hrdy)].
  - left. exists s. unfold run. rewrite Heq.
    split; [reflexivity|]. split; [exact Hout|]. split; [exact Hst|].
    exact (proj2 (early_exit_reported v e _ s (Heq 0%nat))).
  - right.
    destruct (finish_cases e (open_ret e) (buffer_of v e) (count_of v e)
                (wlen_of v) (release_of v (buffer_of v e)) (blk_of v e) s_in
                (ready_release v e s_in Hrdy) Inv
                (fun s Hag HI r s1 w s2 =>
                   Hiter s_in s r s1 w s2 Hrdy Hag HI)
                fuel s_in (agree_refl _ _) (Hinit s_in Hrdy))
      as (s0 & Hag & HI & Hfo).
    exists s_in, s0, (main_of v fuel e initial).
    unfold run. rewrite Heq. repeat (split; [assumption|]). reflexivity.
Qed.

(** X1. Started with a number of command-line words other than two, every
    variant writes the usage line and exits with [EXIT_FAILURE] at once:
    the process state is the initial one but for that line, so nothing was
    queried, allocated, opened, read or written. *)
Theorem usage_error_makes_no_call v e fuel :
  argc e <> 2 ->
  run v e fuel = Finished EXIT_FAILURE (add_err MsgUsage initial).
Proof.
  intros Hargc. apply Z.eqb_neq in Hargc.
  destruct v;
    unfold run, main_of, Mycat1.main, Mycat2.main, Mycat4.main, Mycat5.main,
      Mycat6.main, get_argc;
    mred; rewrite Hargc; mred; reflexivity.
Qed.

Lemma usage_error_makes_no_call_witness :
  run Cat4 env_no_argument 0 = Finished EXIT_FAILURE (add_err MsgUsage initial).
Proof.
  apply (usage_error_makes_no_call Cat4 env_no_argument 0). discriminate.
Defined.

(** X2. When [malloc] returns [NULL], the variants that allocate their
    buffer report the failed allocation and exit with [EXIT_FAILURE]
    without reading anything.  mycat2 allocates before it opens the input,
    so the failed [malloc] is its only call; mycat4, mycat5 and mycat6
    have opened the input by then and close it before they exit. *)
Theorem alloc_failure_exits v e fuel :
  argc e = 2 -> v <> Cat1 -> (v <> Cat2 -> open_ret e <> -1) ->
  block_of v e = NULL ->
  exists s,
    run v e fuel = Finished EXIT_FAILURE s /\
    last (err s) = Some MsgAllocFailed /\
    out s = [] /\ heap s = ∅ /\
    log s = match v with
            | Cat2 => [EvMalloc (request_of v e) NULL]
            | _ => [EvOpen (open_ret e); EvMalloc (request_of v e) NULL;
                    EvClose (open_ret e) (close_ret e)]
            end.
Proof.
  intros Hargc Hv Hopen Hblk.
  apply Z.eqb_eq in Hargc, Hblk.
  assert (Hopen' : v <> Cat2 -> (open_ret e =? -1) = false)
    by (intros H; apply Z.eqb_neq, Hopen, H).
  destruct v; [contradiction| |specialize (Hopen' ltac:(discriminate))..];
    unfold run, main_of, Mycat2.main, Mycat2.io_blocksize, Mycat4.main,
      Mycat4.io_blocksize, Mycat5.main, Mycat5.io_blocksize, Mycat6.main,
      Mycat6.io_blocksize, align_alloc, get_system_page_size;
    unfold_calls; split_env;
    (eexists; split; [run_prog; reflexivity|]);
    cbn [err out heap log add_err add_log set_heap set_mem initial app last];
    repeat split; reflexivity.
Qed.

Lemma alloc_failure_exits_witness :
  exists s,
    run Cat5 env_no_memory 0 = Finished EXIT_FAILURE s /\
    last (err s) = Some MsgAllocFailed /\
    out s = [] /\ heap s = ∅ /\
    log s = [EvOpen (open_ret env_no_memory);
             EvMalloc (request_of Cat5 env_no_memory) NULL;
             EvClose (open_ret env_no_memory) (close_ret env_no_memory)].
Proof.
  apply (alloc_failure_exits Cat5 env_no_memory 0).
  - reflexivity.
  - discriminate.
  - discriminate.
  - vm_compute. reflexivity.
Defined.

(** * Exit status and diagnostics *)

Lemma early_failure_fatal m : early_failure m -> fatal m.
Proof. destruct m; simpl; tauto. Qed.

Lemma fatal_not_notice m : fatal m -> ~ notice m.
Proof. destruct m; simpl; tauto. Qed.

Lemma last_notice l m : Forall notice l -> last l = Some m -> notice m.
Proof.
  intros Hl Hm.
  destruct l as [|x l] using rev_ind; [discriminate Hm|].
  rewrite last_snoc in Hm. injection Hm as ->.
  apply Forall_app in Hl. destruct Hl as [_ Hl].
  inversion Hl; assumption.
Qed.

(** The calls of the loop write no diagnostic. *)
Lemma do_read_err e fd buf count s r s1 :
  do_read e fd buf count s = (r, s1) -> err s1 = err s.
Proof. unfold do_read. intros H. injection H as _ <-. reflexivity. Qed.

Lemma do_write_err e fd buf count s w s2 :
  do_write e fd buf count s = (w, s2) -> err s2 = err s.
Proof. unfold do_write. intros H. injection H as _ <-. reflexivity. Qed.

Lemma notices_iter v e fd buf count n s r s1 w s2 :
  err s = notices v e ->
  do_read e fd buf count s = (r, s1) ->
  do_write e STDOUT_FILENO buf n s1 = (w, s2) ->
  err s2 = notices v e.
Proof.
  intros He Hr Hw.
  rewrite (do_write_err _ _ _ _ _ _ _ Hw), (do_read_err _ _ _ _ _ _ _ Hr).
  exact He.
Qed.

Lemma notices_notice v e s :
  ready v e s -> Forall notice (notices v e).
Proof.
  intros Hrdy. rewrite <- (ready_notices _ _ _ Hrdy).
  exact (ready_err _ _ _ Hrdy).
Qed.

(** X3. The exit status tells whether an error was reported.  A run that
    ends with [EXIT_SUCCESS] has written to the error stream the notices
    of its variant and nothing else; every other run ends with
    [EXIT_FAILURE] and has written exactly one fatal diagnostic, as the
    last line of the error stream.  No variant fails silently and none
    reports an error and then exits with success. *)
Theorem failure_is_reported v e fuel code s :
  run v e fuel = Finished code s ->
  (code = EXIT_SUCCESS /\ err s = notices v e /\ Forall notice (err s)) \/
  (code = EXIT_FAILURE /\ reports_failure (err s)).
Proof.
  intros Hrun.
  destruct (run_cases_reported v e fuel (fun s => err s = notices v e)) as
    [(s' & Hstop & _ & _ & l0 & m & Herr & Hl0 & Hm)
    |(s_in & s0 & res & Hrdy & _ & Hinv & Hfo & Hres)].
  - intros s_in Hrdy. exact (ready_notices _ _ _ Hrdy).
  - intros s_in s0 r s1 w s2 _ _ Hinv Hr _ Hw _.
    exact (notices_iter v e _ _ _ _ s0 r s1 w s2 Hinv Hr Hw).
  - rewrite Hstop in Hrun. injection Hrun as <- <-. right.
    split; [reflexivity|]. exists l0, m.
    auto using early_failure_fatal.
  - pose proof (notices_notice v e s_in Hrdy) as Hn.
    rewrite Hres in Hrun.
    destruct Hfo as [|r s1 w s2 Hr Hpos Hw Hnew|r s1 Hr Hm1
                     |r s1 Hr Hle Hnr Hc|r s1 Hr Hle Hnr Hc];
      cbn [to_outcome] in Hrun; [discriminate Hrun|..];
      injection Hrun as <- <-; rewrite released_err;
      cbn [err add_err add_log].
    + right. split; [reflexivity|]. exists (notices v e), MsgWriteFailed.
      rewrite (do_write_err _ _ _ _ _ _ _ Hw), (do_read_err _ _ _ _ _ _ _ Hr),
        Hinv.
      repeat split. exact Hn.
    + right. split; [reflexivity|]. exists (notices v e), MsgReadFailed.
      rewrite (do_read_err _ _ _ _ _ _ _ Hr), Hinv. repeat split. exact Hn.
    + right. split; [reflexivity|]. exists (notices v e), MsgCloseFailed.
      rewrite (do_read_err _ _ _ _ _ _ _ Hr), Hinv. repeat split. exact Hn.
    + left. rewrite (do_read_err _ _ _ _ _ _ _ Hr), Hinv. auto.
Qed.

Lemma failure_is_reported_witness :
  let s := final (run Cat4 env_close_error 2) in
  (EXIT_FAILURE = EXIT_SUCCESS /\ err s = notices Cat4 env_close_error /\
   Forall notice (err s)) \/
  (EXIT_FAILURE = EXIT_FAILURE /\ reports_failure (err s)).
Proof.
  intros s.
  apply (failure_is_reported Cat4 env_close_error 2 EXIT_FAILURE s).
  vm_compute. reflexivity.
Defined.

(** ** A failing read *)

Lemma positive_read_iter e fd buf count n s r s1 w s2 :
  Forall positive_read (log s) ->
  do_read e fd buf count s = (r, s1) -> 0 < r ->
  do_write e STDOUT_FILENO buf n s1 = (w, s2) ->
  Forall positive_read (log s2).
Proof.
  unfold do_read, do_write. intros Hl Hr Hpos Hw.
  injection Hr as Hr1 <-. injection Hw as _ <-. cbn [log].
  rewrite <- app_assoc. apply Forall_app. split; [exact Hl|].
  repeat constructor. cbn [positive_read]. rewrite Hr1. exact Hpos.
Qed.

Lemma positive_read_acquire v e : Forall positive_read (acquire_log v e).
Proof. destruct v; repeat constructor. Qed.

Lemma no_failed_read l fd buf count data :
  Forall positive_read l -> ~ In (EvRead fd buf count (-1) data) l.
Proof.
  intros Hl Hin. rewrite Forall_forall in Hl.
  specialize (Hl _ (proj2 (list_elem_of_In _ _) Hin)).
  cbn [positive_read] in Hl. lia.
Qed.

Lemma stopped_no_read v e s fd buf count r data :
  stopped v e s -> ~ In (EvRead fd buf count r data) (log s).
Proof.
  intros Hst Hin.
  destruct Hst as [? Hl ?|? ? ? Hl ? ?|? ? ? ? Hl ? ?|? ? ? Hl ?
                   |? ? ? ? ? Hl ?|? ? ? ? ? ? Hl];
    rewrite Hl in Hin; cbn [In] in Hin;
    repeat (destruct Hin as [Hin|Hin]; [discriminate Hin|]);
    exact Hin.
Qed.

(** X4. A read that returns [-1] is the last call of the copy loop: the
    program reports the failed read, closes the input, releases its
    buffer and exits with [EXIT_FAILURE]; it neither writes nor reads
    again, and every read before that one returned a positive count. *)
Theorem read_error_is_fatal v e fuel code s fd buf count data :
  run v e fuel = Finished code s ->
  In (EvRead fd buf count (-1) data) (log s) ->
  code = EXIT_FAILURE /\
  last (err s) = Some MsgReadFailed /\
  heap s = ∅ /\
  exists l,
    Forall positive_read l /\
    log s = l ++ EvRead fd buf count (-1) data
              :: EvClose (open_ret e) (close_ret e)
              :: match blk_of v e with Some p => [EvFree p] | None => [] end.
Proof.
  intros Hrun Hin.
  destruct (run_cases v e fuel (fun s => Forall positive_read (log s))) as
    [(s' & Hstop & _ & Hst)
    |(s_in & s0 & res & Hrdy & [Hheap _] & Hinv & Hfo & Hres)].
  - intros s_in Hrdy. rewrite (ready_log _ _ _ Hrdy).
    apply positive_read_acquire.
  - intros s_in s0 r s1 w s2 _ _ Hinv Hr Hpos Hw _.
    exact (positive_read_iter e _ _ _ _ s0 r s1 w s2 Hinv Hr Hpos Hw).
  - exfalso. rewrite Hstop in Hrun. injection Hrun as _ <-.
    exact (stopped_no_read v e s' _ _ _ _ _ Hst Hin).
  - rewrite Hres in Hrun.
    destruct Hfo as [|r s1 w s2 Hr Hpos Hw Hnew|r s1 Hr Hm1
                     |r s1 Hr Hle Hnr Hc|r s1 Hr Hle Hnr Hc];
      cbn [to_outcome] in Hrun; [discriminate Hrun|..];
      injection Hrun as <- <-.
    + (* a failed write: the reads so far were positive *)
      exfalso.
      pose proof (positive_read_iter e _ _ _ _ s0 r s1 w s2 Hinv Hr Hpos Hw)
        as Hl2.
      rewrite released_log in Hin. cbn [log add_log add_err] in Hin.
      apply in_app_or in Hin. destruct Hin as [Hin|Hin].
      * apply in_app_or in Hin. destruct Hin as [Hin|[Hin|[]]];
          [exact (no_failed_read _ _ _ _ _ Hl2 Hin)|discriminate Hin].
      * destruct (blk_of v e); [destruct Hin as [Hin|[]]; discriminate Hin
                               |exact Hin].
    + (* the failed read is this one *)
      assert (Hs1 : log s1 = log s0 ++ [EvRead (open_ret e) (buffer_of v e)
                                          (count_of v e) (-1)
                                          (take (Z.to_nat (-1))
                                             (drop (pos s0) (file e)))]
                    /\ heap s1 = heap s0).
      { unfold do_read in Hr. injection Hr as Hr1 <-. cbn [log heap].
        rewrite Hr1, Hm1. split; reflexivity. }
      destruct Hs1 as [Hlog1 Hheap1].
      rewrite released_log in Hin |- *. rewrite released_err.
      cbn [log err add_log add_err] in Hin |- *.
      rewrite Hlog1 in Hin |- *.
      split; [reflexivity|]. split; [apply last_snoc|].
      split.
      { apply (heap_released_ready v e s_in _ Hrdy).
        cbn [heap add_log add_err]. congruence. }
      exists (log s0). split; [exact Hinv|].
      assert (Hev : EvRead fd buf count (-1) data =
                    EvRead (open_ret e) (buffer_of v e) (count_of v e) (-1)
                      (take (Z.to_nat (-1)) (drop (pos s0) (file e)))).
      { apply in_app_or in Hin. destruct Hin as [Hin|Hin].
        - apply in_app_or in Hin. destruct Hin as [Hin|[Hin|[]]].
          + apply in_app_or in Hin. destruct Hin as [Hin|[Hin|[]]].
            * exfalso. exact (no_failed_read _ _ _ _ _ Hinv Hin).
            * symmetry. exact Hin.
          + discriminate Hin.
        - exfalso. destruct (blk_of v e);
            [destruct Hin as [Hin|[]]; discriminate Hin|exact Hin]. }
      rewrite Hev, <- !app_assoc. reflexivity.
    + (* the loop ended with a read that did not fail *)
      exfalso.
      assert (Hl1 : exists d, log s1 = log s0 ++ [EvRead (open_ret e)
                                (buffer_of v e) (count_of v e) r d]).
      { unfold do_read in Hr. injection Hr as Hr1 <-. cbn [log].
        rewrite Hr1. eexists. reflexivity. }
      destruct Hl1 as (d & Hl1).
      rewrite released_log in Hin. cbn [log add_log add_err] in Hin.
      rewrite Hl1 in Hin.
      apply in_app_or in Hin. destruct Hin as [Hin|Hin].
      * apply in_app_or in Hin. destruct Hin as [Hin|[Hin|[]]];
          [|discriminate Hin].
        apply in_app_or in Hin. destruct Hin as [Hin|[Hin|[]]];
          [exact (no_failed_read _ _ _ _ _ Hinv Hin)|].
        injection Hin as _ _ _ Hr' _. congruence.
      * destruct (blk_of v e); [destruct Hin as [Hin|[]]; discriminate Hin
                               |exact Hin].
    + exfalso.
      assert (Hl1 : exists d, log s1 = log s0 ++ [EvRead (open_ret e)
                                (buffer_of v e) (count_of v e) r d]).
      { unfold do_read in Hr. injection Hr as Hr1 <-. cbn [log].
        rewrite Hr1. eexists. reflexivity. }
      destruct Hl1 as (d & Hl1).
      rewrite released_log in Hin. cbn [log add_log add_err] in Hin.
      rewrite Hl1 in Hin.
      apply in_app_or in Hin. destruct Hin as [Hin|Hin].
      * apply in_app_or in Hin. destruct Hin as [Hin|[Hin|[]]];
          [|discriminate Hin].
        apply in_app_or in Hin. destruct Hin as [Hin|[Hin|[]]];
          [exact (no_failed_read _ _ _ _ _ Hinv Hin)|].
        injection Hin as _ _ _ Hr' _. congruence.
      * destruct (blk_of v e); [destruct Hin as [Hin|[]]; discriminate Hin
                               |exact Hin].
Qed.

Lemma read_error_is_fatal_witness :
  let s := final (run Cat5 env_read_error 1) in
  EXIT_FAILURE = EXIT_FAILURE /\
  last (err s) = Some MsgReadFailed /\
  heap s = ∅ /\
  exists l,
    Forall positive_read l /\
    log s = l ++ EvRead 3 69632 2097152 (-1) []
              :: EvClose (open_ret env_read_error) (close_ret env_read_error)
              :: match blk_of Cat5 env_read_error with
                 | Some p => [EvFree p]
                 | None => []
                 end.
Proof.
  intros s.
  apply (read_error_is_fatal Cat5 env_read_error 1 EXIT_FAILURE s
           3 69632 2097152 []).
  - vm_compute. reflexivity.
  - vm_compute. right. right. left. reflexivity.
Defined.

(** ** A failing close *)

(** X5. When the program reports a failed [close], the copy itself was
    complete: the whole file is on standard output and the buffer has
    been released, and still the exit status is [EXIT_FAILURE].  ([read]
    is assumed to behave as POSIX says, and [sysconf] to return a positive
    page size.) *)
Theorem close_failure_after_full_copy v e fuel code s :
  pagesize_ok e -> read_ok e ->
  run v e fuel = Finished code s ->
  last (err s) = Some MsgCloseFailed ->
  code = EXIT_FAILURE /\ out s = file e /\ heap s = ∅.
Proof.
  intros Hps Hrd Hrun Hlast.
  destruct (run_cases_reported v e fuel
              (fun s => copied e s /\ err s = notices v e)) as
    [(s' & Hstop & _ & _ & l0 & m & Herr & _ & Hm)
    |(s_in & s0 & res & Hrdy & [Hheap _] & [Hcp Hinv] & Hfo & Hres)].
  - intros s_in Hrdy. split; [|exact (ready_notices _ _ _ Hrdy)].
    unfold copied.
    rewrite (ready_out _ _ _ Hrdy), (ready_pos _ _ _ Hrdy). reflexivity.
  - intros s_in s0 r s1 w s2 _ _ [Hcp Hinv] Hr Hpos Hw Hweq. split.
    + exact (copied_iter v e Hrd _ _ s0 r s1 w s2 Hcp Hr Hpos Hw Hweq).
    + exact (notices_iter v e _ _ _ _ s0 r s1 w s2 Hinv Hr Hw).
  - exfalso. rewrite Hstop in Hrun. injection Hrun as _ <-.
    rewrite Herr, last_snoc in Hlast. injection Hlast as ->. exact Hm.
  - pose proof (notices_notice v e s_in Hrdy) as Hn.
    rewrite Hres in Hrun.
    destruct Hfo as [|r s1 w s2 Hr Hpos Hw Hnew|r s1 Hr Hm1
                     |r s1 Hr Hle Hnr Hc|r s1 Hr Hle Hnr Hc];
      cbn [to_outcome] in Hrun; [discriminate Hrun|..];
      injection Hrun as <- <-; rewrite released_err in Hlast;
      cbn [err add_err add_log] in Hlast.
    + rewrite last_snoc in Hlast. discriminate Hlast.
    + rewrite last_snoc in Hlast. discriminate Hlast.
    + split; [reflexivity|]. split.
      * rewrite released_out. cbn [out add_log add_err].
        unfold do_read in Hr. injection Hr as Hr Hs1. rewrite <- Hs1.
        cbn [out]. rewrite Hcp. apply take_ge.
        pose proof (count_positive v e Hps).
        destruct (Hrd (nreads s0) (pos s0) (count_of v e) (count_nonneg v e))
          as [H1|(H1 & H2 & H3)]; [congruence|].
        destruct H3 as [H3|H3]; lia.
      * apply (heap_released_ready v e s_in _ Hrdy).
        unfold do_read in Hr. injection Hr as _ <-.
        cbn [heap add_log add_err]. exact Hheap.
    + exfalso. rewrite (do_read_err _ _ _ _ _ _ _ Hr), Hinv in Hlast.
      exact (last_notice _ _ Hn Hlast).
Qed.

Lemma close_failure_after_full_copy_witness :
  let s := final (run Cat2 env_close_error 2) in
  EXIT_FAILURE = EXIT_FAILURE /\ out s = file env_close_error /\ heap s = ∅.
Proof.
  intros s.
  apply (close_failure_after_full_copy Cat2 env_close_error 2 EXIT_FAILURE s).
  - right. cbn. lia.
  - intros i off count Hc. right. cbn [env_close_error read_ret file].
    split; [lia|]. split; [lia|]. lia.
  - vm_compute. reflexivity.
  - vm_compute. reflexivity.
Defined.

(** * The calls of the loop and the buffer *)

Lemma within_read v e s r s1 :
  read_ok e ->
  Forall (within_buffer v e) (log s) ->
  do_read e (open_ret e) (buffer_of v e) (count_of v e) s = (r, s1) ->
  Forall (within_buffer v e) (log s1).
Proof.
  unfold do_read. intros Hrd Hl Hr. injection Hr as Hr1 <-. cbn [log].
  apply Forall_app. split; [exact Hl|]. repeat constructor.
  rewrite length_take. pose proof (count_nonneg v e) as Hc.
  destruct (Hrd (nreads s) (pos s) (count_of v e) Hc) as [H|(H1 & _)]; lia.
Qed.

Lemma within_write v e s r s1 w s2 :
  read_ok e ->
  Forall (within_buffer v e) (log s1) ->
  do_read e (open_ret e) (buffer_of v e) (count_of v e) s = (r, s1) ->
  0 < r ->
  do_write e STDOUT_FILENO (buffer_of v e) (wlen_of v r) s1 = (w, s2) ->
  Forall (within_buffer v e) (log s2).
Proof.
  unfold do_read, do_write. intros Hrd Hl Hr Hpos Hw.
  injection Hr as Hr1 _. injection Hw as _ <-. cbn [log].
  apply Forall_app. split; [exact Hl|]. repeat constructor.
  all: destruct (Hrd (nreads s) (pos s) (count_of v e) (count_nonneg v e))
         as [H|(H1 & _)]; [lia|];
       rewrite (wlen_of_id v e r) by lia; lia.
Qed.

Lemma within_closed v e fd s s' :
  log s' = log s ++ [EvClose fd (close_ret e)] ->
  Forall (within_buffer v e) (log s) ->
  Forall (within_buffer v e) (log (released (blk_of v e) s')).
Proof.
  intros Hs' Hl. rewrite released_log, Hs'.
  apply Forall_app. split; [apply Forall_app; split; [exact Hl|]|].
  - repeat constructor.
  - destruct (blk_of v e); repeat constructor.
Qed.

Lemma within_stopped v e s :
  stopped v e s -> Forall (within_buffer v e) (log s).
Proof.
  intros Hst.
  destruct Hst as [? Hl ?|? ? ? Hl ? ?|? ? ? ? Hl ? ?|? ? ? Hl ?
                   |? ? ? ? ? Hl ?|? ? ? ? ? ? Hl];
    rewrite Hl; repeat constructor.
Qed.

(** In the log of every run the reads and the writes are [within_buffer]. *)
Lemma within_buffer_log v e fuel :
  read_ok e -> Forall (within_buffer v e) (log (final (run v e fuel))).
Proof.
  intros Hrd.
  destruct (run_cases v e fuel (fun s => Forall (within_buffer v e) (log s)))
    as [(s' & Hstop & _ & Hst)
       |(s_in & s0 & res & Hrdy & _ & Hinv & Hfo & Hres)].
  - intros s_in Hrdy. rewrite (ready_log _ _ _ Hrdy).
    destruct v; repeat constructor.
  - intros s_in s0 r s1 w s2 _ _ Hinv Hr Hpos Hw _.
    exact (within_write v e s0 r s1 w s2 Hrd
             (within_read v e s0 r s1 Hrd Hinv Hr) Hr Hpos Hw).
  - rewrite Hstop. exact (within_stopped v e s' Hst).
  - rewrite Hres.
    destruct Hfo as [|r s1 w s2 Hr Hpos Hw Hnew|r s1 Hr Hm1
                     |r s1 Hr Hle Hnr Hc|r s1 Hr Hle Hnr Hc];
      cbn [to_outcome final].
    + exact Hinv.
    + apply (within_closed v e (open_ret e) s2); [reflexivity|].
      exact (within_write v e s0 r s1 w s2 Hrd
               (within_read v e s0 r s1 Hrd Hinv Hr) Hr Hpos Hw).
    + apply (within_closed v e (open_ret e) s1); [reflexivity|].
      exact (within_read v e s0 r s1 Hrd Hinv Hr).
    + apply (within_closed v e (open_ret e) s1); [reflexivity|].
      exact (within_read v e s0 r s1 Hrd Hinv Hr).
    + apply (within_closed v e (open_ret e) s1); [reflexivity|].
      exact (within_read v e s0 r s1 Hrd Hinv Hr).
Qed.

(** X6. In every run, every [read] is made on the descriptor that [open]
    returned, into the program's buffer, for exactly [buffer_size] bytes,
    and delivers no more bytes than that; every [write] is made on
    standard output, from the same buffer, for a positive number of bytes
    that is at most [buffer_size].  ([read] is assumed to behave as POSIX
    says.) *)
Theorem io_stays_in_buffer v e fuel :
  read_ok e ->
  let l := log (final (run v e fuel)) in
  (forall fd buf count r data,
     In (EvRead fd buf count r data) l ->
     fd = open_ret e /\ buf = buffer_of v e /\ count = count_of v e /\
     Z.of_nat (length data) <= count) /\
  (forall fd buf count w data,
     In (EvWrite fd buf count w data) l ->
     fd = STDOUT_FILENO /\ buf = buffer_of v e /\
     0 < count <= count_of v e).
Proof.
  intros Hrd l.
  pose proof (within_buffer_log v e fuel Hrd) as Hl. fold l in Hl.
  rewrite Forall_forall in Hl.
  split; intros fd buf count r data Hin;
    exact (Hl _ (proj2 (list_elem_of_In _ _) Hin)).
Qed.

Lemma io_stays_in_buffer_witness :
  let l := log (final (run Cat4 env_hello 2)) in
  (forall fd buf count r data,
     In (EvRead fd buf count r data) l ->
     fd = open_ret env_hello /\ buf = buffer_of Cat4 env_hello /\
     count = count_of Cat4 env_hello /\
     Z.of_nat (length data) <= count) /\
  (forall fd buf count w data,
     In (EvWrite fd buf count w data) l ->
     fd = STDOUT_FILENO /\ buf = buffer_of Cat4 env_hello /\
     0 < count <= count_of Cat4 env_hello).
Proof.
  exact (io_stays_in_buffer Cat4 env_hello 2 env_hello_read_ok).
Defined.

(** ** Where the buffer lies *)

Lemma page_size_of_power e :
  pagesize_pow2 e -> exists k, 0 <= k < 64 /\ page_size_of e = 2 ^ k.
Proof.
  unfold page_size_of. intros [H|(k & Hk & H)].
  - rewrite H. exists 12. split; [lia|reflexivity].
  - destruct (sysconf_ret e =? -1);
      [exists 12; split; [lia|reflexivity]|].
    exists k. split; [lia|exact H].
Qed.

(** The buffer of the aligned variants starts on a page boundary. *)
Lemma aligned_buffer_multiple v e :
  aligned v -> pagesize_pow2 e -> buffer_of v e mod page_size_of e = 0.
Proof.
  intros Hal Hps.
  destruct (page_size_of_power e Hps) as (k & Hk & Hpow).
  assert (Hts : to_size (page_size_of e) = page_size_of e).
  { apply to_size_small. rewrite SIZE_MODULUS_eq.
    pose proof (page_size_of_pow2 e Hps). lia. }
  assert (Hbuf : buffer_of v e = aligned_addr (block_of v e) (2 ^ k)).
  { rewrite <- Hpow.
    destruct v; try contradiction; cbn [buffer_of]; rewrite Hts; reflexivity. }
  rewrite Hbuf, Hpow. apply aligned_addr_multiple, Hk.
Qed.

(** The log of a state of the loop is a prefix of the log of the run's
    last state. *)
Lemma finish_outcome_log e fd buf count wlen blk s0 res :
  finish_outcome e fd buf count wlen blk s0 res ->
  exists l, log (final (to_outcome res)) = log s0 ++ l.
Proof.
  assert (Hread : forall r s1, do_read e fd buf count s0 = (r, s1) ->
                    exists l, log s1 = log s0 ++ l).
  { unfold do_read. intros r s1 H. injection H as _ <-. cbn [log].
    eexists. reflexivity. }
  intros Hfo.
  destruct Hfo as [|r s1 w s2 Hr Hpos Hw Hnew|r s1 Hr Hm1
                   |r s1 Hr Hle Hnr Hc|r s1 Hr Hle Hnr Hc];
    cbn [to_outcome final]; rewrite ?released_log;
    cbn [log add_log add_err].
  - exists []. symmetry. apply app_nil_r.
  - destruct (Hread r s1 Hr) as (l & Hl).
    unfold do_write in Hw. injection Hw as _ <-. cbn [log].
    rewrite Hl, <- !app_assoc. eexists. reflexivity.
  - destruct (Hread r s1 Hr) as (l & ->).
    rewrite <- !app_assoc. eexists. reflexivity.
  - destruct (Hread r s1 Hr) as (l & ->).
    rewrite <- !app_assoc. eexists. reflexivity.
  - destruct (Hread r s1 Hr) as (l & ->).
    rewrite <- !app_assoc. eexists. reflexivity.
Qed.

(** X7. In the variants with a heap buffer, every [read] stores what it
    delivers inside the block that [malloc] returned: the [buffer_size]
    bytes from the buffer's address on lie inside that block.  In mycat4,
    mycat5 and mycat6 the buffer's address is moreover a multiple of the
    page size and leaves room for the stashed pointer below it.  ([read]
    is assumed to behave as POSIX says, the page size to be a power of
    two, the block size to be a [long], and heap blocks to lie inside the
    address space.) *)
Theorem reads_inside_block v e fuel fd buf count r data :
  v <> Cat1 -> read_ok e -> pagesize_pow2 e -> long_range (st_blksize e) ->
  malloc_fits e ->
  In (EvRead fd buf count r data) (log (final (run v e fuel))) ->
  exists n p,
    In (EvMalloc n p) (log (final (run v e fuel))) /\ p <> NULL /\
    p <= buf /\
    buf + Z.of_nat (length data) <= buf + count /\
    buf + count <= p + n /\
    (aligned v -> p + sizeof_ptr <= buf /\ buf mod page_size_of e = 0).
Proof.
  intros Hv Hrd Hps Hblk Hfit Hin.
  pose proof (within_buffer_log v e fuel Hrd) as Hl.
  rewrite Forall_forall in Hl.
  destruct (Hl _ (proj2 (list_elem_of_In _ _) Hin)) as (_ & -> & -> & Hlen).
  exists (request_of v e), (block_of v e).
  destruct (run_cases v e fuel (in_loop v e)) as
    [(s' & Hstop & _ & Hst)
    |(s_in & s0 & res & Hrdy & _ & (l0 & Hl0 & _) & Hfo & Hres)].
  - intros s_in Hrdy. exact (in_loop_ready v e s_in Hrdy).
  - intros s_in s0 r0 s1 w s2 _ _ Hinv Hr _ Hw _.
    exact (in_loop_iter v e _ _ _ (wlen_of v) s0 r0 s1 w s2 Hinv Hr Hw).
  - exfalso. rewrite Hstop in Hin. cbn [final] in Hin.
    exact (stopped_no_read v e s' _ _ _ _ _ Hst Hin).
  - destruct (ready_buf _ _ _ Hrdy Hv) as [_ Hp].
    destruct (finish_outcome_log _ _ _ _ _ _ _ _ Hfo) as (l1 & Hl1).
    rewrite Hres, Hl1, Hl0.
    split.
    { apply in_or_app. left. apply in_or_app. left.
      destruct v; [contradiction|..]; cbn [acquire_log In]; auto. }
    split; [exact Hp|].
    assert (Hgeo : aligned v ->
              block_of v e + sizeof_ptr <= buffer_of v e /\
              buffer_of v e + count_of v e <= block_of v e + request_of v e /\
              buffer_of v e mod page_size_of e = 0).
    { intros Hal.
      destruct (aligned_buffer_in_block v e Hal Hps Hblk Hfit Hp)
        as (_ & Hlo & Hhi).
      split; [exact Hlo|]. split; [exact Hhi|].
      exact (aligned_buffer_multiple v e Hal Hps). }
    unfold sizeof_ptr in *.
    destruct v; [contradiction| |..].
    + (* mycat2: the buffer is the block *)
      cbn [buffer_of request_of].
      split; [lia|]. split; [lia|]. split; [lia|]. intros [].
    + destruct (Hgeo I) as (Hlo & Hhi & Hmod).
      split; [lia|]. split; [lia|]. split; [lia|]. auto.
    + destruct (Hgeo I) as (Hlo & Hhi & Hmod).
      split; [lia|]. split; [lia|]. split; [lia|]. auto.
    + destruct (Hgeo I) as (Hlo & Hhi & Hmod).
      split; [lia|]. split; [lia|]. split; [lia|]. auto.
Qed.

Lemma reads_inside_block_witness :
  let l := log (final (run Cat4 env_hello 2)) in
  exists n p,
    In (EvMalloc n p) l /\ p <> NULL /\
    p <= 69632 /\
    69632 + Z.of_nat (length hello) <= 69632 + 4096 /\
    69632 + 4096 <= p + n /\
    (aligned Cat4 -> p + sizeof_ptr <= 69632 /\
                     69632 mod page_size_of env_hello = 0).
Proof.
  intros l.
  apply (reads_inside_block Cat4 env_hello 2 3 69632 4096 14 hello).
  - discriminate.
  - exact env_hello_read_ok.
  - exact env_hello_pagesize_pow2.
  - exact env_hello_blksize.
  - exact env_hello_malloc_fits.
  - vm_compute. right. right. left. reflexivity.
Defined.

(** * More about the page-aligned allocator *)

Lemma align_alloc_in_block_witness :
  exists s' p,
    align_alloc 100 env_hello initial = Ret 69632 s' /\
    heap s' !! p = Some (100 + page_size_of env_hello - 1 + sizeof_ptr) /\
    69632 mod page_size_of env_hello = 0 /\
    p + sizeof_ptr <= 69632 /\
    69632 + 100 <= p + (100 + page_size_of env_hello - 1 + sizeof_ptr).
Proof.
  assert (Hrun : exists s', align_alloc 100 env_hello initial = Ret 69632 s')
    by (eexists; vm_compute; reflexivity).
  destruct Hrun as [s' Hrun]. exists s'.
  destruct (align_alloc_in_block env_hello initial 100 69632 s'
              env_hello_pagesize_pow2 env_hello_malloc_fits)
    as (p & H); [lia|vm_compute; reflexivity|exact Hrun|discriminate|].
  exists p. split; [exact Hrun|exact H].
Defined.

Lemma store_bytes_lookup_above m a bs x :
  a + Z.of_nat (length bs) <= x -> store_bytes m a bs !! x = m !! x.
Proof.
  revert m a. induction bs as [|b bs IH]; intros m a Hx; simpl; [reflexivity|].
  simpl length in Hx. rewrite IH by lia. apply lookup_insert_ne. lia.
Qed.

Lemma store_ptr_frame m a p x :
  ~ (a <= x < a + sizeof_ptr) -> store_ptr m a p !! x = m !! x.
Proof.
  intros Hx. unfold store_ptr.
  assert (Hlen : Z.of_nat (length (Z_to_little_endian sizeof_ptr 8 p))
                 = sizeof_ptr)
    by (rewrite length_Z_to_little_endian by (unfold sizeof_ptr; lia);
        unfold sizeof_ptr; lia).
  destruct (Z.lt_ge_cases x a) as [Hlt|Hge].
  - apply store_bytes_lookup_below, Hlt.
  - apply store_bytes_lookup_above. lia.
Qed.

(** [align_alloc] when the request does not wrap around: the block that
    [malloc] returns has the size asked for, and the address returned is
    the page size's multiple that [aligned_addr] computes, between the end
    of the stash and one page further. *)
Lemma align_alloc_no_wrap e s size a s' :
  pagesize_pow2 e -> malloc_fits e ->
  1 <= size ->
  size + page_size_of e - 1 + sizeof_ptr < SIZE_MODULUS ->
  align_alloc size e s = Ret a s' -> a <> NULL ->
  exists p,
    log s' = log s ++ [EvMalloc (size + page_size_of e - 1 + sizeof_ptr) p] /\
    p <> NULL /\
    heap s' !! p = Some (size + page_size_of e - 1 + sizeof_ptr) /\
    a mod page_size_of e = 0 /\
    p + sizeof_ptr <= a <= p + sizeof_ptr + page_size_of e - 1 /\
    p + (size + page_size_of e - 1 + sizeof_ptr) <= SIZE_MODULUS.
Proof.
  intros Hps Hfit Hsize Hnowrap Hrun Ha.
  pose proof (page_size_of_pow2 e Hps) as Hr.
  assert (Hts : to_size (page_size_of e) = page_size_of e).
  { apply to_size_small. rewrite SIZE_MODULUS_eq. lia. }
  rewrite align_alloc_eq in Hrun. cbv zeta in Hrun. rewrite Hts in Hrun.
  rewrite (to_size_small (size + page_size_of e - 1 + sizeof_ptr)) in Hrun
    by (unfold sizeof_ptr in *; lia).
  set (n := size + page_size_of e - 1 + sizeof_ptr) in *.
  set (p := to_size (malloc_ret e n)) in *.
  destruct (p =? NULL) eqn:Hp.
  - injection Hrun as <- _. contradiction.
  - injection Hrun as <- <-. exists p.
    cbn [log heap set_mem add_log set_heap].
    split; [destruct (sysconf_ret e =? -1); reflexivity|].
    pose proof (to_size_range (malloc_ret e n)) as Hpr. fold p in Hpr.
    apply Z.eqb_neq in Hp. split; [exact Hp|].
    split; [apply lookup_insert_eq|].
    destruct (Hfit n) as [Hnull|Hin]; fold p in Hnull || fold p in Hin;
      [contradiction|].
    destruct (page_size_of_power e Hps) as (k & Hk & Hpow).
    split; [rewrite Hpow; apply aligned_addr_multiple, Hk|].
    split; [|exact Hin].
    apply aligned_addr_bounds; subst n; unfold sizeof_ptr in *; lia.
Qed.

(** X9. Without wrap-around of the request, the address [align_alloc]
    returns is the first multiple of the page size at or after the end of
    the pointer stash at the start of the block: it is a multiple of the
    page size, it is not below [original_ptr + sizeof(void* )], and no
    multiple of the page size lies between the two, so less than one page
    of the block is skipped.  (The page size is assumed to be a power of
    two and heap blocks to lie inside the address space.) *)
Theorem align_alloc_least_aligned e s size a s' :
  pagesize_pow2 e -> malloc_fits e ->
  1 <= size ->
  size + page_size_of e - 1 + sizeof_ptr < SIZE_MODULUS ->
  align_alloc size e s = Ret a s' -> a <> NULL ->
  exists n p,
    log s' = log s ++ [EvMalloc n p] /\
    p + sizeof_ptr <= a /\
    a mod page_size_of e = 0 /\
    a - (p + sizeof_ptr) < page_size_of e /\
    forall b, p + sizeof_ptr <= b -> b mod page_size_of e = 0 -> a <= b.
Proof.
  intros Hps Hfit Hsize Hnowrap Hrun Ha.
  destruct (align_alloc_no_wrap e s size a s' Hps Hfit Hsize Hnowrap Hrun Ha)
    as (p & Hlog & _ & _ & Hmod & [Hlo Hhi] & _).
  pose proof (page_size_of_pow2 e Hps) as Hr.
  exists (size + page_size_of e - 1 + sizeof_ptr), p.
  split; [exact Hlog|]. split; [exact Hlo|]. split; [exact Hmod|].
  split; [lia|]. intros b Hb1 Hb2.
  set (ps := page_size_of e) in *.
  destruct (Z.le_gt_cases a b) as [Hle|Hgt]; [exact Hle|exfalso].
  pose proof (Z.div_mod a ps ltac:(lia)) as Ha'.
  pose proof (Z.div_mod b ps ltac:(lia)) as Hb'.
  rewrite Hmod in Ha'. rewrite Hb2 in Hb'.
  assert (b / ps < a / ps) by nia.
  nia.
Qed.

Lemma align_alloc_least_aligned_witness :
  exists s' n p,
    align_alloc 100 env_hello initial = Ret 69632 s' /\
    log s' = log initial ++ [EvMalloc n p] /\
    p + sizeof_ptr <= 69632 /\
    69632 mod page_size_of env_hello = 0 /\
    69632 - (p + sizeof_ptr) < page_size_of env_hello /\
    forall b, p + sizeof_ptr <= b -> b mod page_size_of env_hello = 0 ->
              69632 <= b.
Proof.
  assert (Hrun : exists s', align_alloc 100 env_hello initial = Ret 69632 s')
    by (eexists; vm_compute; reflexivity).
  destruct Hrun as [s' Hrun]. exists s'.
  destruct (align_alloc_least_aligned env_hello initial 100 69632 s'
              env_hello_pagesize_pow2 env_hello_malloc_fits)
    as (n & p & H); [lia|vm_compute; reflexivity|exact Hrun|discriminate|].
  exists n, p. split; [exact Hrun|exact H].
Defined.

(** X10. [align_alloc] changes nothing in memory but the [sizeof(void* )]
    bytes directly below the address it returns, keeps the blocks that
    are live, and touches neither the input offset nor standard output.
    When [malloc] fails it returns [NULL] and has written nothing. *)
Theorem align_alloc_writes_stash_only e s size a s' :
  align_alloc size e s = Ret a s' ->
  exists n p,
    log s' = log s ++ [EvMalloc n p] /\
    (p = NULL -> a = NULL /\ mem s' = mem s /\ heap s' = heap s) /\
    (forall x, ~ (a - sizeof_ptr <= x < a) -> mem s' !! x = mem s !! x) /\
    (forall q, q <> p -> heap s' !! q = heap s !! q) /\
    out s' = out s /\ pos s' = pos s.
Proof.
  intros Hrun. rewrite align_alloc_eq in Hrun. cbv zeta in Hrun.
  set (n := to_size (size + to_size (page_size_of e) - 1 + sizeof_ptr)) in *.
  set (p := to_size (malloc_ret e n)) in *.
  set (s1 := if sysconf_ret e =? -1 then add_err MsgWarnPageSize s else s)
    in *.
  assert (Hs1 : mem s1 = mem s /\ heap s1 = heap s /\ log s1 = log s /\
                out s1 = out s /\ pos s1 = pos s)
    by (subst s1; destruct (sysconf_ret e =? -1); repeat split).
  destruct Hs1 as (Hm & Hh & Hl & Ho & Hpos).
  destruct (p =? NULL) eqn:Hp.
  - injection Hrun as <- <-. exists n, NULL.
    cbn [log mem heap out pos add_log]. rewrite Hm, Hh, Hl, Ho, Hpos.
    repeat split; reflexivity.
  - injection Hrun as <- <-. exists n, p. apply Z.eqb_neq in Hp.
    cbn [log mem heap out pos set_mem add_log set_heap].
    rewrite Hm, Hh, Hl, Ho, Hpos.
    split; [reflexivity|]. split; [intros H; contradiction|].
    split; [|split; [|split; reflexivity]].
    + intros x Hx. apply store_ptr_frame. unfold sizeof_ptr in *. lia.
    + intros q Hq. apply lookup_insert_ne. congruence.
Qed.

Lemma align_alloc_writes_stash_only_witness :
  exists s' n p,
    align_alloc 100 env_hello initial = Ret 69632 s' /\
    log s' = log initial ++ [EvMalloc n p] /\
    (p = NULL -> 69632 = NULL /\ mem s' = mem initial /\
                 heap s' = heap initial) /\
    (forall x, ~ (69632 - sizeof_ptr <= x < 69632) ->
               mem s' !! x = mem initial !! x) /\
    (forall q, q <> p -> heap s' !! q = heap initial !! q) /\
    out s' = out initial /\ pos s' = pos initial.
Proof.
  assert (Hrun : exists s', align_alloc 100 env_hello initial = Ret 69632 s')
    by (eexists; vm_compute; reflexivity).
  destruct Hrun as [s' Hrun]. exists s'.
  destruct (align_alloc_writes_stash_only env_hello initial 100 69632 s' Hrun)
    as (n & p & H).
  exists n, p. split; [exact Hrun|exact H].
Defined.

(** What a successful [align_alloc] leaves behind: a live block and, in
    the stash below the returned address, the address of that block. *)
Lemma align_alloc_stash e s size a s1 :
  align_alloc size e s = Ret a s1 -> a <> NULL ->
  exists n p,
    log s1 = log s ++ [EvMalloc n p] /\ p <> NULL /\
    heap s1 = <[p := n]> (heap s) /\
    load_ptr (mem s1) (a - sizeof_ptr) = p.
Proof.
  intros Hrun Ha. rewrite align_alloc_eq in Hrun. cbv zeta in Hrun.
  set (n := to_size (size + to_size (page_size_of e) - 1 + sizeof_ptr)) in *.
  set (p := to_size (malloc_ret e n)) in *.
  set (s0 := if sysconf_ret e =? -1 then add_err MsgWarnPageSize s else s)
    in *.
  assert (Hs0 : heap s0 = heap s /\ log s0 = log s)
    by (subst s0; destruct (sysconf_ret e =? -1); split; reflexivity).
  destruct Hs0 as [Hh Hl].
  destruct (p =? NULL) eqn:Hp.
  - injection Hrun as <- _. contradiction.
  - injection Hrun as <- <-. apply Z.eqb_neq in Hp. exists n, p.
    cbn [log heap mem set_mem add_log set_heap]. rewrite Hh, Hl.
    split; [reflexivity|]. split; [exact Hp|]. split; [reflexivity|].
    apply load_store_ptr, to_size_range.
Qed.

(** X11. The pointer stash survives the use of the buffer.  After a
    successful [align_alloc], whatever is stored at the returned address
    or above it -- by any number of reads into the buffer --, [align_free]
    of that address finds the pointer [malloc] returned and frees that
    block. *)
Theorem align_free_after_buffer_use e s size a s1 :
  align_alloc size e s = Ret a s1 -> a <> NULL ->
  exists n p,
    log s1 = log s ++ [EvMalloc n p] /\ p <> NULL /\
    (forall e' fd count s2,
       agree a s1 s2 -> agree a s1 (do_read e' fd a count s2).2) /\
    (forall e' s2,
       agree a s1 s2 ->
       align_free a e' s2 =
         Ret tt (add_log (EvFree p) (set_heap (delete p (heap s)) s2))).
Proof.
  intros Hrun Ha.
  destruct (align_alloc_stash e s size a s1 Hrun Ha)
    as (n & p & Hlog & Hp & Hheap & Hload).
  exists n, p. split; [exact Hlog|]. split; [exact Hp|]. split.
  - intros e' fd count s2 Hag. apply agree_do_read, Hag.
  - intros e' s2 [Hh Hm].
    erewrite align_free_live; [|exact Ha|exact Hp| |].
    + unfold released. rewrite Hh, Hheap, delete_insert_eq. reflexivity.
    + rewrite (load_ptr_stash _ _ _ Hm). exact Hload.
    + rewrite Hh, Hheap. apply lookup_insert_eq.
Qed.

Lemma align_free_after_buffer_use_witness :
  exists s1 n p,
    align_alloc 100 env_hello initial = Ret 69632 s1 /\
    log s1 = log initial ++ [EvMalloc n p] /\ p <> NULL /\
    (forall e' fd count s2,
       agree 69632 s1 s2 -> agree 69632 s1 (do_read e' fd 69632 count s2).2) /\
    (forall e' s2,
       agree 69632 s1 s2 ->
       align_free 69632 e' s2 =
         Ret tt (add_log (EvFree p) (set_heap (delete p (heap initial)) s2))).
Proof.
  assert (Hrun : exists s1, align_alloc 100 env_hello initial = Ret 69632 s1)
    by (eexists; vm_compute; reflexivity).
  destruct Hrun as [s1 Hrun]. exists s1.
  destruct (align_free_after_buffer_use env_hello initial 100 69632 s1 Hrun)
    as (n & p & H); [discriminate|].
  exists n, p. split; [exact Hrun|exact H].
Defined.

(** * The number of calls *)

Lemma released_nwrites blk s : nwrites (released blk s) = nwrites s.
Proof. destruct blk; reflexivity. Qed.

Lemma block_steps_iter e fd buf count n s r s1 w s2 :
  read_full e -> 1 <= count ->
  block_steps count (Z.of_nat (length (file e))) s ->
  do_read e fd buf count s = (r, s1) -> 0 < r ->
  do_write e STDOUT_FILENO buf n s1 = (w, s2) ->
  block_steps count (Z.of_nat (length (file e))) s2.
Proof.
  unfold block_steps, do_read, do_write.
  intros Hfull Hc (Hw & Hlen & Hat & Hle & Hgt) Hr Hpos Hwr.
  injection Hr as Hr1 <-. injection Hwr as _ <-.
  cbn [nreads nwrites pos]. rewrite Hfull in Hr1 |- *.
  rewrite length_take, length_drop.
  split; [congruence|]. lia.
Qed.

(** X14. When every read delivers a full block or what is left of the
    file, a successful run makes one write for every block of
    [buffer_size] bytes that the file fills, the last one possibly in
    part, and one read more than that, the read that finds the end of the
    file.  So mycat1 makes a pair of calls for every byte, and the larger
    buffers of the other variants divide the number of calls by their
    size. *)
Theorem one_call_per_block v e fuel s :
  pagesize_ok e -> read_full e ->
  run v e fuel = Finished EXIT_SUCCESS s ->
  Z.of_nat (nwrites s) = blocks (Z.of_nat (length (file e))) (count_of v e) /\
  nreads s = S (nwrites s).
Proof.
  intros Hps Hfull Hrun.
  pose proof (count_positive v e Hps) as Hc.
  destruct (run_cases v e fuel
              (block_steps (count_of v e) (Z.of_nat (length (file e))))) as
    [(s' & Hstop & _)
    |(s_in & s0 & res & Hrdy & _ & Hinv & Hfo & Hres)].
  - intros s_in Hrdy. unfold block_steps.
    rewrite (ready_nreads _ _ _ Hrdy), (ready_nwrites _ _ _ Hrdy),
      (ready_pos _ _ _ Hrdy).
    cbn. lia.
  - intros s_in s0 r s1 w s2 _ _ Hinv Hr Hpos Hw _.
    exact (block_steps_iter e _ _ _ _ s0 r s1 w s2 Hfull Hc Hinv Hr Hpos Hw).
  - rewrite Hstop in Hrun. discriminate Hrun.
  - rewrite Hres in Hrun.
    destruct Hfo as [|r s1 w s2 Hr Hpos Hw Hnew|r s1 Hr Hm1
                     |r s1 Hr Hle Hnr Hcl|r s1 Hr Hle Hnr Hcl];
      cbn [to_outcome] in Hrun; try discriminate Hrun.
    injection Hrun as <-.
    rewrite released_nwrites, released_nreads. cbn [nreads nwrites add_log].
    unfold do_read in Hr. injection Hr as Hr1 <-. cbn [nreads nwrites].
    rewrite Hfull in Hr1.
    destruct Hinv as (Hw & Hlen & Hat & Hk & Hgt).
    split; [|congruence].
    rewrite Hw. unfold blocks. apply Z.div_unique
      with (r := Z.of_nat (length (file e)) + count_of v e - 1
                 - count_of v e * Z.of_nat (nreads s0)); nia.
Qed.

Lemma env_hello_read_full : read_full env_hello.
Proof. intros i off count. reflexivity. Qed.

Lemma one_call_per_block_witness :
  let s := final (run Cat1 env_hello 15) in
  Z.of_nat (nwrites s) =
    blocks (Z.of_nat (length (file env_hello))) (count_of Cat1 env_hello) /\
  nreads s = S (nwrites s).
Proof.
  intros s.
  apply (one_call_per_block Cat1 env_hello 15 s env_hello_pagesize_ok
           env_hello_read_full).
  vm_compute. reflexivity.
Defined.

(** * The variants compared *)

Lemma copy_succeeds_witness :
  exists s, run Cat4 env_odd_pagesize 15 = Finished EXIT_SUCCESS s /\
            out s = file env_odd_pagesize.
Proof.
  apply (copy_succeeds Cat4 env_odd_pagesize 15).
  - reflexivity.
  - discriminate.
  - discriminate.
  - right. cbn. lia.
  - unfold long_range. cbn. lia.
  - exact env_hello_malloc_fits.
  - intros _. vm_compute. discriminate.
  - exact env_hello_read_ok.
  - intros i off count Hc.
    cbn [env_odd_pagesize with_advice env_hello read_ret]. lia.
  - intros i count. reflexivity.
  - cbn. lia.
Defined.


(** ** mycat5 and mycat6 *)

Lemma same_setup_Cat5_Cat6 e :
  request_of Cat6 e = request_of Cat5 e /\
  block_of Cat6 e = block_of Cat5 e /\
  buffer_of Cat6 e = buffer_of Cat5 e /\
  count_of Cat6 e = count_of Cat5 e.
Proof. repeat split. Qed.

(** X15. mycat6 is mycat5 with a hint to the kernel: in every environment
    the two programs make the same calls with the same results, in the
    same order, write the same bytes to standard output and end with the
    same exit status.  (They differ in what they write to the error
    stream.) *)
Theorem hint_changes_diagnostics_only e fuel :
  same_behaviour (run Cat5 e fuel) (run Cat6 e fuel).
Proof.
  destruct (same_setup_Cat5_Cat6 e) as (Hreq & Hblock & Hbuf & Hcount).
  destruct (main_shape Cat5 e) as [(s & Heq & (Hout & _) & Hst)|(s & Heq & Hr)];
    destruct (main_shape Cat6 e)
      as [(s' & Heq' & (Hout' & _) & Hst')|(s' & Heq' & Hr')];
    unfold run; rewrite Heq, Heq'.
  - cbn [to_outcome same_behaviour]. split; [reflexivity|].
    split; [congruence|].
    destruct Hst as [? Hl ?|? ? ? Hl ? ?|? ? ? ? Hl ? ?|? ? ? Hl ?
                     |? ? ? ? ? Hl ?|? ? ? ? ? ? Hl];
      destruct Hst' as [? Hl' ?|? ? ? Hl' ? ?|? ? ? ? Hl' ? ?|? ? ? Hl' ?
                        |? ? ? ? ? Hl' ?|? ? ? ? ? ? Hl'];
      try discriminate; try congruence.
  - exfalso.
    pose proof (ready_argc _ _ _ Hr') as Ha.
    pose proof (ready_fd _ _ _ Hr') as Hfd.
    destruct (ready_buf _ _ _ Hr' ltac:(discriminate)) as [Hb Hp].
    destruct Hst as [? ? ?|? ? ? ? ? ?|? ? ? ? ? ? ?|? Hv ? ? ?
                     |? ? ? ? ? ? ?|? ? ? ? ? ? ?];
      try discriminate; congruence.
  - exfalso.
    pose proof (ready_argc _ _ _ Hr) as Ha.
    pose proof (ready_fd _ _ _ Hr) as Hfd.
    destruct (ready_buf _ _ _ Hr ltac:(discriminate)) as [Hb Hp].
    destruct Hst' as [? ? ?|? ? ? ? ? ?|? ? ? ? ? ? ?|? Hv ? ? ?
                      |? ? ? ? ? ? ?|? ? ? ? ? ? ?];
      try discriminate; congruence.
  - assert (Hs : same_but_err s s').
    { unfold same_but_err.
      rewrite (ready_mem _ _ _ Hr), (ready_mem _ _ _ Hr'),
        (ready_heap _ _ _ Hr), (ready_heap _ _ _ Hr'),
        (ready_pos _ _ _ Hr), (ready_pos _ _ _ Hr'),
        (ready_nreads _ _ _ Hr), (ready_nreads _ _ _ Hr'),
        (ready_nwrites _ _ _ Hr), (ready_nwrites _ _ _ Hr'),
        (ready_out _ _ _ Hr), (ready_out _ _ _ Hr'),
        (ready_log _ _ _ Hr), (ready_log _ _ _ Hr').
      repeat split. }
    pose proof (ready_release _ _ _ Hr) as Hrel.
    pose proof (ready_release _ _ _ Hr') as Hrel'.
    pose proof (finish_same e e (open_ret e) (buffer_of Cat5 e)
                  (count_of Cat5 e) (wlen_of Cat5)
                  (release_of Cat5 (buffer_of Cat5 e))
                  (release_of Cat6 (buffer_of Cat6 e))
                  (blk_of Cat5 e) s s'
                  eq_refl (fun _ _ _ => eq_refl) (fun _ _ => eq_refl) eq_refl
                  Hrel Hrel' fuel s s'
                  (agree_refl _ _) (agree_refl _ _) Hs) as Hfin.
    change (finish fuel (open_ret e) (buffer_of Cat6 e) (count_of Cat6 e)
              (wlen_of Cat6) (release_of Cat6 (buffer_of Cat6 e)) e s')
      with (finish fuel (open_ret e) (buffer_of Cat5 e) (count_of Cat5 e)
              (wlen_of Cat5) (release_of Cat6 (buffer_of Cat6 e)) e s').
    destruct (finish fuel _ _ _ _ _ e s) as [c1 t1|c1 t1|t1|t1];
      destruct (finish fuel _ _ _ _ _ e s') as [c2 t2|c2 t2|t2|t2];
      cbn [same_result] in Hfin; try contradiction;
      cbn [to_outcome same_behaviour].
    + destruct Hfin as (Hc & _ & _ & _ & _ & _ & Ho & Hl). auto.
    + destruct Hfin as (Hc & _ & _ & _ & _ & _ & Ho & Hl). auto.
    + destruct Hfin as (_ & _ & _ & _ & _ & Ho & Hl). auto.
    + destruct Hfin as (_ & _ & _ & _ & _ & Ho & Hl). auto.
Qed.

(** ** The advisory calls *)

Lemma page_size_failure_is_soft_witness :
  same_behaviour
    (run Cat4 env_no_pagesize 15)
    (run Cat4 (with_advice 4096 (fstat_ret env_no_pagesize)
                 (st_blksize env_no_pagesize) (fadvise_ret env_no_pagesize)
                 env_no_pagesize) 15).
Proof.
  apply (page_size_failure_is_soft Cat4 env_no_pagesize 15). reflexivity.
Defined.

Lemma fstat_failure_is_soft_witness :
  same_behaviour
    (run Cat4 env_no_fstat 15)
    (run Cat4 (with_advice (sysconf_ret env_no_fstat) 0 0
                 (fadvise_ret env_no_fstat) env_no_fstat) 15).
Proof.
  apply (fstat_failure_is_soft Cat4 env_no_fstat 15). discriminate.
Defined.

(** * The order of the calls *)

(** The log of a run that has ended: that of a run that stopped before
    the loop, or what was acquired, the reads and writes of the loop, one
    [close] and the release of the buffer. *)
Lemma finished_log v e fuel code s :
  run v e fuel = Finished code s ->
  stopped v e s \/
  exists s_in l,
    ready v e s_in /\
    Forall (fun ev => is_read ev \/ is_write ev) l /\
    log s = acquire_log v e ++ l ++
            EvClose (open_ret e) (close_ret e)
              :: match blk_of v e with Some p => [EvFree p] | None => [] end /\
    heap s = ∅.
Proof.
  intros Hrun.
  destruct (run_cases v e fuel (in_loop v e)) as
    [(s' & Hstop & _ & Hst)
    |(s_in & s0 & res & Hrdy & [Hheap _] & Hinv & Hfo & Hres)].
  - intros s_in Hrdy. exact (in_loop_ready v e s_in Hrdy).
  - intros s_in s0 r s1 w s2 _ _ Hinv Hr _ Hw _.
    exact (in_loop_iter v e _ _ _ (wlen_of v) s0 r s1 w s2 Hinv Hr Hw).
  - left. rewrite Hstop in Hrun. injection Hrun as _ <-. exact Hst.
  - right. exists s_in. rewrite Hres in Hrun.
    assert (Hend : forall s1 sf,
              in_loop v e s1 -> heap s1 = heap s0 ->
              log sf = log s1 ++ [EvClose (open_ret e) (close_ret e)] ->
              heap sf = heap s1 ->
              exists l,
                ready v e s_in /\
                Forall (fun ev => is_read ev \/ is_write ev) l /\
                log (released (blk_of v e) sf) =
                  acquire_log v e ++ l ++
                  EvClose (open_ret e) (close_ret e)
                    :: match blk_of v e with
                       | Some p => [EvFree p]
                       | None => []
                       end /\
                heap (released (blk_of v e) sf) = ∅).
    { intros s1 sf (l & Hl & Hio) Hh1 Hlog Hhf. exists l.
      split; [exact Hrdy|]. split; [exact Hio|]. split.
      - rewrite released_log, Hlog, Hl, <- !app_assoc. reflexivity.
      - apply (heap_released_ready v e s_in _ Hrdy). congruence. }
    destruct Hfo as [|r s1 w s2 Hr Hpos Hw Hne|r s1 Hr Hm1
                     |r s1 Hr Hle Hne Hc|r s1 Hr Hle Hne Hc];
      cbn [to_outcome] in Hrun; try discriminate Hrun;
      injection Hrun as _ <-.
    + apply (Hend s2); try reflexivity.
      * exact (in_loop_iter v e _ _ _ (wlen_of v) s0 r s1 w s2 Hinv Hr Hw).
      * unfold do_read in Hr. unfold do_write in Hw.
        injection Hr as _ <-. injection Hw as _ <-. reflexivity.
    + destruct (in_loop_read v e _ _ _ s0 r s1 Hinv Hr) as [Hin1 Hh1].
      apply (Hend s1); try reflexivity; assumption.
    + destruct (in_loop_read v e _ _ _ s0 r s1 Hinv Hr) as [Hin1 Hh1].
      apply (Hend s1); try reflexivity; assumption.
    + destruct (in_loop_read v e _ _ _ s0 r s1 Hinv Hr) as [Hin1 Hh1].
      apply (Hend s1); try reflexivity; assumption.
Qed.

Lemma io_not_release l :
  Forall (fun ev => is_read ev \/ is_write ev) l ->
  Forall (fun ev => ~ is_release ev) l.
Proof.
  intros Hl. eapply Forall_impl; [exact Hl|].
  intros ev H Hrel.
  destruct ev; cbn [is_read is_write is_release] in *; tauto.
Qed.

(** X19. Release comes last.  In every run that has ended, the calls
    that give something back ([close], [free]) come after all other
    calls: once the program has closed its input or freed its buffer it
    opens, allocates, reads and writes nothing more.  In particular the
    descriptor is not used after [close] and the buffer is not used after
    [free]. *)
Theorem release_comes_last v e fuel code s :
  run v e fuel = Finished code s ->
  exists l1 l2,
    log s = l1 ++ l2 /\
    Forall (fun ev => ~ is_release ev) l1 /\ Forall is_release l2.
Proof.
  intros Hrun.
  destruct (finished_log v e fuel code s Hrun)
    as [Hst|(s_in & l & Hrdy & Hio & Hlog & _)].
  - destruct Hst as [? Hl ?|? ? ? Hl ? ?|? ? ? ? Hl ? ?|? ? ? Hl ?
                     |? ? ? ? ? Hl ?|? ? ? ? ? ? Hl]; rewrite Hl.
    + exists [], []. repeat constructor.
    + exists [EvOpen (open_ret e)], []. repeat constructor; auto.
    + exists [EvMalloc (request_of v e) (block_of v e); EvOpen (open_ret e)],
        [EvFree (block_of v e)].
      repeat constructor; auto.
    + exists [EvMalloc (request_of v e) NULL], []. repeat constructor; auto.
    + exists [EvOpen (open_ret e); EvMalloc (request_of v e) NULL],
        [EvClose (open_ret e) (close_ret e)].
      repeat constructor; auto.
    + exists [EvOpen (open_ret e); EvMalloc (request_of v e) (block_of v e)],
        [EvClose (open_ret e) (close_ret e)].
      repeat constructor; auto.
  - exists (acquire_log v e ++ l),
      (EvClose (open_ret e) (close_ret e)
         :: match blk_of v e with Some p => [EvFree p] | None => [] end).
    split; [rewrite Hlog, <- app_assoc; reflexivity|]. split.
    + apply Forall_app. split; [|exact (io_not_release l Hio)].
      destruct v; repeat constructor; auto.
    + destruct (blk_of v e); repeat constructor.
Qed.

Lemma release_comes_last_witness :
  exists l1 l2,
    log (final (run Cat2 env_short_write 1)) = l1 ++ l2 /\
    Forall (fun ev => ~ is_release ev) l1 /\ Forall is_release l2.
Proof.
  apply (release_comes_last Cat2 env_short_write 1 EXIT_FAILURE
           (final (run Cat2 env_short_write 1))).
  vm_compute. reflexivity.
Defined.

(** X20. Nothing is leaked and nothing is released twice, on any path of
    any variant: when a run has ended -- before the loop or after it, in
    success or in failure --, the descriptors passed to [close] are those
    that [open] returned, the blocks passed to [free] are those that
    [malloc] returned, and no block is left on the heap.  (The page size
    is assumed to be a power of two, the block size to be a [long], and
    heap blocks to lie inside the address space.) *)
Theorem acquired_is_released v e fuel code s :
  pagesize_pow2 e -> long_range (st_blksize e) -> malloc_fits e ->
  run v e fuel = Finished code s ->
  closes (log s) = opens (log s) /\
  frees (log s) = mallocs (log s) /\
  (length (opens (log s)) <= 1)%nat /\
  (length (mallocs (log s)) <= 1)%nat /\
  heap s = ∅.
Proof.
  intros Hps Hblk Hfit Hrun.
  destruct (finished_log v e fuel code s Hrun)
    as [Hst|(s_in & l & Hrdy & Hio & Hlog & Hheap)].
  - destruct Hst as [? Hl Hh|? ? Hopen Hl Hh ?|? -> Hopen Hp Hl Hh ?
                     |? -> Hnull Hl Hh|? ? ? Hopen Hnull Hl Hh
                     |? Hv1 Hv2 ? Hp Hbuf Hl];
      rewrite Hl; cbn [opens closes mallocs frees].
    + repeat split; auto.
    + rewrite Hopen. cbn. repeat split; auto.
    + rewrite Hopen. apply Z.eqb_neq in Hp. rewrite Hp. cbn.
      repeat split; auto.
    + change (NULL =? NULL) with true. cbn. repeat split; auto.
    + apply Z.eqb_neq in Hopen. rewrite Hopen.
      change (NULL =? NULL) with true. cbn. repeat split; auto.
    + exfalso.
      assert (Hal : aligned v) by (destruct v; simpl; try exact I; contradiction).
      exact (buffer_nonnull v e Hal Hps Hblk Hfit Hp Hbuf).
  - destruct (io_neutral l Hio) as (Ho & Hc & Hm & Hf).
    pose proof (ready_fd _ _ _ Hrdy) as Hfd. apply Z.eqb_neq in Hfd.
    rewrite Hlog, !opens_app, !closes_app, !mallocs_app, !frees_app,
      Ho, Hc, Hm, Hf.
    split; [|split; [|split; [|split; [|exact Hheap]]]].
    + destruct v; cbn [acquire_log blk_of opens closes app];
        rewrite Hfd; try reflexivity;
        destruct (_ =? NULL); reflexivity.
    + destruct v; [reflexivity|..];
        (destruct (ready_buf _ _ _ Hrdy ltac:(discriminate)) as [_ Hp]);
        apply Z.eqb_neq in Hp;
        cbn [acquire_log blk_of mallocs frees app]; rewrite Hp;
        reflexivity.
    + destruct v; cbn [acquire_log blk_of opens closes app];
        rewrite Hfd; cbn; try lia;
        destruct (_ =? NULL); cbn; lia.
    + destruct v; cbn [acquire_log blk_of mallocs frees app];
        try (cbn; lia); destruct (_ =? NULL); cbn; lia.
Qed.

Lemma acquired_is_released_witness :
  let s := final (run Cat2 env_no_file 0) in
  closes (log s) = opens (log s) /\
  frees (log s) = mallocs (log s) /\
  (length (opens (log s)) <= 1)%nat /\
  (length (mallocs (log s)) <= 1)%nat /\
  heap s = ∅.
Proof.
  intros s.
  apply (acquired_is_released Cat2 env_no_file 0 EXIT_FAILURE s).
  - right. exists 12. split; [lia|reflexivity].
  - unfold long_range. cbn. lia.
  - intros n. cbn [env_no_file malloc_ret].
    destruct (n <=? 2 ^ 32) eqn:Hn.
    + right. apply Z.leb_le in Hn. change (to_size 65536) with 65536.
      rewrite SIZE_MODULUS_eq. change (2 ^ 32) with 4294967296 in Hn. lia.
    + left. reflexivity.
  - vm_compute. reflexivity.
Defined.

(** * The aligned region *)



(** * Standard output follows the chunks read *)

(** C9 (as amended).  On every run of every variant, also one that ends
    in a read, write or close failure or that is still in the loop, the
    chunks read so far are a prefix of the input file and standard output
    is a prefix of these chunks; it is exactly their concatenation unless a
    write has failed, in which case the last chunk read is emitted only up
    to the count that write returned: the log then ends with the read of
    that chunk, the write that returned a count [w] other than the length
    of the chunk, and calls that neither read nor write, and standard
    output holds the chunks read before and the first [w] bytes of the
    last one; and no write is attempted after a read that returned 0 or a
    negative value. *)
Theorem output_follows_chunks v e fuel :
  read_ok e ->
  let s := final (run v e fuel) in
  chunks_read (log s) `prefix_of` file e /\
  out s `prefix_of` chunks_read (log s) /\
  (~ In MsgWriteFailed (err s) -> out s = chunks_read (log s)) /\
  (In MsgWriteFailed (err s) ->
     exists l fd buf cnt r last fd' buf' w rest,
       log s = l ++ EvRead fd buf cnt r last
                 :: EvWrite fd' buf' r w (take (Z.to_nat w) last) :: rest /\
       Forall (fun ev => ~ is_read ev /\ ~ is_write ev) rest /\
       length last = Z.to_nat r /\ w <> r /\
       chunks_read (log s) = chunks_read l ++ last /\
       out s = chunks_read l ++ take (Z.to_nat w) last) /\
  no_write_after_end (log s).
Proof.
  intros Hrd.
  assert (Hnf : chunks_read
            (match blk_of v e with Some p => [EvFree p] | None => [] end)
            = []) by (destruct (blk_of v e); reflexivity).
  destruct (run_cases_reported v e fuel (streamed e)) as
    [(s' & Hstop & (Hout & _) & Hst & l0 & m & Herr0 & Hl0 & Hm)
    |(s_in & s0 & res & Hrdy & Hag & Hinv & Hfo & Hres)].
  - intros s_in Hrdy. exact (streamed_ready v e s_in Hrdy).
  - intros s_in s0 r s1 w s2 _ _ Hinv Hr Hpos Hw Hweq.
    exact (streamed_iter v e Hrd _ _ s0 r s1 w s2 Hinv Hr Hpos Hw Hweq).
  - rewrite Hstop. cbn [final].
    destruct (stopped_quiet v e s' Hst) as [Hch Hq].
    rewrite Hch, Hout. split; [|split; [|split; [|split]]].
    + apply prefix_nil.
    + apply prefix_nil.
    + intros _. reflexivity.
    + intros Hin. exfalso. rewrite Herr0 in Hin.
      apply in_app_or in Hin. destruct Hin as [Hin|[Heq|[]]]; [|subst m; exact Hm].
      rewrite Forall_forall in Hl0.
      exact (Hl0 _ (proj2 (list_elem_of_In _ _) Hin)).
    + apply quiet_no_write, Hq.
  - rewrite Hres. destruct Hinv as (Hout & Hch & Herr & Hlive).
    destruct Hfo as [|r s1 w s2 Hr Hpos Hw Hne|r s1 Hr Hm1
                     |r s1 Hr Hle Hne Hc|r s1 Hr Hle Hne Hc];
      cbn [to_outcome final];
      rewrite ?released_out, ?released_err, ?released_log;
      cbn [out err log add_log add_err].
    + (* still in the loop *)
      rewrite Hout, Hch. split; [|split; [|split; [|split]]].
      * apply prefix_take.
      * reflexivity.
      * intros _. reflexivity.
      * intros Hin. contradiction.
      * apply quiet_no_write. rewrite <- (app_nil_r (log s0)).
        apply quiet_app; [exact Hlive|exact I].
    + (* the write failed *)
      destruct (read_then_write v e Hrd _ _ s0 r s1 w s2 Hr Hpos Hw)
        as (data & Hlen & Hdata & Hpos2 & Herr2 & Hout2 & Hlog2).
      rewrite Hout2, Hlog2, Herr2, <- !app_assoc, !chunks_read_app.
      cbn [chunks_read app]. rewrite Hnf, !app_nil_r, Hout.
      split; [|split; [|split; [|split]]].
      * rewrite Hch, Hdata. rewrite take_take_drop. apply prefix_take.
      * apply prefix_app, prefix_take.
      * intros Hno. exfalso. apply Hno. apply in_or_app. right. left.
        reflexivity.
      * intros _.
        exists (log s0), (open_ret e), (buffer_of v e), (count_of v e), r,
          data, STDOUT_FILENO, (buffer_of v e), w,
          (EvClose (open_ret e) (close_ret e)
             :: match blk_of v e with Some p => [EvFree p] | None => [] end).
        split; [reflexivity|]. split.
        { constructor; [cbn; tauto|].
          destruct (blk_of v e); repeat constructor; cbn; tauto. }
        split; [exact Hlen|]. split; [|split; reflexivity].
        intros ->. apply Hne. symmetry. apply (wlen_of_id v e).
        unfold do_read in Hr. injection Hr as Hr1 _.
        destruct (read_ok_data e (nreads s0) (pos s0) (count_of v e) Hrd
                    (count_nonneg v e)) as [Hrc _]; [lia|].
        rewrite Hr1 in Hrc. exact Hrc.
      * apply quiet_no_write, quiet_app; [exact Hlive|].
        cbn [quiet_after_end end_read].
        split; [intros; lia|]. split; [tauto|]. split; [tauto|].
        apply quiet_free.
    + (* the read failed *)
      destruct (read_end e _ _ _ s0 r s1 Hr ltac:(lia)) as (Ho & He & Hp & Hl).
      rewrite Ho, He, Hl, <- !app_assoc, !chunks_read_app.
      cbn [chunks_read app]. rewrite Hnf, !app_nil_r, Hout, Hch.
      split; [|split; [|split; [|split]]].
      * apply prefix_take.
      * reflexivity.
      * intros _. reflexivity.
      * intros Hin. apply in_app_or in Hin. destruct Hin as [Hin|[Hin|[]]];
          [contradiction|discriminate].
      * apply quiet_no_write, quiet_app; [exact Hlive|].
        cbn [quiet_after_end end_read].
        split; [intros _; constructor; [simpl; tauto|apply not_write_free]|].
        split; [tauto|]. apply quiet_free.
    + (* close failed *)
      destruct (read_end e _ _ _ s0 r s1 Hr Hle) as (Ho & He & Hp & Hl).
      rewrite Ho, He, Hl, <- !app_assoc, !chunks_read_app.
      cbn [chunks_read app]. rewrite Hnf, !app_nil_r, Hout, Hch.
      split; [|split; [|split; [|split]]].
      * apply prefix_take.
      * reflexivity.
      * intros _. reflexivity.
      * intros Hin. apply in_app_or in Hin. destruct Hin as [Hin|[Hin|[]]];
          [contradiction|discriminate].
      * apply quiet_no_write, quiet_app; [exact Hlive|].
        cbn [quiet_after_end end_read].
        split; [intros _; constructor; [simpl; tauto|apply not_write_free]|].
        split; [tauto|]. apply quiet_free.
    + (* success *)
      destruct (read_end e _ _ _ s0 r s1 Hr Hle) as (Ho & He & Hp & Hl).
      rewrite Ho, He, Hl, <- !app_assoc, !chunks_read_app.
      cbn [chunks_read app]. rewrite Hnf, !app_nil_r, Hout, Hch.
      split; [|split; [|split; [|split]]].
      * apply prefix_take.
      * reflexivity.
      * intros _. reflexivity.
      * intros Hin. contradiction.
      * apply quiet_no_write, quiet_app; [exact Hlive|].
        cbn [quiet_after_end end_read].
        split; [intros _; constructor; [simpl; tauto|apply not_write_free]|].
        split; [tauto|]. apply quiet_free.
Qed.

Lemma output_follows_chunks_witness :
  let s := final (run Cat5 env_short_write 3) in
  chunks_read (log s) `prefix_of` hello /\
  out s `prefix_of` chunks_read (log s) /\
  (~ In MsgWriteFailed (err s) -> out s = chunks_read (log s)) /\
  (In MsgWriteFailed (err s) ->
     exists l fd buf cnt r last fd' buf' w rest,
       log s = l ++ EvRead fd buf cnt r last
                 :: EvWrite fd' buf' r w (take (Z.to_nat w) last) :: rest /\
       Forall (fun ev => ~ is_read ev /\ ~ is_write ev) rest /\
       length last = Z.to_nat r /\ w <> r /\
       chunks_read (log s) = chunks_read l ++ last /\
       out s = chunks_read l ++ take (Z.to_nat w) last) /\
  no_write_after_end (log s).
Proof.
  exact (output_follows_chunks Cat5 env_short_write 3 env_short_write_read_ok).
Defined.


(** * The copy is the file *)

(** C1. For every input file and every block-size policy (mycat1: 1 byte,
    mycat2: the page size, mycat4: filesystem-aware, mycat5 and mycat6:
    2 MiB), a run that ends with status [EXIT_SUCCESS] has written to
    standard output exactly the bytes of the input file; in particular the
    output is as long as the input, and an empty input gives an empty
    output.  And there are such runs: when no call fails -- the program is
    given one file name, [open], [malloc] and [close] succeed, no [read]
    returns [-1], every [write] takes all it is given --, every variant
    ends with [EXIT_SUCCESS], and one iteration more than the file has
    bytes is enough for that.  The environment is assumed to follow POSIX:
    [sysconf] yields a positive page size or [-1], and [read] transfers
    bytes of the file; for the second part also that the page size is at
    most [2^62], that [st_blksize] is a [long] and that heap blocks lie
    inside the address space. *)
Theorem copy_output_is_input v e :
  pagesize_ok e -> read_ok e ->
  (forall fuel s,
     run v e fuel = Finished EXIT_SUCCESS s ->
     out s = file e /\
     length (out s) = length (file e) /\
     (file e = [] -> out s = [])) /\
  (argc e = 2 -> open_ret e <> -1 -> close_ret e <> -1 ->
   sysconf_ret e <= 2 ^ 62 -> long_range (st_blksize e) -> malloc_fits e ->
   (v <> Cat1 -> block_of v e <> NULL) ->
   (forall i off count, 0 <= count -> read_ret e i off count <> -1) ->
   (forall i count, write_ret e i count = count) ->
   forall fuel, (length (file e) < fuel)%nat ->
   exists s, run v e fuel = Finished EXIT_SUCCESS s /\ out s = file e).
Proof.
  intros Hps Hrd. split.
  - intros fuel s Hrun.
    assert (Hout : out s = file e).
    { destruct (run_cases v e fuel (copied e)) as
        [(s' & Hstop & _)|(s_in & s0 & res & Hrdy & Hag & Hinv & Hfo & Hres)].
      - intros s_in Hrdy. unfold copied.
        rewrite (ready_out _ _ _ Hrdy), (ready_pos _ _ _ Hrdy). reflexivity.
      - intros s_in s0 r s1 w s2 _ _ Hinv Hr Hpos Hw Hweq.
        exact (copied_iter v e Hrd _ _ s0 r s1 w s2 Hinv Hr Hpos Hw Hweq).
      - rewrite Hstop in Hrun. discriminate Hrun.
      - rewrite Hres in Hrun.
        destruct Hfo as [|r s1 w s2 Hr Hpos Hw Hne|r s1 Hr Hm1
                         |r s1 Hr Hle Hne Hc|r s1 Hr Hle Hne Hc];
          simpl in Hrun; try discriminate Hrun.
        injection Hrun as <-.
        rewrite released_out. cbn [out add_log].
        unfold do_read in Hr. injection Hr as Hr Hs1. rewrite <- Hs1.
        cbn [out]. rewrite Hinv.
        destruct (Hrd (nreads s0) (pos s0) (count_of v e) (count_nonneg v e))
          as [H|(H1 & H2 & H3)]; [lia|].
        pose proof (count_positive v e Hps).
        apply take_ge. destruct H3 as [H3|H3]; lia. }
    split; [exact Hout|]. split; [rewrite Hout; reflexivity|].
    intros Hnil. rewrite Hout. exact Hnil.
  - intros Hargc Hopen Hclose Hmax Hblk Hfit Halloc Hne Hwr fuel Hfuel.
    assert (Hb : pagesize_bounded e).
    { destruct Hps as [H|H]; [left; exact H|right; lia]. }
    exact (copy_total v e fuel Hargc Hopen Hclose Hb Hblk Hfit Halloc Hrd
             Hne Hwr Hfuel).
Qed.

Lemma env_hello_no_failure v :
  argc env_hello = 2 /\ open_ret env_hello <> -1 /\
  close_ret env_hello <> -1 /\ sysconf_ret env_hello <= 2 ^ 62 /\
  (v <> Cat1 -> block_of v env_hello <> NULL) /\
  (forall i off count, 0 <= count -> read_ret env_hello i off count <> -1) /\
  (forall i count, write_ret env_hello i count = count).
Proof.
  split; [reflexivity|]. split; [discriminate|]. split; [discriminate|].
  split; [cbn; lia|]. split.
  - intros _. destruct v; vm_compute; discriminate.
  - split.
    + intros i off count Hc. cbn [env_hello read_ret]. lia.
    + intros i count. reflexivity.
Qed.

Lemma copy_output_is_input_witness :
  Forall (fun v =>
            exists s, run v env_hello 15 = Finished EXIT_SUCCESS s /\
                      out s = hello /\ length (out s) = 14%nat)
    [Cat1; Cat2; Cat4; Cat5; Cat6].
Proof.
  assert (H : forall v,
            exists s, run v env_hello 15 = Finished EXIT_SUCCESS s /\
                      out s = hello /\ length (out s) = 14%nat).
  { intros v.
    destruct (copy_output_is_input v env_hello env_hello_pagesize_ok
                env_hello_read_ok) as [Hsame Hreach].
    destruct (env_hello_no_failure v)
      as (Hargc & Hopen & Hclose & Hmax & Halloc & Hne & Hwr).
    destruct (Hreach Hargc Hopen Hclose Hmax env_hello_blksize
                env_hello_malloc_fits Halloc Hne Hwr 15%nat)
      as (s & Hrun & _); [cbn; lia|].
    exists s. split; [exact Hrun|].
    destruct (Hsame 15%nat s Hrun) as (H1 & H2 & _).
    split; [exact H1|exact H2]. }
  repeat constructor; apply H.
Defined.
